(** * Two-way Todo synchronisation (scripts/sync-amplify-data.js, scripts/sync-data.js)

    A shallow embedding of the synchronisation scripts.  The scripts talk
    to the outside world through [execSync] (shell commands: [ps], [sleep],
    [curl] against a GraphQL endpoint) and through [amplify_outputs.json];
    both are taken as parameters of the development, so every theorem of
    the generic part holds for every behaviour of the two replicas.  *)

From Stdlib Require Import String Ascii List ZArith Bool Lia.
Import ListNotations.
Local Open Scope string_scope.
Local Open Scope list_scope.

Set Implicit Arguments.

(** ** Data model *)

(** A Todo item as returned by the [listTodos] query.  [completed] is a
    nullable boolean ([None] is JavaScript's null/undefined). *)
Record Todo := mkTodo {
  id : string;
  content : string;
  completed : option bool;
  createdAt : string;
  updatedAt : string
}.

(** JavaScript truthiness of a string: only the empty string is falsy. *)
Definition truthy (s : string) : bool := negb (s =? "").

(** [todo.completed || false] *)
Definition or_false (c : option bool) : bool :=
  match c with Some b => b | None => false end.

(** [a > b] on the results of [getTime()]; [None] is NaN, and every
    comparison with NaN is false. *)
Definition js_gt (a b : option Z) : bool :=
  match a, b with
  | Some x, Some y => (y <? x)%Z
  | _, _ => false
  end.

(** The [input] variable of the createTodo mutation: [id] is only set when
    [todo.id] is truthy. *)
Record CreateTodoInput := mkCreateInput {
  ci_id : option string;
  ci_content : string;
  ci_completed : bool
}.

(** The [input] variable of the updateTodo mutation. *)
Record UpdateTodoInput := mkUpdateInput {
  ui_id : string;
  ui_content : string;
  ui_completed : option bool
}.

Definition createInput (todo : Todo) : CreateTodoInput :=
  {| ci_id := if truthy (id todo) then Some (id todo) else None;
     ci_content := content todo;
     ci_completed := or_false (completed todo) |}.

Definition updateInput (todo : Todo) : UpdateTodoInput :=
  {| ui_id := id todo;
     ui_content := content todo;
     ui_completed := completed todo |}.

(** ** The outside world *)

Inductive side := Local | Deployed.

Inductive request :=
| ListTodos
| CreateTodo (input : CreateTodoInput)
| UpdateTodo (input : UpdateTodoInput).

(** Shell commands handed to [execSync].  [PsSandbox] is the [ps aux | grep]
    for the sandbox process, [StartSandbox] is [npx ampx sandbox &],
    [Sleep ms] is [sleep (ms/1000)], and [Curl s endpoint key r] is the
    [curl -X POST] of request [r] issued by the accessor functions of side
    [s].  Both sides take endpoint and key from amplify_outputs.json; which
    replica answers a command is up to the world.  Writing and removing
    the temporary file that holds the request is taken to succeed. *)
Inductive command :=
| PsSandbox
| StartSandbox
| Sleep (ms : Z)
| Curl (s : side) (endpoint apiKey : string) (r : request).

(** What [JSON.parse] makes of a curl answer, as far as the scripts look
    at it. *)
Inductive json :=
| JListTodos (items : list Todo)
| JCreateTodo (todo : Todo)
| JUpdateTodo (todo : Todo)
| JOther.

(** The buffer returned by [execSync]. *)
Inductive output :=
| Json (j : json)
| NotJson.

(** [amplify_outputs.json] *)
Record AmplifyData := mkData { url : option string; api_key : option string }.

Inductive outputs_file :=
| FileMissing
| FileUnparseable
| FileParsed (data : option AmplifyData).

Inductive level := info | success | warning | error.

Inductive mode := LocalToDeployed | DeployedToLocal | TwoWay.

Inductive message :=
| MUsingProfile
| MExecuting (c : command)
| MRetrying (retries maxRetries : nat) (c : command)
| MFailedAfter (retries : nat) (c : command)
| MErrorMessage
| MSandboxNotRunning
| MSandboxWaiting
| MSandboxFailed
| MSandboxStarted
| MSandboxError
| MNoEndpoint
| MEndpointError
| MGraphQLError
| MCannotProceed
| MNoConnection
| MListError (s : side)
| MCreated (s : side) (i : string)
| MCreateFailed (s : side)
| MCreateError (s : side)
| MUpdated (s : side) (i : string)
| MUpdateFailed (s : side)
| MUpdateError (s : side)
| MSyncStart (m : mode)
| MFound (s : side) (n : nat)
| MUpdating (s : side) (i : string)
| MCreating (s : side) (i : string)
| MSyncDone (m : mode)
| MSyncError (m : mode).

(** What a run does that can be seen from outside. *)
Inductive event :=
| EvLog (l : level) (m : message)
| EvExec (c : command).

(** How a JavaScript computation ends: normally, by an exception, or by
    [process.exit]. *)
Inductive outcome (A : Type) :=
| Ret (a : A)
| Throw
| Exit (code : Z).
Arguments Throw {A}.
Arguments Exit {A} code.

(** Options of [execute]. *)
Record Options := mkOptions {
  silent : bool;
  ignoreError : bool;
  noRetry : bool;
  exitOnError : option bool;
  maxRetries : option nat;
  retryDelay : option Z
}.

(** [{ silent: true, ignoreError: true }] and friends. *)
Definition opts (s i : bool) : Options :=
  {| silent := s; ignoreError := i; noRetry := false;
     exitOnError := None; maxRetries := None; retryDelay := None |}.

(** ** JavaScript [Map] keyed by id, in insertion order *)

Definition TodoMap := list (string * Todo).

Fixpoint Map_set (m : TodoMap) (k : string) (v : Todo) : TodoMap :=
  match m with
  | [] => [(k, v)]
  | (k', v') :: m' =>
      if k' =? k then (k', v) :: m' else (k', v') :: Map_set m' k v
  end.

Fixpoint Map_get (m : TodoMap) (k : string) : option Todo :=
  match m with
  | [] => None
  | (k', v) :: m' => if k' =? k then Some v else Map_get m' k
  end.

Definition Map_has (m : TodoMap) (k : string) : bool :=
  match Map_get m k with Some _ => true | None => false end.

Definition Map_keys (m : TodoMap) : list string := map fst m.

Definition Map_values (m : TodoMap) : list Todo := map snd m.

(** [todos.forEach(todo => map.set(todo.id, todo))] on a new Map *)
Definition mapOf (todos : list Todo) : TodoMap :=
  fold_left (fun m todo => Map_set m (id todo) todo) todos [].

(** [new Set(list)]: first occurrences, in order. *)
Fixpoint Set_of (l : list string) : list string :=
  match l with
  | [] => []
  | x :: r => x :: filter (fun y => negb (x =? y)) (Set_of r)
  end.

(** ** The scripts' monad *)

Section Sync.

Variable W : Type.
(** [child_process.execSync]: [None] when the command exits non-zero and
    [execSync] throws. *)
Variable execSync : command -> W -> option output * W.
(** The state of [amplify_outputs.json] in the working directory. *)
Variable readOutputs : W -> outputs_file.
(** [new Date(s).getTime()]; [None] is NaN. *)
Variable getTime : string -> option Z.

Definition M (A : Type) : Type := W -> outcome A * W * list event.

Definition ret {A} (a : A) : M A := fun w => (Ret a, w, []).

Definition bind {A B} (m : M A) (f : A -> M B) : M B :=
  fun w =>
    match m w with
    | (Ret a, w', t) => let '(r, w'', t') := f a w' in (r, w'', t ++ t')
    | (Throw, w', t) => (Throw, w', t)
    | (Exit c, w', t) => (Exit c, w', t)
    end.

Definition throw {A} : M A := fun w => (Throw, w, []).

(** [process.exit(code)] *)
Definition process_exit {A} (code : Z) : M A := fun w => (Exit code, w, []).

(** [try { m } catch (error) { h }]; [process.exit] is not caught. *)
Definition try_catch {A} (m h : M A) : M A :=
  fun w =>
    match m w with
    | (Throw, w', t) => let '(r, w'', t') := h w' in (r, w'', t ++ t')
    | r => r
    end.

Definition log (m : message) (l : level) : M unit :=
  fun w => (Ret tt, w, [EvLog l m]).

Definition exec (c : command) : M output :=
  fun w =>
    match execSync c w with
    | (Some o, w') => (Ret o, w', [EvExec c])
    | (None, w') => (Throw, w', [EvExec c])
    end.

Definition outputsFile : M outputs_file := fun w => (Ret (readOutputs w), w, []).

Notation "x <- m ;; k" := (bind m (fun x => k))
  (at level 61, m at next level, right associativity).
Notation "m ;; k" := (bind m (fun _ => k))
  (at level 61, right associativity).
Notation "' pat <- m ;; k" := (bind m (fun x => match x with pat => k end))
  (at level 61, pat pattern, m at next level, right associativity).

(** [for (const x of xs) { body(x) }] *)
Fixpoint for_of {A} (xs : list A) (body : A -> M unit) : M unit :=
  match xs with
  | [] => ret tt
  | x :: r => body x ;; for_of r body
  end.

(** ** execute: a shell command with retry (sync-amplify-data.js) *)

(** [options.maxRetries || 3] *)
Definition maxRetries_of (o : Options) : nat :=
  match maxRetries o with
  | Some (S n) => S n
  | _ => 3
  end.

(** [options.retryDelay || 1000] *)
Definition retryDelay_of (o : Options) : Z :=
  match retryDelay o with
  | Some 0%Z | None => 1000%Z
  | Some d => d
  end.

(** The end of the [catch] block of [executeWithRetry], once no retry is
    left: report, leave the process unless told otherwise, return null. *)
Definition giveUp (command : command) (options : Options) (retries : nat)
  : M (option output) :=
  (if negb (ignoreError options) then
     log (MFailedAfter retries command) error ;;
     log MErrorMessage error ;;
     match exitOnError options with
     | Some false => ret tt
     | _ => process_exit 1%Z
     end
   else ret tt) ;;
  ret None.

(** The [try] block of [executeWithRetry]; [envSet] tells whether
    [options.env.AWS_PROFILE] has been set by an earlier attempt (no
    command of the script contains [--profile]).  With [stdio: 'pipe']
    [execSync] returns the output of the command, with [stdio: 'inherit']
    it returns null. *)
Definition attempt (command : command) (options : Options) (envSet : bool)
  : M (option output) :=
  (if envSet then ret tt else log MUsingProfile info) ;;
  log (MExecuting command) info ;;
  o <- exec command ;;
  ret (if silent options then Some o else None).

(** The closure [executeWithRetry].  [left] is [maxRetries - retries], so
    the test [retries < maxRetries] is [left] being a successor. *)
Fixpoint executeWithRetry (command : command) (options : Options)
    (left retries : nat) (envSet : bool) : M (option output) :=
  try_catch
    (attempt command options envSet)
    (match left with
     | S left' =>
         if negb (noRetry options) then
           log (MRetrying (S retries) (maxRetries_of options) command) warning ;;
           exec (Sleep (retryDelay_of options)) ;;
           executeWithRetry command options left' (S retries) true
         else giveUp command options retries
     | O => giveUp command options retries
     end).

Definition execute (command : command) (options : Options) : M (option output) :=
  executeWithRetry command options (maxRetries_of options) 0 false.

(** ** Accessors of the two replicas (sync-amplify-data.js) *)

(** [`${v}`] of a possibly undefined string *)
Definition interpolate (v : option string) : string :=
  match v with Some s => s | None => "undefined" end.

Definition getGraphQLEndpoint : M (option (string * option string)) :=
  try_catch
    (f <- outputsFile ;;
     match f with
     | FileUnparseable => throw
     | FileParsed (Some {| url := Some u; api_key := k |}) =>
         if truthy u then ret (Some (u, k))
         else log MNoEndpoint warning ;; ret None
     | _ => log MNoEndpoint warning ;; ret None
     end)
    (log MEndpointError error ;; ret None).

(** [JSON.parse(result.toString())] *)
Definition parse (result : option output) : M json :=
  match result with
  | Some (Json j) => ret j
  | _ => throw
  end.

Definition executeGraphQL (r : request) : M (option json) :=
  try_catch
    (e <- getGraphQLEndpoint ;;
     match e with
     | Some (endpoint, Some apiKey) =>
         if truthy apiKey then
           result <- execute (Curl Deployed endpoint apiKey r) (opts true false) ;;
           j <- parse result ;;
           ret (Some j)
         else throw
     | _ => throw
     end)
    (log MGraphQLError error ;; ret None).

Definition ensureSandboxRunning : M bool :=
  try_catch
    (isSandboxRunning <- execute PsSandbox (opts true true) ;;
     match isSandboxRunning with
     | Some _ => ret true
     | None =>
         log MSandboxNotRunning warning ;;
         execute StartSandbox (opts false true) ;;
         log MSandboxWaiting info ;;
         execute (Sleep 5000) (opts true false) ;;
         isSandboxRunningNow <- execute PsSandbox (opts true true) ;;
         match isSandboxRunningNow with
         | Some _ => log MSandboxStarted success ;; ret true
         | None => log MSandboxFailed error ;; ret false
         end
     end)
    (log MSandboxError error ;; ret false).

(** The local functions read the endpoint and the key themselves. *)
Definition localEndpoint : M (string * string) :=
  f <- outputsFile ;;
  match f with
  | FileParsed (Some d) => ret (interpolate (url d), interpolate (api_key d))
  | _ => throw
  end.

Definition listDeployedTodos : M (list Todo) :=
  try_catch
    (result <- executeGraphQL ListTodos ;;
     match result with
     | Some (JListTodos items) => ret items
     | _ => ret []
     end)
    (log (MListError Deployed) error ;; ret []).

Definition listLocalTodos : M (list Todo) :=
  try_catch
    (running <- ensureSandboxRunning ;;
     if negb running then log MCannotProceed error ;; ret []
     else
       '(endpoint, apiKey) <- localEndpoint ;;
       result <- execute (Curl Local endpoint apiKey ListTodos) (opts true true) ;;
       match result with
       | None => log MNoConnection warning ;; ret []
       | Some _ =>
           parsedResult <- parse result ;;
           match parsedResult with
           | JListTodos items => ret items
           | _ => ret []
           end
       end)
    (log (MListError Local) error ;; ret []).

Definition createDeployedTodo (todo : Todo) : M (option Todo) :=
  try_catch
    (result <- executeGraphQL (CreateTodo (createInput todo)) ;;
     match result with
     | Some (JCreateTodo created) =>
         log (MCreated Deployed (id created)) success ;; ret (Some created)
     | _ => log (MCreateFailed Deployed) error ;; ret None
     end)
    (log (MCreateError Deployed) error ;; ret None).

Definition createLocalTodo (todo : Todo) : M (option Todo) :=
  try_catch
    (running <- ensureSandboxRunning ;;
     if negb running then log MCannotProceed error ;; ret None
     else
       '(endpoint, apiKey) <- localEndpoint ;;
       result <- execute (Curl Local endpoint apiKey (CreateTodo (createInput todo)))
                   (opts true true) ;;
       match result with
       | None => log MNoConnection warning ;; ret None
       | Some _ =>
           parsedResult <- parse result ;;
           match parsedResult with
           | JCreateTodo created =>
               log (MCreated Local (id created)) success ;; ret (Some created)
           | _ => log (MCreateFailed Local) error ;; ret None
           end
       end)
    (log (MCreateError Local) error ;; ret None).

Definition updateDeployedTodo (todo : Todo) : M (option Todo) :=
  try_catch
    (result <- executeGraphQL (UpdateTodo (updateInput todo)) ;;
     match result with
     | Some (JUpdateTodo updated) =>
         log (MUpdated Deployed (id updated)) success ;; ret (Some updated)
     | _ => log (MUpdateFailed Deployed) error ;; ret None
     end)
    (log (MUpdateError Deployed) error ;; ret None).

Definition updateLocalTodo (todo : Todo) : M (option Todo) :=
  try_catch
    (running <- ensureSandboxRunning ;;
     if negb running then log MCannotProceed error ;; ret None
     else
       '(endpoint, apiKey) <- localEndpoint ;;
       result <- execute (Curl Local endpoint apiKey (UpdateTodo (updateInput todo)))
                   (opts true true) ;;
       match result with
       | None => log MNoConnection warning ;; ret None
       | Some _ =>
           parsedResult <- parse result ;;
           match parsedResult with
           | JUpdateTodo updated =>
               log (MUpdated Local (id updated)) success ;; ret (Some updated)
           | _ => log (MUpdateFailed Local) error ;; ret None
           end
       end)
    (log (MUpdateError Local) error ;; ret None).

(** ** The three synchronisation functions (sync-amplify-data.js) *)

Definition syncLocalToDeployed : M unit :=
  try_catch
    (log (MSyncStart LocalToDeployed) info ;;
     localTodos <- listLocalTodos ;;
     deployedTodos <- listDeployedTodos ;;
     log (MFound Local (length localTodos)) info ;;
     log (MFound Deployed (length deployedTodos)) info ;;
     let deployedTodosMap := mapOf deployedTodos in
     for_of localTodos (fun localTodo =>
       if Map_has deployedTodosMap (id localTodo) then
         match Map_get deployedTodosMap (id localTodo) with
         | Some deployedTodo =>
             let localUpdatedAt := getTime (updatedAt localTodo) in
             let deployedUpdatedAt := getTime (updatedAt deployedTodo) in
             if js_gt localUpdatedAt deployedUpdatedAt then
               log (MUpdating Deployed (id localTodo)) info ;;
               updateDeployedTodo localTodo ;; ret tt
             else ret tt
         | None => throw
         end
       else
         log (MCreating Deployed (id localTodo)) info ;;
         createDeployedTodo localTodo ;; ret tt) ;;
     log (MSyncDone LocalToDeployed) success)
    (log (MSyncError LocalToDeployed) error).

Definition syncDeployedToLocal : M unit :=
  try_catch
    (log (MSyncStart DeployedToLocal) info ;;
     localTodos <- listLocalTodos ;;
     deployedTodos <- listDeployedTodos ;;
     log (MFound Local (length localTodos)) info ;;
     log (MFound Deployed (length deployedTodos)) info ;;
     let localTodosMap := mapOf localTodos in
     for_of deployedTodos (fun deployedTodo =>
       if Map_has localTodosMap (id deployedTodo) then
         match Map_get localTodosMap (id deployedTodo) with
         | Some localTodo =>
             let localUpdatedAt := getTime (updatedAt localTodo) in
             let deployedUpdatedAt := getTime (updatedAt deployedTodo) in
             if js_gt deployedUpdatedAt localUpdatedAt then
               log (MUpdating Local (id deployedTodo)) info ;;
               updateLocalTodo deployedTodo ;; ret tt
             else ret tt
         | None => throw
         end
       else
         log (MCreating Local (id deployedTodo)) info ;;
         createLocalTodo deployedTodo ;; ret tt) ;;
     log (MSyncDone DeployedToLocal) success)
    (log (MSyncError DeployedToLocal) error).

Definition commonTodoIds (localTodosMap deployedTodosMap : TodoMap) : list string :=
  Set_of (filter (fun i => Map_has deployedTodosMap i) (Map_keys localTodosMap)).

Definition localOnlyTodoIds (localTodosMap deployedTodosMap : TodoMap) : list string :=
  Set_of (filter (fun i => negb (Map_has deployedTodosMap i)) (Map_keys localTodosMap)).

Definition deployedOnlyTodoIds (localTodosMap deployedTodosMap : TodoMap) : list string :=
  Set_of (filter (fun i => negb (Map_has localTodosMap i)) (Map_keys deployedTodosMap)).

(** The three loops of [syncTwoWay], after both lists have been read. *)
Definition syncTwoWay_loops (localTodos deployedTodos : list Todo) : M unit :=
  let localTodosMap := mapOf localTodos in
  let deployedTodosMap := mapOf deployedTodos in
  for_of (commonTodoIds localTodosMap deployedTodosMap) (fun i =>
    match Map_get localTodosMap i, Map_get deployedTodosMap i with
    | Some localTodo, Some deployedTodo =>
        let localUpdatedAt := getTime (updatedAt localTodo) in
        let deployedUpdatedAt := getTime (updatedAt deployedTodo) in
        if js_gt localUpdatedAt deployedUpdatedAt then
          log (MUpdating Deployed (id localTodo)) info ;;
          updateDeployedTodo localTodo ;; ret tt
        else if js_gt deployedUpdatedAt localUpdatedAt then
          log (MUpdating Local (id deployedTodo)) info ;;
          updateLocalTodo deployedTodo ;; ret tt
        else ret tt
    | _, _ => throw
    end) ;;
  for_of (localOnlyTodoIds localTodosMap deployedTodosMap) (fun i =>
    match Map_get localTodosMap i with
    | Some localTodo =>
        log (MCreating Deployed (id localTodo)) info ;;
        createDeployedTodo localTodo ;; ret tt
    | None => throw
    end) ;;
  for_of (deployedOnlyTodoIds localTodosMap deployedTodosMap) (fun i =>
    match Map_get deployedTodosMap i with
    | Some deployedTodo =>
        log (MCreating Local (id deployedTodo)) info ;;
        createLocalTodo deployedTodo ;; ret tt
    | None => throw
    end).

Definition syncTwoWay : M unit :=
  try_catch
    (log (MSyncStart TwoWay) info ;;
     localTodos <- listLocalTodos ;;
     deployedTodos <- listDeployedTodos ;;
     log (MFound Local (length localTodos)) info ;;
     log (MFound Deployed (length deployedTodos)) info ;;
     syncTwoWay_loops localTodos deployedTodos ;;
     log (MSyncDone TwoWay) success)
    (log (MSyncError TwoWay) error).

(** ** The plan of a two-way run

    The accessor calls of [syncTwoWay], as the list of operations of the
    specification's [diff]: [target] is the replica written to, [record]
    the record handed to the accessor. *)

Inductive kind := create | update.

Record operation := mkOp { target : side; opkind : kind; record : Todo }.

(** One accessor call, with the log line that precedes it. *)
Definition perform (o : operation) : M unit :=
  match target o, opkind o with
  | Deployed, update =>
      log (MUpdating Deployed (id (record o))) info ;;
      updateDeployedTodo (record o) ;; ret tt
  | Local, update =>
      log (MUpdating Local (id (record o))) info ;;
      updateLocalTodo (record o) ;; ret tt
  | Deployed, create =>
      log (MCreating Deployed (id (record o))) info ;;
      createDeployedTodo (record o) ;; ret tt
  | Local, create =>
      log (MCreating Local (id (record o))) info ;;
      createLocalTodo (record o) ;; ret tt
  end.

Definition commonOps (localTodosMap deployedTodosMap : TodoMap) (i : string)
  : list operation :=
  match Map_get localTodosMap i, Map_get deployedTodosMap i with
  | Some localTodo, Some deployedTodo =>
      let localUpdatedAt := getTime (updatedAt localTodo) in
      let deployedUpdatedAt := getTime (updatedAt deployedTodo) in
      if js_gt localUpdatedAt deployedUpdatedAt then [mkOp Deployed update localTodo]
      else if js_gt deployedUpdatedAt localUpdatedAt then [mkOp Local update deployedTodo]
      else []
  | _, _ => []
  end.

Definition createOps (s : side) (m : TodoMap) (i : string) : list operation :=
  match Map_get m i with
  | Some todo => [mkOp s create todo]
  | None => []
  end.

Definition twoWayPlan (localTodos deployedTodos : list Todo) : list operation :=
  let localTodosMap := mapOf localTodos in
  let deployedTodosMap := mapOf deployedTodos in
  flat_map (commonOps localTodosMap deployedTodosMap)
           (commonTodoIds localTodosMap deployedTodosMap)
  ++ flat_map (createOps Deployed localTodosMap)
           (localOnlyTodoIds localTodosMap deployedTodosMap)
  ++ flat_map (createOps Local deployedTodosMap)
           (deployedOnlyTodoIds localTodosMap deployedTodosMap).

End Sync.

(** ** Concrete worlds, used to run the scripts on explicit inputs *)

(** *** Timestamps

    [new Date(s).getTime()] on the strings the backends emit for
    AWSDateTime fields and [toISOString()] produces,
    [YYYY-MM-DDTHH:MM:SS.mmmZ]: milliseconds since the epoch.  Any other
    string is answered NaN here; of those, only strings with no date in
    them at all are used below. *)

Definition digit (a : ascii) : option Z :=
  let n := Z.of_nat (nat_of_ascii a) in
  if ((48 <=? n) && (n <=? 57))%Z then Some (n - 48)%Z else None.

Fixpoint digits (l : list ascii) (acc : Z) : option Z :=
  match l with
  | [] => Some acc
  | a :: r =>
      match digit a with
      | Some d => digits r (10 * acc + d)%Z
      | None => None
      end
  end.

(** Days from 1970-01-01 to the civil date [y]-[m]-[d]. *)
Definition daysFromCivil (y m d : Z) : Z :=
  let y' := if (m <=? 2)%Z then (y - 1)%Z else y in
  let era := (y' / 400)%Z in
  let yoe := (y' - era * 400)%Z in
  let mp := if (2 <? m)%Z then (m - 3)%Z else (m + 9)%Z in
  let doy := ((153 * mp + 2) / 5 + d - 1)%Z in
  let doe := (yoe * 365 + yoe / 4 - yoe / 100 + doy)%Z in
  (era * 146097 + doe - 719468)%Z.

Definition inRange (lo hi : Z) (v : option Z) : option Z :=
  match v with
  | Some x => if ((lo <=? x) && (x <=? hi))%Z then Some x else None
  | None => None
  end.

Definition isoTime (s : string) : option Z :=
  match list_ascii_of_string s with
  | [y1; y2; y3; y4; c1; m1; m2; c2; d1; d2; c3; h1; h2; c4; n1; n2; c5;
     s1; s2; c6; f1; f2; f3; c7] =>
      if (Ascii.eqb c1 "-" && Ascii.eqb c2 "-" && Ascii.eqb c3 "T"
          && Ascii.eqb c4 ":" && Ascii.eqb c5 ":" && Ascii.eqb c6 "."
          && Ascii.eqb c7 "Z")%char then
        match digits [y1; y2; y3; y4] 0,
              inRange 1 12 (digits [m1; m2] 0),
              inRange 1 31 (digits [d1; d2] 0),
              inRange 0 23 (digits [h1; h2] 0),
              inRange 0 59 (digits [n1; n2] 0),
              inRange 0 59 (digits [s1; s2] 0),
              digits [f1; f2; f3] 0 with
        | Some y, Some m, Some d, Some h, Some n, Some sec, Some ms =>
            Some ((((daysFromCivil y m d * 24 + h) * 60 + n) * 60 + sec) * 1000 + ms)%Z
        | _, _, _, _, _, _, _ => None
        end
      else None
  | _ => None
  end.

(** *** A scripted world

    The world is the list of the outcomes of the coming [execSync] calls,
    in order ([None]: the command fails); once the script is used up every
    command fails.  [amplify_outputs.json] is in place. *)

Definition Script := list (option output).

Definition script_execSync (c : command) (w : Script) : option output * Script :=
  match w with
  | [] => (None, [])
  | r :: w' => (r, w')
  end.

Definition theEndpoint : string := "https://api.example.com/graphql".
Definition theKey : string := "da2-key".

Definition theOutputs : outputs_file :=
  FileParsed (Some (mkData (Some theEndpoint) (Some theKey))).

Definition script_outputs (w : Script) : outputs_file := theOutputs.

(** *** Two stores behind faithful accessors

    Each replica is a list of records with distinct ids.  A mutation
    stores what its input says and stamps the record with the replica's
    own clock ([updatedAt] is updated on every mutation, [createdAt] set
    once at creation); a createTodo without id gets [fresh_id]; a
    createTodo of a known id and an updateTodo of an unknown one are
    answered with an error and change nothing.  Every command succeeds and
    the sandbox is running. *)

Record Stores := mkStores {
  local_db : list Todo;
  deployed_db : list Todo;
  now : string;
  fresh_id : string
}.

Definition db (s : side) (w : Stores) : list Todo :=
  match s with Local => local_db w | Deployed => deployed_db w end.

Definition set_db (s : side) (l : list Todo) (w : Stores) : Stores :=
  match s with
  | Local => {| local_db := l; deployed_db := deployed_db w;
                now := now w; fresh_id := fresh_id w |}
  | Deployed => {| local_db := local_db w; deployed_db := l;
                   now := now w; fresh_id := fresh_id w |}
  end.

Fixpoint lookup (i : string) (l : list Todo) : option Todo :=
  match l with
  | [] => None
  | t :: r => if id t =? i then Some t else lookup i r
  end.

Fixpoint replace (t : Todo) (l : list Todo) : list Todo :=
  match l with
  | [] => []
  | t' :: r => if id t' =? id t then t :: r else t' :: replace t r
  end.

Definition store_create (w : Stores) (s : side) (input : CreateTodoInput)
  : option output * Stores :=
  let i := match ci_id input with Some i => i | None => fresh_id w end in
  match lookup i (db s w) with
  | Some _ => (Some (Json JOther), w)
  | None =>
      let t := {| id := i; content := ci_content input;
                  completed := Some (ci_completed input);
                  createdAt := now w; updatedAt := now w |} in
      (Some (Json (JCreateTodo t)), set_db s (db s w ++ [t]) w)
  end.

Definition store_update (w : Stores) (s : side) (input : UpdateTodoInput)
  : option output * Stores :=
  match lookup (ui_id input) (db s w) with
  | None => (Some (Json JOther), w)
  | Some old =>
      let t := {| id := ui_id input; content := ui_content input;
                  completed := ui_completed input;
                  createdAt := createdAt old; updatedAt := now w |} in
      (Some (Json (JUpdateTodo t)), set_db s (replace t (db s w)) w)
  end.

Definition store_execSync (c : command) (w : Stores) : option output * Stores :=
  match c with
  | Curl s _ _ ListTodos => (Some (Json (JListTodos (db s w))), w)
  | Curl s _ _ (CreateTodo input) => store_create w s input
  | Curl s _ _ (UpdateTodo input) => store_update w s input
  | _ => (Some NotJson, w)
  end.

Definition store_outputs (w : Stores) : outputs_file := theOutputs.

(** ** Observations on runs *)

Definition result {W A} (x : outcome A * W * list event) : outcome A := fst (fst x).
Definition final {W A} (x : outcome A * W * list event) : W := snd (fst x).
Definition trace {W A} (x : outcome A * W * list event) : list event := snd x.

(** The commands a run handed to [execSync], in order. *)
Fixpoint commands (t : list event) : list command :=
  match t with
  | [] => []
  | EvExec c :: r => c :: commands r
  | EvLog _ _ :: r => commands r
  end.

Definition side_eqb (a b : side) : bool :=
  match a, b with
  | Local, Local | Deployed, Deployed => true
  | _, _ => false
  end.

(** A createTodo or updateTodo mutation sent by the accessors of side [s]. *)
Definition writes_to (s : side) (c : command) : bool :=
  match c with
  | Curl s' _ _ (CreateTodo _) | Curl s' _ _ (UpdateTodo _) => side_eqb s s'
  | _ => false
  end.

Definition is_write (c : command) : bool := writes_to Local c || writes_to Deployed c.

(** The commands [execute] runs when every attempt fails: the command,
    then [n] times a pause and the command again. *)
Fixpoint retrySchedule (c : command) (delay : Z) (n : nat) : list command :=
  match n with
  | O => [c]
  | S n' => c :: Sleep delay :: retrySchedule c delay n'
  end.

Definition event_ok (Pc : command -> Prop) (e : event) : Prop :=
  match e with
  | EvExec c => Pc c
  | EvLog _ _ => True
  end.

(** [m] hands only commands in [Pc] to [execSync], moves the world along
    [R], leaves the process with status 1 only, and ends by an exception
    only if [thr] allows it. *)
Definition safe {W A} (Pc : command -> Prop) (R : W -> W -> Prop) (thr : bool)
    (m : W -> outcome A * W * list event) : Prop :=
  forall w,
    Forall (event_ok Pc) (trace (m w)) /\ R w (final (m w)) /\
    match result (m w) with
    | Ret _ => True
    | Throw => thr = true
    | Exit c => c = 1%Z
    end.

Definition has_id (i : string) (o : operation) : bool := id (record o) =? i.

(** What holds of a Map filled from a list of Todos: the keys are
    distinct, every value sits under its own id and comes from the list. *)
Definition filled_from (todos : list Todo) (m : TodoMap) : Prop :=
  NoDup (Map_keys m) /\
  (forall k v, Map_get m k = Some v -> id v = k /\ In v todos) /\
  (forall t, In t todos -> Map_get m (id t) <> None).

(** Every mutation among the commands is [Curl s _ _ r]. *)
Definition only_mutation (s : side) (r : request) (c : command) : Prop :=
  is_write c = true -> exists e k, c = Curl s e k r.

(** The mutation an operation sends. *)
Definition mutation (o : operation) : request :=
  match opkind o with
  | create => CreateTodo (createInput (record o))
  | update => UpdateTodo (updateInput (record o))
  end.

(** What an operation does to the two stores: the answer of the store to
    its mutation (the stores do not look at endpoint and key). *)
Definition store_step (w : Stores) (o : operation) : Stores :=
  snd (store_execSync (Curl (target o) "" "" (mutation o)) w).

(** What an operation on the record of some id does to the target's
    record of that id, [cur], at time [clock]. *)
Definition effect (o : operation) (clock : string) (cur : option Todo) : option Todo :=
  match opkind o, cur with
  | create, Some old => Some old
  | create, None =>
      Some {| id := id (record o); content := content (record o);
              completed := Some (or_false (completed (record o)));
              createdAt := clock; updatedAt := clock |}
  | update, Some old =>
      Some {| id := id (record o); content := content (record o);
              completed := completed (record o);
              createdAt := createdAt old; updatedAt := clock |}
  | update, None => None
  end.

(** The two worlds hold the same record of id [i] on each side, at the
    same time. *)
Definition agree (i : string) (w w' : Stores) : Prop :=
  now w = now w' /\ forall s, lookup i (db s w) = lookup i (db s w').

(** Both replicas hold a record of id [i] and neither is strictly newer. *)
Definition undecided (getTime : string -> option Z) (A B : list Todo) (i : string) : bool :=
  match lookup i A, lookup i B with
  | Some a, Some b =>
      negb (js_gt (getTime (updatedAt a)) (getTime (updatedAt b)))
      && negb (js_gt (getTime (updatedAt b)) (getTime (updatedAt a)))
  | _, _ => false
  end.

(** ** sync-data.js: two-way sync by merging two exports and importing the
    merged data into both environments *)

Module SyncData.

Section Merge.

Variable getTime : string -> option Z.

(** The body of [localData.forEach]: [mergedData.has(item.id)] is
    [mergedData.get(item.id)] being defined. *)
Definition addLocal (mergedData : TodoMap) (item : Todo) : TodoMap :=
  match Map_get mergedData (id item) with
  | Some cloudItem =>
      let cloudUpdatedAt := getTime (updatedAt cloudItem) in
      let localUpdatedAt := getTime (updatedAt item) in
      if js_gt localUpdatedAt cloudUpdatedAt then Map_set mergedData (id item) item
      else mergedData
  | None => Map_set mergedData (id item) item
  end.

Definition mergedItems (localData cloudData : list Todo) : list Todo :=
  Map_values (fold_left addLocal localData (mapOf cloudData)).

(** [for (let i = 0; i < items.length; i += 25) chunks.push(items.slice(i, i + 25))] *)
Fixpoint chunksFrom (fuel : nat) (items : list Todo) : list (list Todo) :=
  match fuel, items with
  | S fuel', _ :: _ => firstn 25 items :: chunksFrom fuel' (skipn 25 items)
  | _, _ => []
  end.

Definition chunks (items : list Todo) : list (list Todo) :=
  chunksFrom (length items) items.

(** What direction 3 writes: the new content of local-storage.json, and
    the batches of PutRequests sent to the DynamoDB table. *)
Record imports := mkImports {
  localTodos : list Todo;
  putRequests : list (list Todo)
}.

Definition twoWay (localData cloudData : list Todo) : imports :=
  let items := mergedItems localData cloudData in
  {| localTodos := items; putRequests := chunks items |}.

End Merge.

End SyncData.

(** ** Example records *)

Definition jan1 : string := "2024-01-01T00:00:00.000Z".
Definition jan2 : string := "2024-01-02T00:00:00.000Z".
Definition jan3 : string := "2024-01-03T00:00:00.000Z".

Definition milk (stamp : string) : Todo :=
  {| id := "1"; content := "buy milk"; completed := Some false;
     createdAt := jan1; updatedAt := stamp |}.

Definition oat_milk (stamp : string) : Todo :=
  {| id := "1"; content := "buy oat milk"; completed := Some true;
     createdAt := jan1; updatedAt := stamp |}.

Definition bread (i stamp : string) : Todo :=
  {| id := i; content := "buy bread"; completed := None;
     createdAt := jan1; updatedAt := stamp |}.

(** ** Example worlds *)

(** A command that succeeds with some output, and a curl answered with [j]. *)
Definition succeeds : option output := Some NotJson.
Definition answers (j : json) : option output := Some (Json j).

(** The sandbox runs, but the curl of the local listing fails four times;
    the deployed replica lists one record; the local create then works. *)
Definition localDown : Script :=
  [succeeds; None; succeeds; None; succeeds; None; succeeds; None;
   answers (JListTodos [bread "2" jan1]);
   succeeds; answers (JCreateTodo (bread "2" jan3))].

(** The local replica lists one record; the curl of the deployed listing
    fails four times. *)
Definition deployedDown : Script :=
  [succeeds; answers (JListTodos [bread "2" jan1]);
   None; succeeds; None; succeeds; None; succeeds; None].

(** Both replicas list records "2" and "3", the local ones newer; the curl
    of the first update fails four times. *)
Definition updateDown : Script :=
  [succeeds; answers (JListTodos [bread "2" jan2; bread "3" jan2]);
   answers (JListTodos [bread "2" jan1; bread "3" jan1]);
   None; succeeds; None; succeeds; None; succeeds; None].

(** ** The plans of the one-way runs

    The accessor calls of [syncLocalToDeployed] and [syncDeployedToLocal],
    record by record of the list the loop runs over. *)

Section OneWayPlans.

Variable getTime : string -> option Z.

Definition localToDeployedOps (deployedTodosMap : TodoMap) (localTodo : Todo)
  : list operation :=
  if Map_has deployedTodosMap (id localTodo) then
    match Map_get deployedTodosMap (id localTodo) with
    | Some deployedTodo =>
        let localUpdatedAt := getTime (updatedAt localTodo) in
        let deployedUpdatedAt := getTime (updatedAt deployedTodo) in
        if js_gt localUpdatedAt deployedUpdatedAt
        then [mkOp Deployed update localTodo]
        else []
    | None => []
    end
  else [mkOp Deployed create localTodo].

Definition localToDeployedPlan (localTodos deployedTodos : list Todo) : list operation :=
  flat_map (localToDeployedOps (mapOf deployedTodos)) localTodos.

Definition deployedToLocalOps (localTodosMap : TodoMap) (deployedTodo : Todo)
  : list operation :=
  if Map_has localTodosMap (id deployedTodo) then
    match Map_get localTodosMap (id deployedTodo) with
    | Some localTodo =>
        let localUpdatedAt := getTime (updatedAt localTodo) in
        let deployedUpdatedAt := getTime (updatedAt deployedTodo) in
        if js_gt deployedUpdatedAt localUpdatedAt
        then [mkOp Local update deployedTodo]
        else []
    | None => []
    end
  else [mkOp Local create deployedTodo].

Definition deployedToLocalPlan (localTodos deployedTodos : list Todo) : list operation :=
  flat_map (deployedToLocalOps (mapOf localTodos)) deployedTodos.

End OneWayPlans.

(** The other replica. *)
Definition other (s : side) : side :=
  match s with Local => Deployed | Deployed => Local end.

(** The list read from replica [s]. *)
Definition listed (s : side) (localTodos deployedTodos : list Todo) : list Todo :=
  match s with Local => localTodos | Deployed => deployedTodos end.

(** The same operation, aimed at the other replica. *)
Definition mirror (o : operation) : operation :=
  mkOp (other (target o)) (opkind o) (record o).

(** ** Further observations on runs *)

(** [m] never ends by an exception, and leaves the process with status 1
    only. *)
Definition no_throw {W A} (m : W -> outcome A * W * list event) : Prop :=
  safe (fun _ => True) (fun _ _ => True) false m.

(** [amplify_outputs.json] gives the deployed accessors an endpoint and an
    API key. *)
Definition configured (f : outputs_file) : bool :=
  match f with
  | FileParsed (Some {| url := Some u; api_key := Some k |}) => truthy u && truthy k
  | _ => false
  end.

Definition is_curl (c : command) : bool :=
  match c with
  | Curl _ _ _ _ => true
  | _ => false
  end.

(** [m] never leaves the process, and ends by an exception only if [thr]
    allows it. *)
Definition stays {W A} (thr : bool) (m : W -> outcome A * W * list event) : Prop :=
  forall w,
    match result (m w) with
    | Ret _ => True
    | Throw => thr = true
    | Exit _ => False
    end.

(** [m] runs no curl command. *)
Definition no_curl {W A} (thr : bool) (m : W -> outcome A * W * list event) : Prop :=
  safe (fun c => is_curl c = false) (fun _ _ => True) thr m.

(** ** main (sync-amplify-data.js)

    [main] prints a banner, takes the direction from [process.argv[2]]
    or, when there is none, from the line typed in answer to
    [rl.question], runs one synchronisation function and closes the
    readline interface. *)

Inductive main_message :=
| MBanner
| MRule
| MInvalidDirection (syncDirection : string)
| MInvalidChoice (answer : string)
| MMainError.

(** What a run of [main] does: the events of the synchronisation function
    it calls, its own log lines, [rl.question] and [rl.close]. *)
Inductive main_event :=
| Sync (e : event)
| MainLog (l : level) (m : main_message)
| Question
| Close.

Section Main.

Variable W : Type.
Variable execSync : command -> W -> option output * W.
Variable readOutputs : W -> outputs_file.
Variable getTime : string -> option Z.
(** The line [rl.question] hands to its callback; [None] when the input
    ends before a line is typed: the callback is never called, the
    promise of [askQuestion] never settles, [finally] does not run, and
    the process ends with status 0 once nothing is left to wait for. *)
Variable readLine : W -> option string * W.

Definition MainM (A : Type) : Type := W -> outcome A * W * list main_event.

Definition main_bind {A B} (m : MainM A) (f : A -> MainM B) : MainM B :=
  fun w =>
    match m w with
    | (Ret a, w', t) => let '(r, w'', t') := f a w' in (r, w'', t ++ t')
    | (Throw, w', t) => (Throw, w', t)
    | (Exit c, w', t) => (Exit c, w', t)
    end.

Notation "x <- m ;; k" := (main_bind m (fun x => k))
  (at level 61, m at next level, right associativity).
Notation "m ;; k" := (main_bind m (fun _ => k))
  (at level 61, right associativity).

Definition main_log (m : main_message) (l : level) : MainM unit :=
  fun w => (Ret tt, w, [MainLog l m]).

(** A call of one of the synchronisation functions. *)
Definition call {A} (m : M W A) : MainM A :=
  fun w => let '(r, w', t) := m w in (r, w', map Sync t).

Definition askQuestion : MainM string :=
  fun w =>
    match readLine w with
    | (Some answer, w') => (Ret answer, w', [Question])
    | (None, w') => (Exit 0%Z, w', [Question])
    end.

Definition rl_close : MainM unit := fun w => (Ret tt, w, [Close]).

(** [try { m } catch (error) { h } finally { f }]; [process.exit] leaves
    the process at once. *)
Definition try_catch_finally (m h f : MainM unit) : MainM unit :=
  fun w =>
    match m w with
    | (Ret _, w', t) => let '(r, w'', t') := f w' in (r, w'', t ++ t')
    | (Throw, w', t) => let '(r, w'', t') := (h ;; f) w' in (r, w'', t ++ t')
    | (Exit c, w', t) => (Exit c, w', t)
    end.

(** [argv2] is [process.argv[2]], [None] when the script is started
    without an argument. *)
Definition main (argv2 : option string) : MainM unit :=
  try_catch_finally
    (main_log MBanner info ;;
     main_log MRule info ;;
     let syncDirection := match argv2 with Some d => d | None => "" end in
     if truthy syncDirection then
       if syncDirection =? "local-to-deployed" then
         call (syncLocalToDeployed execSync readOutputs getTime)
       else if syncDirection =? "deployed-to-local" then
         call (syncDeployedToLocal execSync readOutputs getTime)
       else if syncDirection =? "two-way" then
         call (syncTwoWay execSync readOutputs getTime)
       else main_log (MInvalidDirection syncDirection) error
     else
       answer <- askQuestion ;;
       if answer =? "1" then
         call (syncLocalToDeployed execSync readOutputs getTime)
       else if answer =? "2" then
         call (syncDeployedToLocal execSync readOutputs getTime)
       else if answer =? "3" then
         call (syncTwoWay execSync readOutputs getTime)
       else main_log (MInvalidChoice answer) error)
    (main_log MMainError error)
    rl_close.

Definition sync_of (m : mode) : M W unit :=
  match m with
  | LocalToDeployed => syncLocalToDeployed execSync readOutputs getTime
  | DeployedToLocal => syncDeployedToLocal execSync readOutputs getTime
  | TwoWay => syncTwoWay execSync readOutputs getTime
  end.

End Main.

Definition main_result {W A} (x : outcome A * W * list main_event) : outcome A :=
  fst (fst x).
Definition main_trace {W A} (x : outcome A * W * list main_event) : list main_event :=
  snd x.

(** The events of the synchronisation function among those of [main]. *)
Fixpoint sync_events (t : list main_event) : list event :=
  match t with
  | [] => []
  | Sync e :: r => e :: sync_events r
  | _ :: r => sync_events r
  end.

(** [main] asks for the direction when it is started without an argument,
    or with an empty one. *)
Definition asks (argv2 : option string) : bool :=
  negb (truthy (match argv2 with Some d => d | None => "" end)).

(** The synchronisation function [main] runs for an argument and a typed
    answer, if any. *)
Definition chosen (argv2 : option string) (answer : string) : option mode :=
  let syncDirection := match argv2 with Some d => d | None => "" end in
  if truthy syncDirection then
    if syncDirection =? "local-to-deployed" then Some LocalToDeployed
    else if syncDirection =? "deployed-to-local" then Some DeployedToLocal
    else if syncDirection =? "two-way" then Some TwoWay
    else None
  else
    if answer =? "1" then Some LocalToDeployed
    else if answer =? "2" then Some DeployedToLocal
    else if answer =? "3" then Some TwoWay
    else None.

(** ** getAmplifyAppId (sync-amplify-data.js) *)

(** [.env.local] in the working directory. *)
Inductive env_file := EnvMissing | EnvUnreadable | EnvContent (s : string).

(** [[^stop]*] at the start of [s]: the longest stretch without [stop]. *)
Fixpoint upTo (stop : ascii) (s : string) : string :=
  match s with
  | EmptyString => ""
  | String a r => if Ascii.eqb a stop then "" else String a (upTo stop r)
  end.

(** What follows [p] in [s], when [s] starts with [p]. *)
Fixpoint after (p s : string) : option string :=
  match p, s with
  | EmptyString, _ => Some s
  | String a p', String b s' => if Ascii.eqb a b then after p' s' else None
  | String _ _, EmptyString => None
  end.

(** [s.match(/p([^stop]+)/)]: group 1 of the leftmost match, [None] when
    nothing matches. *)
Fixpoint capture (p : string) (stop : ascii) (s : string) : option string :=
  let here :=
    match after p s with
    | Some rest => upTo stop rest
    | None => ""
    end in
  if truthy here then Some here
  else
    match s with
    | EmptyString => None
    | String _ r => capture p stop r
    end.

Definition newline : ascii := "010"%char.

(** The last step of [getAmplifyAppId]: the id is the first label of the
    host of [data.url] in [amplify_outputs.json]. *)
Definition appIdOfOutputs (outputs : outputs_file) : option string * option level :=
  match outputs with
  | FileUnparseable => (None, Some error)
  | FileParsed (Some {| url := Some u |}) =>
      if truthy u then
        match capture "https://" "."%char u with
        | Some i => (Some i, None)
        | None => (None, Some warning)
        end
      else (None, Some warning)
  | _ => (None, Some warning)
  end.

(** [env] is [process.env.NEXT_PUBLIC_AMPLIFY_APP_ID].  The result is the
    value returned, with the level of the line logged, if any. *)
Definition getAmplifyAppId (env : option string) (envLocal : env_file)
    (outputs : outputs_file) : option string * option level :=
  if truthy (match env with Some e => e | None => "" end) then (env, None)
  else
    match envLocal with
    | EnvUnreadable => (None, Some error)
    | EnvContent envLocalContent =>
        match capture "NEXT_PUBLIC_AMPLIFY_APP_ID=" newline envLocalContent with
        | Some i => (Some i, None)
        | None => appIdOfOutputs outputs
        end
    | EnvMissing => appIdOfOutputs outputs
    end.

(** A Map whose keys are distinct and are the ids of its values. *)
Definition keyed (m : TodoMap) : Prop :=
  NoDup (Map_keys m) /\ forall k v, Map_get m k = Some v -> id v = k.

(** ** sync-data.js: the script

    The script exports the local storage file and the DynamoDB table to
    files under [data-export/], and imports such a file into the other
    environment.  Its world: the command [npx ampx sandbox --outputs], the
    table behind the DynamoDB client, [local-storage.json], the export
    directory and the line typed at the prompt.  An export file that has
    been written is taken to be still there, and to read back as written,
    when it is imported. *)

Module SyncDataScript.

Inductive place := local | cloud.

Inductive message :=
| MUsingProfile
| MExecuting
| MCommandFailed
| MErrorMessage
| MTableNameError
| MScanning (tableName : string)
| MExportDynamoError
| MImporting (n : nat) (tableName : string)
| MImported (n : nat)
| MImportDynamoError
| MNoLocalStorage
| MExportLocalError
| MImportedLocal (n : nat)
| MCopyHint
| MImportLocalError
| MExportingFrom (source : place)
| MExportingLocal
| MExportingDynamo
| MExported (source : place)
| MImportingTo (target : place)
| MImportingLocal
| MImportingDynamo
| MImportedTo (target : place)
| MBanner
| MRule
| MSelect
| MOption (n : nat)
| MTwoWay
| MTwoWayDone
| MInvalidChoice
| MDone.

(** What the script does to its world, in order. *)
Inductive event :=
| Log (l : level) (m : message)
| SandboxOutputs                               (* npx ampx sandbox --outputs *)
| Scan (tableName : string)
| BatchWrite (tableName : string) (chunk : list Todo)
| ReadLocalStorage
| WriteLocalStorage (items : list Todo)
| MakeExportDir
| WriteExport (source : option place) (data : list Todo)   (* [None]: the merged file *)
| Prompt.

(** [local-storage.json]: missing, not JSON (or not an object), or an
    object with or without [localTodos]. *)
Inductive local_storage :=
| NoLocalStorage
| BadLocalStorage
| LocalStorage (localTodos : option (list Todo)).

Section Script.

Variable W : Type.
(** [execSync('npx ampx sandbox --outputs')]: [None] when the command
    fails; otherwise the table name its output gives for the model Todo,
    if the output is JSON and names one. *)
Variable sandboxOutputs : W -> option (option string) * W.
(** [process.env.AMPLIFY_APP_ID] *)
Variable appId : option string.
(** [client.send(new ScanCommand(...))]: [None] when the promise rejects,
    otherwise [response.Items || []]. *)
Variable scan : string -> W -> option (list Todo) * W.
(** [client.send(new BatchWriteCommand(...))]: [false] when it rejects. *)
Variable batchWrite : string -> list Todo -> W -> bool * W.
Variable readLocalStorage : W -> local_storage.
(** [fs.writeFileSync] on [local-storage.json]: [false] when it throws. *)
Variable writeLocalStorage : list Todo -> W -> bool * W.
(** [fs.mkdirSync] of [data-export/] when it is missing, and
    [fs.writeFileSync] of a file in it: [false] when they throw. *)
Variable makeExportDir : W -> bool * W.
Variable writeExport : option place -> list Todo -> W -> bool * W.
(** The line typed at the prompt. *)
Variable readLine : W -> string * W.
Variable getTime : string -> option Z.

Definition Run (A : Type) : Type := W -> outcome A * W * list event.

Definition ret {A} (a : A) : Run A := fun w => (Ret a, w, []).

Definition bind {A B} (m : Run A) (f : A -> Run B) : Run B :=
  fun w =>
    match m w with
    | (Ret a, w', t) => let '(r, w'', t') := f a w' in (r, w'', t ++ t')
    | (Throw, w', t) => (Throw, w', t)
    | (Exit c, w', t) => (Exit c, w', t)
    end.

Definition throw {A} : Run A := fun w => (Throw, w, []).

Definition process_exit {A} (code : Z) : Run A := fun w => (Exit code, w, []).

Definition try_catch {A} (m h : Run A) : Run A :=
  fun w =>
    match m w with
    | (Throw, w', t) => let '(r, w'', t') := h w' in (r, w'', t ++ t')
    | r => r
    end.

Definition log (m : message) (l : level) : Run unit :=
  fun w => (Ret tt, w, [Log l m]).

(** An action of the world that throws when it fails. *)
Definition act {A} (e : event) (f : W -> option A * W) : Run A :=
  fun w =>
    match f w with
    | (Some a, w') => (Ret a, w', [e])
    | (None, w') => (Throw, w', [e])
    end.

Definition succeeded (f : W -> bool * W) : W -> option unit * W :=
  fun w => let '(ok, w') := f w in (if ok then Some tt else None, w').

Notation "x <- m ;; k" := (bind m (fun x => k))
  (at level 61, m at next level, right associativity).
Notation "m ;; k" := (bind m (fun _ => k))
  (at level 61, right associativity).

Fixpoint for_of {A} (xs : list A) (body : A -> Run unit) : Run unit :=
  match xs with
  | [] => ret tt
  | x :: r => body x ;; for_of r body
  end.

(** [execute('npx ampx sandbox --outputs', options)], the one command of
    the script: it has no [--profile], and no caller sets
    [options.env]. *)
Definition execute (ignoreError : bool) : Run (option (option string)) :=
  try_catch
    (log MUsingProfile info ;;
     log MExecuting info ;;
     result <- act SandboxOutputs sandboxOutputs ;;
     ret (Some result))
    ((if negb ignoreError then
        log MCommandFailed error ;;
        log MErrorMessage error ;;
        process_exit 1%Z
      else ret tt) ;;
     ret None).

(** [getTableName('Todo')] *)
Definition getTableName : Run string :=
  try_catch
    (result <- execute false ;;
     match result with
     | Some (Some tableName) => ret tableName
     | _ => throw
     end)
    (log MTableNameError error ;;
     ret ("Todo-" ++ (match appId with
                      | Some a => if truthy a then a else "local"
                      | None => "local"
                      end))%string).

Definition exportFromDynamoDB : Run (list Todo) :=
  try_catch
    (tableName <- getTableName ;;
     log (MScanning tableName) info ;;
     act (Scan tableName) (scan tableName))
    (log MExportDynamoError error ;; ret []).

Definition importToDynamoDB (items : list Todo) : Run unit :=
  try_catch
    (tableName <- getTableName ;;
     log (MImporting (length items) tableName) info ;;
     (if (0 <? length items)%nat then
        for_of (SyncData.chunks items) (fun chunk =>
          act (BatchWrite tableName chunk) (succeeded (batchWrite tableName chunk)))
      else ret tt) ;;
     log (MImported (length items)) success)
    (log MImportDynamoError error).

Definition exportFromLocalStorage : Run (list Todo) :=
  try_catch
    (data <- (fun w => (Ret (readLocalStorage w), w, [ReadLocalStorage])) ;;
     match data with
     | LocalStorage (Some localTodos) => ret localTodos
     | LocalStorage None => ret []
     | BadLocalStorage => throw
     | NoLocalStorage => log MNoLocalStorage warning ;; ret []
     end)
    (log MExportLocalError error ;; ret []).

Definition importToLocalStorage (items : list Todo) : Run unit :=
  try_catch
    (act (WriteLocalStorage items) (succeeded (writeLocalStorage items)) ;;
     log (MImportedLocal (length items)) success ;;
     log MCopyHint info)
    (log MImportLocalError error).

(** [exportData(source)]; the value is the [data] of the file written. *)
Definition exportData (source : place) : Run (list Todo) :=
  log (MExportingFrom source) info ;;
  act MakeExportDir (succeeded makeExportDir) ;;
  data <- match source with
          | local => log MExportingLocal info ;; exportFromLocalStorage
          | cloud => log MExportingDynamo info ;; exportFromDynamoDB
          end ;;
  act (WriteExport (Some source) data) (succeeded (writeExport (Some source) data)) ;;
  log (MExported source) success ;;
  ret data.

(** [importData(target, exportFile)], for a file holding [items]. *)
Definition importData (target : place) (items : list Todo) : Run unit :=
  log (MImportingTo target) info ;;
  match target with
  | local => log MImportingLocal info ;; importToLocalStorage items
  | cloud => log MImportingDynamo info ;; importToDynamoDB items
  end ;;
  log (MImportedTo target) success.

Definition prompt : Run string :=
  fun w => let '(answer, w') := readLine w in (Ret answer, w', [Prompt]).

Definition main : Run unit :=
  log MBanner info ;;
  log MRule info ;;
  log MSelect info ;;
  log (MOption 1) info ;;
  log (MOption 2) info ;;
  log (MOption 3) info ;;
  direction <- prompt ;;
  (if direction =? "1" then
     exportFile <- exportData local ;;
     importData cloud exportFile
   else if direction =? "2" then
     exportFile <- exportData cloud ;;
     importData local exportFile
   else if direction =? "3" then
     log MTwoWay info ;;
     localData <- exportData local ;;
     cloudData <- exportData cloud ;;
     let mergedItems := SyncData.mergedItems getTime localData cloudData in
     act (WriteExport None mergedItems) (succeeded (writeExport None mergedItems)) ;;
     importData local mergedItems ;;
     importData cloud mergedItems ;;
     log MTwoWayDone success
   else
     log MInvalidChoice error ;;
     process_exit 1%Z) ;;
  log MDone success.

End Script.

Definition result {W A} (x : outcome A * W * list event) : outcome A := fst (fst x).
Definition final {W A} (x : outcome A * W * list event) : W := snd (fst x).
Definition trace {W A} (x : outcome A * W * list event) : list event := snd x.

(** The batches a run sent to the table, in order. *)
Fixpoint batches (t : list event) : list (list Todo) :=
  match t with
  | [] => []
  | BatchWrite _ chunk :: r => chunk :: batches r
  | _ :: r => batches r
  end.

(** A step of working out the table name: the command, or a log line that
    is not a success. *)
Definition naming (e : event) : Prop :=
  match e with
  | Log l _ => l <> success
  | SandboxOutputs => True
  | _ => False
  end.


(** [m] does nothing but steps in [P]; it leaves the process with status
    1 only and, with [stop], it does not return. *)
Definition only {W A} (P : event -> Prop) (stop : bool)
    (m : W -> outcome A * W * list event) : Prop :=
  forall w,
    Forall P (trace (m w)) /\
    match result (m w) with
    | Ret _ => stop = false
    | Throw => True
    | Exit c => c = 1%Z
    end.


(** A step that is not a batch write. *)
Definition no_batch (e : event) : Prop :=
  match e with
  | BatchWrite _ _ => False
  | _ => True
  end.

End SyncDataScript.

(** *** A world for the script

    The state is the content of [local-storage.json]; the export
    directory can be written. *)

Definition names_table (w : list Todo) : option (option string) * list Todo :=
  (Some (Some "Todo-table"), w).



Definition table_accepts (tableName : string) (chunk : list Todo) (w : list Todo)
  : bool * list Todo := (true, w).

Definition stored (w : list Todo) : SyncDataScript.local_storage :=
  SyncDataScript.LocalStorage (Some w).

Definition store (items : list Todo) (w : list Todo) : bool * list Todo :=
  (true, items).

Definition dir_ok (w : list Todo) : bool * list Todo := (true, w).

Definition file_ok (source : option SyncDataScript.place) (data : list Todo)
    (w : list Todo) : bool * list Todo := (true, w).

Definition typed (answer : string) (w : list Todo) : string * list Todo :=
  (answer, w).

Definition scan_gives (items : list Todo) (tableName : string) (w : list Todo)
  : option (list Todo) * list Todo := (Some items, w).

(** A scripted world in which no [ps] check finds the sandbox. *)
Definition no_sandbox_execSync (c : command) (w : Script) : option output * Script :=
  match c with
  | PsSandbox => (None, w)
  | _ => script_execSync c w
  end.

(** A world without state, in which a command always has the same
    outcome; here every command fails but [sleep]. *)
Definition stateless (answer : command -> option output) (c : command) (w : unit)
  : option output * unit := (answer c, w).

Definition only_sleep (c : command) : option output :=
  match c with
  | Sleep _ => succeeds
  | _ => None
  end.

(** * Facts *)

(** ** The monad *)

Section Facts.

Variable W : Type.
Variable execSync : command -> W -> option output * W.
Variable readOutputs : W -> outputs_file.
Variable getTime : string -> option Z.

Notation "x <- m ;; k" := (bind m (fun x => k))
  (at level 61, m at next level, right associativity).
Notation "m ;; k" := (bind m (fun _ => k))
  (at level 61, right associativity).

Local Abbreviation Comp A := (W -> outcome A * W * list event).

Lemma bind_ret_l A B (a : A) (f : A -> Comp B) w :
  bind (ret a) f w = f a w.
Proof.
  unfold bind, ret. destruct (f a w) as [[r w'] t]. reflexivity.
Qed.

Lemma bind_assoc A B C (m : Comp A) (f : A -> Comp B) (g : B -> Comp C) w :
  bind (bind m f) g w = bind m (fun a => bind (f a) g) w.
Proof.
  unfold bind. destruct (m w) as [[[a| |c] w1] t1]; try reflexivity.
  destruct (f a w1) as [[[b| |c] w2] t2]; try reflexivity.
  destruct (g b w2) as [[r w3] t3]. now rewrite app_assoc.
Qed.

Lemma bind_ext A B (m : Comp A) (f g : A -> Comp B) w :
  (forall a w', f a w' = g a w') -> bind m f w = bind m g w.
Proof.
  intros E. unfold bind. destruct (m w) as [[[a| |c] w1] t1]; try reflexivity.
  now rewrite E.
Qed.

Lemma for_of_ext A (xs : list A) (f g : A -> Comp unit) :
  (forall x, In x xs -> forall w, f x w = g x w) ->
  forall w, for_of xs f w = for_of xs g w.
Proof.
  induction xs as [|x r IH]; intros E w; simpl; [reflexivity|].
  unfold bind. rewrite (E x (or_introl eq_refl)).
  destruct (g x w) as [[[[]| |c] w1] t1]; try reflexivity.
  rewrite IH; [reflexivity|]. intros y Hy. apply E. now right.
Qed.

Lemma for_of_app A (xs ys : list A) (f : A -> Comp unit) w :
  for_of (xs ++ ys) f w = (for_of xs f ;; for_of ys f) w.
Proof.
  revert w. induction xs as [|x r IH]; intros w; simpl.
  - now rewrite bind_ret_l.
  - rewrite bind_assoc. apply bind_ext. intros _ w'. apply IH.
Qed.

Lemma for_of_flat_map A B (g : A -> list B) (xs : list A) (f : B -> Comp unit) w :
  for_of (flat_map g xs) f w = for_of xs (fun x => for_of (g x) f) w.
Proof.
  revert w. induction xs as [|x r IH]; intros w; simpl; [reflexivity|].
  rewrite for_of_app. apply bind_ext. intros _ w'. apply IH.
Qed.

(** ** What a run may do: commands, world, endings *)

Section Safe.

Variable Pc : command -> Prop.
Variable R : W -> W -> Prop.
Hypothesis R_refl : forall w, R w w.
Hypothesis R_trans : forall a b c, R a b -> R b c -> R a c.
Hypothesis R_exec : forall c w, Pc c -> R w (snd (execSync c w)).
Hypothesis Pc_reads : forall c, is_write c = false -> Pc c.

Lemma safe_ret thr A (a : A) : safe Pc R thr (ret (W:=W) a).
Proof. intros w. cbn. auto. Qed.

Lemma safe_log thr m l : safe Pc R thr (log (W:=W) m l).
Proof. intros w. cbn. repeat split; auto. repeat constructor. Qed.

Lemma safe_throw A : safe Pc R true (throw (W:=W) (A:=A)).
Proof. intros w. cbn. auto. Qed.

Lemma safe_exit thr A : safe Pc R thr (process_exit (W:=W) (A:=A) 1).
Proof. intros w. cbn. auto. Qed.

Lemma safe_outputsFile thr : safe Pc R thr (outputsFile readOutputs).
Proof. intros w. cbn. auto. Qed.

Lemma safe_exec c : Pc c -> safe Pc R true (exec execSync c).
Proof.
  intros Hc w. unfold exec. generalize (R_exec w Hc).
  destruct (execSync c w) as [[o|] w']; cbn; intros HR;
    repeat split; auto; repeat constructor; exact Hc.
Qed.

Lemma safe_bind thr A B (m : Comp A) (f : A -> Comp B) :
  safe Pc R thr m -> (forall a, safe Pc R thr (f a)) -> safe Pc R thr (bind m f).
Proof.
  intros Hm Hf w. specialize (Hm w). unfold bind.
  destruct (m w) as [[[a| |c] w1] t1]; cbn in *; auto.
  specialize (Hf a w1). destruct (f a w1) as [[r w2] t2]; cbn in *.
  destruct Hm as (Ht1 & HR1 & _). destruct Hf as (Ht2 & HR2 & Hr).
  repeat split; eauto. apply Forall_app; auto.
Qed.

Lemma safe_try_catch thr A (m h : Comp A) :
  safe Pc R true m -> safe Pc R thr h -> safe Pc R thr (try_catch m h).
Proof.
  intros Hm Hh w. specialize (Hm w). unfold try_catch.
  destruct (m w) as [[[a| |c] w1] t1]; cbn in *.
  - destruct Hm as (? & ? & _); auto.
  - specialize (Hh w1). destruct (h w1) as [[r w2] t2]; cbn in *.
    destruct Hm as (Ht1 & HR1 & _). destruct Hh as (Ht2 & HR2 & Hr).
    repeat split; eauto. apply Forall_app; auto.
  - exact Hm.
Qed.

Lemma safe_for_of thr A (xs : list A) (f : A -> Comp unit) :
  (forall x, safe Pc R thr (f x)) -> safe Pc R thr (for_of xs f).
Proof.
  intros Hf. induction xs as [|x r IH]; simpl.
  - apply safe_ret.
  - apply safe_bind; auto.
Qed.

(** One step of a proof that a script is [safe]. *)
Ltac safe_step :=
  match goal with
  | |- safe _ _ _ (ret _) => apply safe_ret
  | |- safe _ _ _ (log _ _) => apply safe_log
  | |- safe _ _ _ (@throw _ _) => apply safe_throw
  | |- safe _ _ _ (@process_exit _ _ _) => apply safe_exit
  | |- safe _ _ _ (outputsFile _) => apply safe_outputsFile
  | |- safe _ _ _ (bind _ _) => apply safe_bind; [|intros ?]
  | |- safe _ _ _ (try_catch _ _) => apply safe_try_catch
  | |- safe _ _ _ (for_of _ _) => apply safe_for_of; intros ?
  | |- safe _ _ _ (match ?x with _ => _ end) => destruct x
  end.

Lemma safe_giveUp thr c o n : safe Pc R thr (giveUp (W:=W) c o n).
Proof. unfold giveUp. repeat safe_step. Qed.

Lemma safe_attempt c o envSet : Pc c -> safe Pc R true (attempt execSync c o envSet).
Proof. intros Hc. unfold attempt. repeat safe_step. now apply safe_exec. Qed.

Lemma safe_executeWithRetry c o left retries envSet :
  Pc c -> safe Pc R true (executeWithRetry execSync c o left retries envSet).
Proof.
  intros Hc. revert retries envSet.
  induction left as [|left IH]; intros retries envSet; cbn [executeWithRetry];
    repeat safe_step;
    try apply safe_attempt; try apply safe_exec; try apply safe_giveUp; auto.
Qed.

Lemma safe_execute c o : Pc c -> safe Pc R true (execute execSync c o).
Proof. intros Hc. now apply safe_executeWithRetry. Qed.

Ltac safe_auto :=
  repeat first
    [ safe_step
    | apply safe_execute; try (apply Pc_reads; reflexivity) ].

Lemma safe_getGraphQLEndpoint thr :
  safe Pc R thr (getGraphQLEndpoint readOutputs).
Proof. unfold getGraphQLEndpoint. safe_auto. Qed.

Lemma safe_parse result : safe Pc R true (parse (W:=W) result).
Proof. unfold parse. safe_auto. Qed.

Lemma safe_localEndpoint : safe Pc R true (localEndpoint readOutputs).
Proof. unfold localEndpoint. safe_auto. Qed.

Lemma safe_ensureSandboxRunning thr :
  safe Pc R thr (ensureSandboxRunning execSync).
Proof. unfold ensureSandboxRunning. safe_auto. Qed.

Lemma safe_executeGraphQL thr r :
  (forall e k, Pc (Curl Deployed e k r)) ->
  safe Pc R thr (executeGraphQL execSync readOutputs r).
Proof.
  intros Hr. unfold executeGraphQL.
  safe_auto; auto using safe_getGraphQLEndpoint, safe_parse.
Qed.

(** The requests of the local accessors. *)
Lemma safe_local thr A r (k : json -> Comp A) (none failed : Comp A)
    (handler : Comp A) :
  (forall e key, Pc (Curl Local e key r)) ->
  (forall j, safe Pc R true (k j)) ->
  safe Pc R true none -> safe Pc R true failed -> safe Pc R thr handler ->
  safe Pc R thr
    (try_catch
       (running <- ensureSandboxRunning execSync ;;
        if negb running then failed
        else
          bind (localEndpoint readOutputs) (fun x =>
            match x with
            | (endpoint, apiKey) =>
               result <- execute execSync (Curl Local endpoint apiKey r) (opts true true) ;;
               match result with
               | None => none
               | Some _ => parsedResult <- parse result ;; k parsedResult
               end
            end))
       handler).
Proof.
  intros Hr Hk Hn Hf Hh.
  safe_auto; auto using safe_ensureSandboxRunning, safe_localEndpoint, safe_parse.
Qed.

Lemma safe_listDeployedTodos thr :
  safe Pc R thr (listDeployedTodos execSync readOutputs).
Proof.
  unfold listDeployedTodos. safe_auto.
  apply safe_executeGraphQL. intros. now apply Pc_reads.
Qed.

Lemma safe_listLocalTodos thr :
  safe Pc R thr (listLocalTodos execSync readOutputs).
Proof.
  unfold listLocalTodos. apply safe_local; intros; safe_auto.
  now apply Pc_reads.
Qed.

Lemma safe_createDeployedTodo thr todo :
  (forall e k, Pc (Curl Deployed e k (CreateTodo (createInput todo)))) ->
  safe Pc R thr (createDeployedTodo execSync readOutputs todo).
Proof.
  intros H. unfold createDeployedTodo. safe_auto. now apply safe_executeGraphQL.
Qed.

Lemma safe_updateDeployedTodo thr todo :
  (forall e k, Pc (Curl Deployed e k (UpdateTodo (updateInput todo)))) ->
  safe Pc R thr (updateDeployedTodo execSync readOutputs todo).
Proof.
  intros H. unfold updateDeployedTodo. safe_auto. now apply safe_executeGraphQL.
Qed.

Lemma safe_createLocalTodo thr todo :
  (forall e k, Pc (Curl Local e k (CreateTodo (createInput todo)))) ->
  safe Pc R thr (createLocalTodo execSync readOutputs todo).
Proof.
  intros H. unfold createLocalTodo. apply safe_local; intros; safe_auto. apply H.
Qed.

Lemma safe_updateLocalTodo thr todo :
  (forall e k, Pc (Curl Local e k (UpdateTodo (updateInput todo)))) ->
  safe Pc R thr (updateLocalTodo execSync readOutputs todo).
Proof.
  intros H. unfold updateLocalTodo. apply safe_local; intros; safe_auto. apply H.
Qed.

Lemma safe_perform thr o :
  (forall e k, Pc (Curl (target o) e k (mutation o))) ->
  safe Pc R thr (perform execSync readOutputs o).
Proof.
  destruct o as [[] [] todo]; unfold perform, mutation; cbn; intros H; safe_auto;
    auto using safe_createDeployedTodo, safe_updateDeployedTodo,
      safe_createLocalTodo, safe_updateLocalTodo.
Qed.

Lemma safe_syncLocalToDeployed thr :
  (forall e k r, Pc (Curl Deployed e k r)) ->
  safe Pc R thr (syncLocalToDeployed execSync readOutputs getTime).
Proof.
  intros H. unfold syncLocalToDeployed. safe_auto;
    auto using safe_listLocalTodos, safe_listDeployedTodos,
      safe_createDeployedTodo, safe_updateDeployedTodo.
Qed.

Lemma safe_syncDeployedToLocal thr :
  (forall e k r, Pc (Curl Local e k r)) ->
  safe Pc R thr (syncDeployedToLocal execSync readOutputs getTime).
Proof.
  intros H. unfold syncDeployedToLocal. safe_auto;
    auto using safe_listLocalTodos, safe_listDeployedTodos,
      safe_createLocalTodo, safe_updateLocalTodo.
Qed.

End Safe.

(** ** execute: the retry schedule *)

Lemma commands_app t1 t2 : commands (t1 ++ t2) = commands t1 ++ commands t2.
Proof.
  induction t1 as [|[l m|c] r IH]; simpl; auto. now rewrite IH.
Qed.

Lemma giveUp_commands c o n w :
  commands (trace (giveUp (W:=W) c o n w)) = [] /\
  result (giveUp c o n w) <> Throw /\
  forall out, result (giveUp c o n w) <> Ret (Some out).
Proof.
  unfold giveUp. destruct (ignoreError o); cbn.
  - repeat split; congruence.
  - destruct (exitOnError o) as [[]|]; cbn; repeat split; congruence.
Qed.

Lemma attempt_run c o envSet w :
  exists t, commands t = [c] /\
    attempt execSync c o envSet w =
      (match fst (execSync c w) with
       | Some out => Ret (if silent o then Some out else None)
       | None => Throw
       end,
       snd (execSync c w), t).
Proof.
  unfold attempt, bind, exec, log, ret.
  destruct envSet; destruct (execSync c w) as [[out|] w1]; cbn;
    eexists; (split; [|reflexivity]); reflexivity.
Qed.

Lemma pause_run c o retries (k : Comp (option output)) w :
  (log (MRetrying retries (maxRetries_of o) c) warning ;;
   exec execSync (Sleep (retryDelay_of o)) ;; k) w =
  match execSync (Sleep (retryDelay_of o)) w with
  | (Some _, w1) =>
      let '(r, w2, t) := k w1 in
      (r, w2, EvLog warning (MRetrying retries (maxRetries_of o) c)
              :: EvExec (Sleep (retryDelay_of o)) :: t)
  | (None, w1) =>
      (Throw, w1, [EvLog warning (MRetrying retries (maxRetries_of o) c);
                   EvExec (Sleep (retryDelay_of o))])
  end.
Proof.
  unfold bind, exec, log.
  destruct (execSync (Sleep (retryDelay_of o)) w) as [[out|] w1]; cbn; auto.
  now destruct (k w1) as [[r w2] t].
Qed.

Lemma executeWithRetry_schedule c o left retries envSet w :
  noRetry o = false ->
  let x := executeWithRetry execSync c o left retries envSet w in
  (exists rest, retrySchedule c (retryDelay_of o) left = commands (trace x) ++ rest) /\
  (silent o = true ->
   match result x with
   | Ret None | Exit _ => commands (trace x) = retrySchedule c (retryDelay_of o) left
   | _ => True
   end).
Proof.
  intros HnoRetry. revert retries envSet w.
  induction left as [|left IH]; intros retries envSet w;
    cbn [executeWithRetry retrySchedule]; unfold try_catch;
    destruct (attempt_run c o envSet w) as (t & Ht & ->);
    destruct (execSync c w) as [[out|] w1]; cbn [fst snd].
  - cbn. rewrite Ht. split; [exists []; reflexivity | now intros ->].
  - destruct (giveUp_commands c o retries w1) as (Hc & Hthrow & Hsome).
    destruct (giveUp c o retries w1) as [[r w2] t2]; cbn in *.
    rewrite commands_app, Ht, Hc. split; [exists []; reflexivity|]. intros _.
    destruct r as [[o'|]| |code]; auto; congruence.
  - cbn. rewrite Ht. split; [eexists; reflexivity | now intros ->].
  - rewrite HnoRetry. cbn [negb]. rewrite pause_run.
    destruct (execSync (Sleep (retryDelay_of o)) w1) as [[o1|] w2].
    + specialize (IH (S retries) true w2). cbn in IH.
      destruct (executeWithRetry execSync c o left (S retries) true w2)
        as [[r w3] t3]; cbn in *.
      rewrite commands_app, Ht. cbn.
      destruct IH as ((rest & Hrest) & Hfull). split.
      * exists rest. now rewrite Hrest.
      * intros Hs. specialize (Hfull Hs).
        destruct r as [[o'|]| |code]; auto; now rewrite Hfull.
    + cbn. rewrite commands_app, Ht. cbn. split; [eexists; reflexivity | auto].
Qed.

End Facts.

(** ** The Map of a list of Todos *)

Lemma Map_get_set m k v k' :
  Map_get (Map_set m k v) k' = if k =? k' then Some v else Map_get m k'.
Proof.
  induction m as [|[k0 v0] m IH]; simpl.
  - reflexivity.
  - destruct (k0 =? k) eqn:E0; simpl.
    + apply String.eqb_eq in E0. subst k0. now destruct (k =? k').
    + rewrite IH. destruct (k0 =? k') eqn:E1; [|reflexivity].
      apply String.eqb_eq in E1. subst k'.
      rewrite String.eqb_sym in E0. now rewrite E0.
Qed.

Lemma Map_keys_get m k : In k (Map_keys m) <-> Map_get m k <> None.
Proof.
  induction m as [|[k0 v0] m IH]; simpl.
  - split; [tauto | congruence].
  - destruct (k0 =? k) eqn:E.
    + apply String.eqb_eq in E. split; [congruence | auto].
    + apply String.eqb_neq in E. rewrite <- IH. tauto.
Qed.

Lemma Map_has_keys m k : Map_has m k = true <-> In k (Map_keys m).
Proof.
  rewrite Map_keys_get. unfold Map_has.
  destruct (Map_get m k); split; congruence.
Qed.

Lemma Map_keys_set m k v :
  Map_keys (Map_set m k v) = if Map_has m k then Map_keys m else Map_keys m ++ [k].
Proof.
  unfold Map_has. induction m as [|[k0 v0] m IH]; simpl.
  - reflexivity.
  - destruct (k0 =? k); simpl; [reflexivity|].
    rewrite IH. now destruct (Map_get m k).
Qed.

Lemma Map_keys_set_NoDup m k v :
  NoDup (Map_keys m) -> NoDup (Map_keys (Map_set m k v)).
Proof.
  intros H. rewrite Map_keys_set. destruct (Map_has m k) eqn:E; [assumption|].
  apply NoDup_app; auto.
  - repeat constructor. simpl. tauto.
  - intros x Hx [<-|[]]. apply Map_has_keys in Hx. congruence.
Qed.

Lemma fold_Map_set_filled todos : forall seen m,
  filled_from seen m ->
  filled_from (seen ++ todos)
    (fold_left (fun m todo => Map_set m (id todo) todo) todos m).
Proof.
  induction todos as [|t r IH]; intros seen m Hm; simpl.
  - now rewrite app_nil_r.
  - replace (seen ++ t :: r) with ((seen ++ [t]) ++ r)
      by (rewrite <- app_assoc; reflexivity).
    apply IH. destruct Hm as (Hnd & Hval & Hdom).
    split; [|split; [intros k v H; split|]].
    + now apply Map_keys_set_NoDup.
    + rewrite Map_get_set in H. destruct (id t =? k) eqn:E.
      * apply String.eqb_eq in E. congruence.
      * now apply Hval in H.
    + rewrite Map_get_set in H. rewrite in_app_iff.
      destruct (id t =? k); [injection H as <-; right; now left|].
      apply Hval in H. tauto.
    + intros t' Ht'. rewrite Map_get_set.
      apply in_app_iff in Ht'. destruct Ht' as [Ht'|[<-|[]]].
      * destruct (id t =? id t'); [congruence|]. now apply Hdom.
      * rewrite String.eqb_refl. congruence.
Qed.

Lemma mapOf_filled todos : filled_from todos (mapOf todos).
Proof.
  apply (fold_Map_set_filled todos (seen:=[]) (m:=[])).
  split; [constructor|]. split; simpl; [congruence|tauto].
Qed.

Lemma mapOf_get_id todos k v : Map_get (mapOf todos) k = Some v -> id v = k.
Proof. intros H. now apply (mapOf_filled todos) in H. Qed.

Lemma mapOf_get_In todos k v : Map_get (mapOf todos) k = Some v -> In v todos.
Proof. intros H. now apply (mapOf_filled todos) in H. Qed.

Lemma mapOf_has todos k : Map_has (mapOf todos) k = true <-> In k (map id todos).
Proof.
  unfold Map_has. split.
  - destruct (Map_get (mapOf todos) k) as [v|] eqn:E; [intros _|discriminate].
    apply in_map_iff. exists v. split; eauto using mapOf_get_id, mapOf_get_In.
  - intros H. apply in_map_iff in H. destruct H as (t & <- & Ht).
    apply (mapOf_filled todos) in Ht. now destruct (Map_get (mapOf todos) (id t)).
Qed.

Lemma filter_all A (f : A -> bool) l :
  (forall x, In x l -> f x = true) -> filter f l = l.
Proof.
  induction l as [|x r IH]; simpl; intros H; [reflexivity|].
  rewrite (H x (or_introl eq_refl)). f_equal. apply IH. intros y Hy. apply H. now right.
Qed.

Lemma filter_none A (f : A -> bool) l :
  (forall x, In x l -> f x = false) -> filter f l = [].
Proof.
  induction l as [|x r IH]; simpl; intros H; [reflexivity|].
  rewrite (H x (or_introl eq_refl)). apply IH. intros y Hy. apply H. now right.
Qed.

Lemma Set_of_NoDup l : NoDup l -> Set_of l = l.
Proof.
  induction 1 as [|x r Hx Hr IH]; simpl; [reflexivity|].
  rewrite IH. f_equal. apply filter_all. intros y Hy.
  apply negb_true_iff, String.eqb_neq. congruence.
Qed.

Lemma Set_of_keys (f : string -> bool) m :
  NoDup (Map_keys m) -> Set_of (filter f (Map_keys m)) = filter f (Map_keys m).
Proof. intros H. apply Set_of_NoDup. now apply NoDup_filter. Qed.

(** The operations of one id among those generated for distinct ids. *)
Lemma filter_flat_map_In (g : string -> list operation) ids i :
  NoDup ids -> (forall j o, In o (g j) -> id (record o) = j) ->
  In i ids -> filter (has_id i) (flat_map g ids) = g i.
Proof.
  intros Hnd Hg. induction Hnd as [|j r Hj Hr IH]; simpl; [tauto|].
  intros Hi. rewrite filter_app. destruct (String.eqb_spec j i) as [->|Hne].
  - rewrite filter_all.
    + rewrite filter_none; [apply app_nil_r|].
      intros o Ho. apply in_flat_map in Ho. destruct Ho as (k & Hk & Ho).
      apply Hg in Ho. unfold has_id. apply String.eqb_neq. congruence.
    + intros o Ho. apply Hg in Ho. unfold has_id. now apply String.eqb_eq.
  - rewrite filter_none.
    + apply IH. destruct Hi; [congruence|assumption].
    + intros o Ho. apply Hg in Ho. unfold has_id. apply String.eqb_neq. congruence.
Qed.

Lemma filter_flat_map_notin (g : string -> list operation) ids i :
  (forall j o, In o (g j) -> id (record o) = j) ->
  ~ In i ids -> filter (has_id i) (flat_map g ids) = [].
Proof.
  intros Hg Hi. apply filter_none. intros o Ho.
  apply in_flat_map in Ho. destruct Ho as (k & Hk & Ho).
  apply Hg in Ho. unfold has_id. apply String.eqb_neq. congruence.
Qed.


(** ** The plan of a two-way run, id by id *)

Section PlanFacts.

Variable getTime : string -> option Z.

Lemma commonOps_id A B j o :
  In o (commonOps getTime (mapOf A) (mapOf B) j) -> id (record o) = j.
Proof.
  unfold commonOps.
  destruct (Map_get (mapOf A) j) as [a|] eqn:Ea; [|intros []].
  destruct (Map_get (mapOf B) j) as [b|] eqn:Eb; [|intros []].
  apply mapOf_get_id in Ea, Eb.
  destruct (js_gt _ _); [intros [<-|[]]; assumption|].
  destruct (js_gt _ _); [intros [<-|[]]; assumption|intros []].
Qed.

Lemma createOps_id s A j o :
  In o (createOps s (mapOf A) j) -> id (record o) = j.
Proof.
  unfold createOps. destruct (Map_get (mapOf A) j) as [a|] eqn:Ea; [|intros []].
  apply mapOf_get_id in Ea. intros [<-|[]]. assumption.
Qed.

Lemma keys_filter_In (f : string -> bool) m i :
  In i (filter f (Map_keys m)) <-> Map_get m i <> None /\ f i = true.
Proof. now rewrite filter_In, Map_keys_get. Qed.

(** The operations [syncTwoWay] issues for one id. *)
Lemma plan_at A B i :
  filter (has_id i) (twoWayPlan getTime A B) =
  match Map_get (mapOf A) i, Map_get (mapOf B) i with
  | Some a, Some b =>
      if js_gt (getTime (updatedAt a)) (getTime (updatedAt b))
      then [mkOp Deployed update a]
      else if js_gt (getTime (updatedAt b)) (getTime (updatedAt a))
      then [mkOp Local update b]
      else []
  | Some a, None => [mkOp Deployed create a]
  | None, Some b => [mkOp Local create b]
  | None, None => []
  end.
Proof.
  unfold twoWayPlan, commonTodoIds, localOnlyTodoIds, deployedOnlyTodoIds.
  pose proof (mapOf_filled A) as (HndA & _). pose proof (mapOf_filled B) as (HndB & _).
  rewrite !Set_of_keys by assumption. rewrite !filter_app.
  pose proof (@commonOps_id A B) as Hc.
  pose proof (@createOps_id Deployed A) as Hl.
  pose proof (@createOps_id Local B) as Hd.
  assert (NDc := NoDup_filter (fun i => Map_has (mapOf B) i) HndA).
  assert (NDl := NoDup_filter (fun i => negb (Map_has (mapOf B) i)) HndA).
  assert (NDd := NoDup_filter (fun i => negb (Map_has (mapOf A) i)) HndB).
  destruct (Map_get (mapOf A) i) as [a|] eqn:Ea;
    destruct (Map_get (mapOf B) i) as [b|] eqn:Eb.
  - rewrite (@filter_flat_map_In _ _ i NDc Hc).
    2:{ apply keys_filter_In. unfold Map_has. rewrite ?Ea, ?Eb. split; [congruence|reflexivity]. }
    rewrite (@filter_flat_map_notin _ _ i Hl).
    2:{ rewrite keys_filter_In. unfold Map_has. rewrite Eb. intros [_ H]. discriminate. }
    rewrite (@filter_flat_map_notin _ _ i Hd).
    2:{ rewrite keys_filter_In. unfold Map_has. rewrite Ea. intros [_ H]. discriminate. }
    unfold commonOps. rewrite Ea, Eb. now rewrite !app_nil_r.
  - rewrite (@filter_flat_map_notin _ _ i Hc).
    2:{ rewrite keys_filter_In. unfold Map_has. rewrite Eb. intros [_ H]. discriminate. }
    rewrite (@filter_flat_map_In _ _ i NDl Hl).
    2:{ apply keys_filter_In. unfold Map_has. rewrite ?Ea, ?Eb. split; [congruence|reflexivity]. }
    rewrite (@filter_flat_map_notin _ _ i Hd).
    2:{ rewrite keys_filter_In. rewrite Eb. tauto. }
    unfold createOps. now rewrite Ea.
  - rewrite (@filter_flat_map_notin _ _ i Hc).
    2:{ rewrite keys_filter_In. rewrite Ea. tauto. }
    rewrite (@filter_flat_map_notin _ _ i Hl).
    2:{ rewrite keys_filter_In. rewrite Ea. tauto. }
    rewrite (@filter_flat_map_In _ _ i NDd Hd).
    2:{ apply keys_filter_In. unfold Map_has. rewrite ?Ea, ?Eb. split; [congruence|reflexivity]. }
    unfold createOps. now rewrite Eb.
  - rewrite (@filter_flat_map_notin _ _ i Hc).
    2:{ rewrite keys_filter_In. rewrite Ea. tauto. }
    rewrite (@filter_flat_map_notin _ _ i Hl).
    2:{ rewrite keys_filter_In. rewrite Ea. tauto. }
    rewrite (@filter_flat_map_notin _ _ i Hd).
    2:{ rewrite keys_filter_In. rewrite Eb. tauto. }
    reflexivity.
Qed.

(** A plan with no operation for any id is empty. *)
Lemma plan_nil (plan : list operation) :
  (forall i, filter (has_id i) plan = []) -> plan = [].
Proof.
  destruct plan as [|o r]; [reflexivity|]. intros H.
  specialize (H (id (record o))). simpl in H. unfold has_id at 1 in H.
  rewrite String.eqb_refl in H. discriminate.
Qed.

End PlanFacts.

(** ** [syncTwoWay] performs its plan *)

Section Runs.

Variable W : Type.
Variable execSync : command -> W -> option output * W.
Variable readOutputs : W -> outputs_file.
Variable getTime : string -> option Z.

Notation "x <- m ;; k" := (bind m (fun x => k))
  (at level 61, m at next level, right associativity).
Notation "m ;; k" := (bind m (fun _ => k))
  (at level 61, right associativity).

Local Abbreviation Comp A := (W -> outcome A * W * list event).

Lemma bind_ret_tt (m : Comp unit) w : (m ;; ret tt) w = m w.
Proof.
  unfold bind, ret. destruct (m w) as [[[[]| |c] w1] t1]; try reflexivity.
  now rewrite app_nil_r.
Qed.

Lemma for_of_single (o : operation) (f : operation -> Comp unit) w :
  for_of [o] f w = f o w.
Proof. simpl. apply bind_ret_tt. Qed.

Lemma try_catch_ext A (m m' h : Comp A) w :
  (forall w', m w' = m' w') -> try_catch m h w = try_catch m' h w.
Proof. intros E. unfold try_catch. now rewrite E. Qed.

Lemma bind_cong A B (m m' : Comp A) (f g : A -> Comp B) w :
  (forall w', m w' = m' w') -> (forall a w', f a w' = g a w') ->
  bind m f w = bind m' g w.
Proof. intros Em Ef. unfold bind. rewrite Em. now apply bind_ext. Qed.

Lemma syncTwoWay_loops_plan A B w :
  syncTwoWay_loops execSync readOutputs getTime A B w =
  for_of (twoWayPlan getTime A B) (perform execSync readOutputs) w.
Proof.
  unfold syncTwoWay_loops, twoWayPlan.
  pose proof (mapOf_filled A) as (HndA & _). pose proof (mapOf_filled B) as (HndB & _).
  rewrite for_of_app. apply bind_cong.
  - intros w'. rewrite for_of_flat_map. apply for_of_ext. intros i Hi w''.
    unfold commonTodoIds in Hi. rewrite Set_of_keys in Hi by assumption.
    apply keys_filter_In in Hi. destruct Hi as [Ha Hb]. unfold Map_has in Hb.
    unfold commonOps.
    destruct (Map_get (mapOf A) i); [|congruence].
    destruct (Map_get (mapOf B) i); [|discriminate].
    destruct (js_gt _ _); [now rewrite for_of_single|].
    destruct (js_gt _ _); [now rewrite for_of_single|reflexivity].
  - intros _ w1. rewrite for_of_app. apply bind_cong.
    + intros w'. rewrite for_of_flat_map. apply for_of_ext. intros i Hi w''.
      unfold localOnlyTodoIds in Hi. rewrite Set_of_keys in Hi by assumption.
      apply keys_filter_In in Hi. destruct Hi as [Hi _]. unfold createOps.
      destruct (Map_get (mapOf A) i); [|congruence].
      now rewrite for_of_single.
    + intros _ w2. rewrite for_of_flat_map. apply for_of_ext. intros i Hi w''.
      unfold deployedOnlyTodoIds in Hi. rewrite Set_of_keys in Hi by assumption.
      apply keys_filter_In in Hi. destruct Hi as [Hi _]. unfold createOps.
      destruct (Map_get (mapOf B) i); [|congruence].
      now rewrite for_of_single.
Qed.

(** [syncTwoWay] reads both lists and then performs the operations of
    [twoWayPlan] on what it has read, in order. *)
Lemma syncTwoWay_performs_plan w :
  syncTwoWay execSync readOutputs getTime w =
  try_catch
    (log (MSyncStart TwoWay) info ;;
     localTodos <- listLocalTodos execSync readOutputs ;;
     deployedTodos <- listDeployedTodos execSync readOutputs ;;
     log (MFound Local (length localTodos)) info ;;
     log (MFound Deployed (length deployedTodos)) info ;;
     for_of (twoWayPlan getTime localTodos deployedTodos)
       (perform execSync readOutputs) ;;
     log (MSyncDone TwoWay) success)
    (log (MSyncError TwoWay) error) w.
Proof.
  unfold syncTwoWay. apply try_catch_ext. intros w0.
  apply bind_ext. intros _ w1. apply bind_ext. intros l w2.
  apply bind_ext. intros d w3. apply bind_ext. intros _ w4.
  apply bind_ext. intros _ w5. apply bind_cong; [|reflexivity].
  apply syncTwoWay_loops_plan.
Qed.

End Runs.

(** ** Last writer wins *)

Section LastWriterWins.

Variable getTime : string -> option Z.

Lemma js_gt_irrefl t : js_gt t t = false.
Proof. destruct t as [z|]; simpl; [apply Z.ltb_irrefl | reflexivity]. Qed.



(** C3, as amended.  In [syncTwoWay], an id held by both replicas with
    equal parsed [updatedAt] gets no operation, whatever the other fields
    are, and two lists with the same ids and, id by id, the same
    [updatedAt] give the empty plan.  The two-way merge of sync-data.js
    keeps the cloud record on such a tie and then imports the merged data
    into both environments. *)
Theorem equal_timestamps_no_operation :
  (forall (A B : list Todo) (i : string) (a b : Todo),
      Map_get (mapOf A) i = Some a ->
      Map_get (mapOf B) i = Some b ->
      getTime (updatedAt a) = getTime (updatedAt b) ->
      filter (has_id i) (twoWayPlan getTime A B) = []) /\
  (forall A B : list Todo,
      (forall i, In i (map id A) <-> In i (map id B)) ->
      (forall a b, In a A -> In b B -> id a = id b -> updatedAt a = updatedAt b) ->
      twoWayPlan getTime A B = []) /\
  (forall a b : Todo,
      id a = id b ->
      getTime (updatedAt a) = getTime (updatedAt b) ->
      SyncData.twoWay getTime [a] [b] = SyncData.mkImports [b] [[b]]).
Proof.
  split; [|split].
  - intros A B i a b Ea Eb E. now rewrite plan_at, Ea, Eb, E, js_gt_irrefl.
  - intros A B Hids Hstamp. apply plan_nil. intros i. rewrite plan_at.
    destruct (Map_get (mapOf A) i) as [a|] eqn:Ea;
      destruct (Map_get (mapOf B) i) as [b|] eqn:Eb; try reflexivity.
    + rewrite (Hstamp a b); eauto using mapOf_get_In.
      * now rewrite js_gt_irrefl.
      * apply mapOf_get_id in Ea, Eb. congruence.
    + assert (H : Map_has (mapOf B) i = true).
      { apply mapOf_has, Hids, mapOf_has. unfold Map_has. now rewrite Ea. }
      unfold Map_has in H. rewrite Eb in H. discriminate.
    + assert (H : Map_has (mapOf A) i = true).
      { apply mapOf_has, Hids, mapOf_has. unfold Map_has. now rewrite Eb. }
      unfold Map_has in H. rewrite Ea in H. discriminate.
  - intros a b Hid E. unfold SyncData.twoWay, SyncData.mergedItems, mapOf. simpl.
    unfold SyncData.addLocal. simpl. rewrite Hid, String.eqb_refl, E, js_gt_irrefl.
    reflexivity.
Qed.

(** [syncTwoWay] never sets a record aside for its timestamp.  When an id
    is held by both replicas and one of the two [updatedAt] does not
    parse, both comparisons are false and the id gets no operation; a
    record held by one replica only is created on the other one also when
    its [updatedAt] does not parse. *)
Lemma unparseable_in_plan :
  (forall (A B : list Todo) (i : string) (a b : Todo),
      Map_get (mapOf A) i = Some a ->
      Map_get (mapOf B) i = Some b ->
      getTime (updatedAt a) = None \/ getTime (updatedAt b) = None ->
      filter (has_id i) (twoWayPlan getTime A B) = []) /\
  (forall (A B : list Todo) (i : string) (a : Todo),
      Map_get (mapOf A) i = Some a ->
      Map_get (mapOf B) i = None ->
      getTime (updatedAt a) = None ->
      filter (has_id i) (twoWayPlan getTime A B) = [mkOp Deployed create a]) /\
  (forall (A B : list Todo) (i : string) (b : Todo),
      Map_get (mapOf A) i = None ->
      Map_get (mapOf B) i = Some b ->
      getTime (updatedAt b) = None ->
      filter (has_id i) (twoWayPlan getTime A B) = [mkOp Local create b]).
Proof.
  split; [|split].
  - intros A B i a b Ea Eb [E|E]; rewrite plan_at, Ea, Eb, E.
    + now destruct (getTime (updatedAt b)).
    + now destruct (getTime (updatedAt a)).
  - intros A B i a Ea Eb _. now rewrite plan_at, Ea, Eb.
  - intros A B i b Ea Eb _. now rewrite plan_at, Ea, Eb.
Qed.

End LastWriterWins.

(** ** What the accessors send, and to whom *)

Section Accessors.

Variable W : Type.
Variable execSync : command -> W -> option output * W.
Variable readOutputs : W -> outputs_file.
Variable getTime : string -> option Z.

Notation "x <- m ;; k" := (bind m (fun x => k))
  (at level 61, m at next level, right associativity).
Notation "m ;; k" := (bind m (fun _ => k))
  (at level 61, right associativity).

Lemma only_mutation_reads s r c : is_write c = false -> only_mutation s r c.
Proof. unfold only_mutation. congruence. Qed.

Lemma only_mutation_self s r e k : only_mutation s r (Curl s e k r).
Proof. intros _. eauto. Qed.

Lemma trace_of_safe A Pc thr (m : W -> outcome A * W * list event) :
  safe Pc (fun _ _ => True) thr m -> forall w, Forall (event_ok Pc) (trace (m w)).
Proof. intros H w. apply H. Qed.

Lemma perform_sends o w :
  Forall (event_ok (only_mutation (target o) (mutation o)))
    (trace (perform execSync readOutputs o w)).
Proof.
  apply trace_of_safe with (thr := false).
  apply safe_perform; auto using only_mutation_reads, only_mutation_self.
Qed.

(** C10. The only mutation [updateDeployedTodo] and [updateLocalTodo] send
    is an updateTodo whose input has the three fields id, content and
    completed of the record, and the run of either function is the same
    for every [createdAt] and [updatedAt] of the record: the timestamps of
    the winning record do not reach the replica written to. *)
Theorem update_sends_three_fields (todo : Todo) :
  let input := {| ui_id := id todo; ui_content := content todo;
                  ui_completed := completed todo |} in
  (forall w,
      Forall (event_ok (only_mutation Deployed (UpdateTodo input)))
        (trace (updateDeployedTodo execSync readOutputs todo w)) /\
      Forall (event_ok (only_mutation Local (UpdateTodo input)))
        (trace (updateLocalTodo execSync readOutputs todo w))) /\
  (forall created updated w,
      let todo' := {| id := id todo; content := content todo;
                      completed := completed todo;
                      createdAt := created; updatedAt := updated |} in
      updateDeployedTodo execSync readOutputs todo' w
        = updateDeployedTodo execSync readOutputs todo w /\
      updateLocalTodo execSync readOutputs todo' w
        = updateLocalTodo execSync readOutputs todo w).
Proof.
  split.
  - intros w. split; apply trace_of_safe with (thr := false).
    + apply safe_updateDeployedTodo; auto using only_mutation_reads.
      intros. apply only_mutation_self.
    + apply safe_updateLocalTodo; auto using only_mutation_reads.
      intros. apply only_mutation_self.
  - intros created updated w. split; reflexivity.
Qed.

(** C4, as amended.  A record that only one replica holds gets exactly one
    operation, a create on the other replica, and the only mutation this
    operation sends is a createTodo carrying the id of the record (when it
    is not empty), its content and its completed flag, null counting as
    false; [createdAt] and [updatedAt] are not part of the input. *)
Theorem create_on_missing (A B : list Todo) (i : string) (a : Todo) :
  Map_get (mapOf A) i = Some a ->
  Map_get (mapOf B) i = None ->
  filter (has_id i) (twoWayPlan getTime A B) = [mkOp Deployed create a] /\
  forall w,
    Forall (event_ok (only_mutation Deployed
              (CreateTodo {| ci_id := if truthy (id a) then Some (id a) else None;
                             ci_content := content a;
                             ci_completed := or_false (completed a) |})))
      (trace (perform execSync readOutputs (mkOp Deployed create a) w)).
Proof.
  intros Ea Eb. split.
  - now rewrite plan_at, Ea, Eb.
  - intros w. apply (perform_sends (mkOp Deployed create a)).
Qed.

(** C7. A one-way run from local to deployed sends no createTodo or
    updateTodo to the local replica and leaves its state as it was; a
    one-way run from deployed to local does the same for the deployed
    replica.  [state s] is the state of replica [s] in the world, which
    only mutations sent to [s] change. *)
Theorem one_way_frame (S : Type) (state : side -> W -> S) :
  (forall s c w, writes_to s c = false -> state s (snd (execSync c w)) = state s w) ->
  forall w,
    (Forall (event_ok (fun c => writes_to Local c = false))
       (trace (syncLocalToDeployed execSync readOutputs getTime w)) /\
     state Local (final (syncLocalToDeployed execSync readOutputs getTime w))
       = state Local w) /\
    (Forall (event_ok (fun c => writes_to Deployed c = false))
       (trace (syncDeployedToLocal execSync readOutputs getTime w)) /\
     state Deployed (final (syncDeployedToLocal execSync readOutputs getTime w))
       = state Deployed w).
Proof.
  intros Hframe w. split.
  - assert (H : safe (fun c => writes_to Local c = false)
                  (fun w w' => state Local w' = state Local w) false
                  (syncLocalToDeployed execSync readOutputs getTime)).
    { apply safe_syncLocalToDeployed.
      - reflexivity.
      - intros a b c H1 H2. congruence.
      - intros c w0 Hc. now apply Hframe.
      - intros c Hc. unfold is_write in Hc. now apply orb_false_iff in Hc.
      - intros e k []; reflexivity. }
    destruct (H w) as (Ht & HR & _). now split.
  - assert (H : safe (fun c => writes_to Deployed c = false)
                  (fun w w' => state Deployed w' = state Deployed w) false
                  (syncDeployedToLocal execSync readOutputs getTime)).
    { apply safe_syncDeployedToLocal.
      - reflexivity.
      - intros a b c H1 H2. congruence.
      - intros c w0 Hc. now apply Hframe.
      - intros c Hc. unfold is_write in Hc. now apply orb_false_iff in Hc.
      - intros e k []; reflexivity. }
    destruct (H w) as (Ht & HR & _). now split.
Qed.

End Accessors.

(** ** When listing a replica fails *)

Lemma Map_get_In_NoDup m k v :
  NoDup (Map_keys m) -> In (k, v) m -> Map_get m k = Some v.
Proof.
  induction m as [|[k0 v0] m IH]; simpl; [tauto|].
  intros Hnd [E|Hin].
  - injection E as -> ->. now rewrite String.eqb_refl.
  - inversion Hnd as [|? ? Hk0 Hm]; subst.
    destruct (String.eqb_spec k0 k) as [->|_]; [|auto].
    exfalso. apply Hk0. apply in_map_iff. now exists (k, v).
Qed.

Lemma createOps_keys s m :
  NoDup (Map_keys m) ->
  flat_map (createOps s m) (Map_keys m) = map (mkOp s create) (Map_values m).
Proof.
  intros Hnd.
  assert (H : forall l, (forall k v, In (k, v) l -> Map_get m k = Some v) ->
            flat_map (createOps s m) (map fst l) = map (mkOp s create) (map snd l)).
  { induction l as [|[k v] l IH]; intros Hl; simpl; [reflexivity|].
    unfold createOps at 1. rewrite (Hl k v (or_introl eq_refl)). simpl.
    f_equal. apply IH. intros k' v' Hin. apply Hl. now right. }
  apply H. intros k v. now apply Map_get_In_NoDup.
Qed.

(** With nothing read from the local replica, the plan is one create on
    the local replica for each deployed record. *)
Lemma plan_local_empty getTime d :
  twoWayPlan getTime [] d = map (mkOp Local create) (Map_values (mapOf d)).
Proof.
  unfold twoWayPlan, commonTodoIds, localOnlyTodoIds, deployedOnlyTodoIds. simpl.
  pose proof (mapOf_filled d) as (Hnd & _).
  rewrite filter_all by reflexivity. rewrite Set_of_NoDup by assumption.
  now apply createOps_keys.
Qed.

Section ListFailure.

Variable W : Type.
Variable execSync : command -> W -> option output * W.
Variable readOutputs : W -> outputs_file.
Variable getTime : string -> option Z.

Notation "x <- m ;; k" := (bind m (fun x => k))
  (at level 61, m at next level, right associativity).
Notation "m ;; k" := (bind m (fun _ => k))
  (at level 61, right associativity).

Local Abbreviation Comp A := (W -> outcome A * W * list event).

Lemma try_catch_bind_ret A B (m : Comp A) (f : A -> Comp B) h w a w1 t1 :
  m w = (Ret a, w1, t1) ->
  try_catch (bind m f) h w =
  let '(r, w2, t2) := try_catch (f a) h w1 in (r, w2, t1 ++ t2).
Proof.
  intros E. unfold try_catch, bind. rewrite E.
  destruct (f a w1) as [[[b| |c] w2] t2]; try reflexivity.
  destruct (h w2) as [[r w3] t3]. now rewrite app_assoc.
Qed.

Lemma try_catch_bind_exit A B (m : Comp A) (f : A -> Comp B) h w c w1 t1 :
  m w = (Exit c, w1, t1) -> try_catch (bind m f) h w = (Exit c, w1, t1).
Proof. intros E. unfold try_catch, bind. now rewrite E. Qed.

Lemma localEndpoint_run w cfg :
  readOutputs w = FileParsed (Some cfg) ->
  localEndpoint readOutputs w
    = (Ret (interpolate (url cfg), interpolate (api_key cfg)), w, []).
Proof. intros E. unfold localEndpoint, outputsFile, bind, ret. now rewrite E. Qed.

(** When the curl command of [listLocalTodos] fails after its retries,
    the function warns and returns the empty list. *)
Lemma listLocalTodos_no_connection w w1 t1 cfg w2 t2 :
  ensureSandboxRunning execSync w = (Ret true, w1, t1) ->
  readOutputs w1 = FileParsed (Some cfg) ->
  execute execSync
    (Curl Local (interpolate (url cfg)) (interpolate (api_key cfg)) ListTodos)
    (opts true true) w1 = (Ret None, w2, t2) ->
  listLocalTodos execSync readOutputs w
    = (Ret [], w2, t1 ++ t2 ++ [EvLog warning MNoConnection]).
Proof.
  intros Hrun Hcfg Hexec. unfold listLocalTodos.
  erewrite try_catch_bind_ret by exact Hrun. cbn [negb].
  erewrite try_catch_bind_ret by (apply localEndpoint_run, Hcfg). cbn beta iota.
  erewrite try_catch_bind_ret by exact Hexec.
  reflexivity.
Qed.

(** C5, as amended.  When listing the deployed replica ends the process
    (its curl command has failed on every attempt), [syncTwoWay] ends with
    exit status 1 and has sent no createTodo or updateTodo.  When the curl
    command of the local listing fails after its retries, the local list
    is taken to be empty and the run goes on: having read the deployed
    list it performs one create on the local replica for each deployed
    record. *)
Theorem list_failure (w : W) :
  (forall l w1 t1 c w2 t2,
      listLocalTodos execSync readOutputs w = (Ret l, w1, t1) ->
      listDeployedTodos execSync readOutputs w1 = (Exit c, w2, t2) ->
      syncTwoWay execSync readOutputs getTime w
        = (Exit 1%Z, w2, EvLog info (MSyncStart TwoWay) :: t1 ++ t2) /\
      Forall (event_ok (fun c => is_write c = false)) (t1 ++ t2)) /\
  (forall w1 t1 cfg w2 t2 d w3 t3,
      ensureSandboxRunning execSync w = (Ret true, w1, t1) ->
      readOutputs w1 = FileParsed (Some cfg) ->
      execute execSync
        (Curl Local (interpolate (url cfg)) (interpolate (api_key cfg)) ListTodos)
        (opts true true) w1 = (Ret None, w2, t2) ->
      listDeployedTodos execSync readOutputs w2 = (Ret d, w3, t3) ->
      syncTwoWay execSync readOutputs getTime w =
      let '(r, w4, t4) :=
        try_catch
          (for_of (map (mkOp Local create) (Map_values (mapOf d)))
             (perform execSync readOutputs) ;;
           log (MSyncDone TwoWay) success)
          (log (MSyncError TwoWay) error) w3 in
      (r, w4,
       EvLog info (MSyncStart TwoWay)
       :: t1 ++ t2 ++ EvLog warning MNoConnection
       :: t3 ++ EvLog info (MFound Local 0)
       :: EvLog info (MFound Deployed (length d)) :: t4)).
Proof.
  split.
  - intros l w1 t1 c w2 t2 Hl Hd.
    assert (Hsafe : forall thr A (m : Comp A),
              safe (fun c => is_write c = false) (fun _ _ => True) thr m ->
              forall w0, Forall (event_ok (fun c => is_write c = false)) (trace (m w0)) /\
                         forall c0, result (m w0) = Exit c0 -> c0 = 1%Z).
    { intros thr A m H w0. destruct (H w0) as (Ht & _ & Hr). split; [assumption|].
      intros c0 E. now rewrite E in Hr. }
    destruct (Hsafe false _ _ (@safe_listLocalTodos W execSync readOutputs _ _
                (fun _ => I) (fun _ _ _ _ _ => I) (fun _ _ _ => I) (fun _ H => H) false) w)
      as (Htl & _).
    destruct (Hsafe false _ _ (@safe_listDeployedTodos W execSync readOutputs _ _
                (fun _ => I) (fun _ _ _ _ _ => I) (fun _ _ _ => I) (fun _ H => H) false) w1)
      as (Htd & Hc).
    rewrite Hl in Htl. rewrite Hd in Htd, Hc. cbn in *.
    rewrite (Hc c eq_refl) in *. split; [|now apply Forall_app].
    unfold syncTwoWay.
    erewrite try_catch_bind_ret by reflexivity.
    erewrite try_catch_bind_ret by exact Hl.
    erewrite try_catch_bind_exit by exact Hd. reflexivity.
  - intros w1 t1 cfg w2 t2 d w3 t3 Hrun Hcfg Hexec Hd.
    pose proof (@listLocalTodos_no_connection w w1 t1 cfg w2 t2 Hrun Hcfg Hexec) as Hl.
    rewrite syncTwoWay_performs_plan.
    erewrite try_catch_bind_ret by reflexivity.
    erewrite try_catch_bind_ret by exact Hl.
    erewrite try_catch_bind_ret by exact Hd.
    erewrite try_catch_bind_ret by reflexivity.
    erewrite try_catch_bind_ret by reflexivity.
    rewrite plan_local_empty.
    destruct (try_catch _ _ w3) as [[r w4] t4]. cbn.
    now rewrite <- !app_assoc.
Qed.

End ListFailure.

(** ** Two stores behind faithful accessors *)

(** A world where the configuration is in place, the sandbox runs and
    every curl is answered with JSON. *)
Section Answering.

Variable W : Type.
Variable execSync : command -> W -> option output * W.
Variable readOutputs : W -> outputs_file.
Variables endpoint apiKey : string.
Hypothesis endpoint_truthy : truthy endpoint = true.
Hypothesis apiKey_truthy : truthy apiKey = true.
Hypothesis outputs_present :
  forall w, readOutputs w = FileParsed (Some (mkData (Some endpoint) (Some apiKey))).
Hypothesis sandbox_running : forall w, execSync PsSandbox w = (Some NotJson, w).
Hypothesis curl_answers :
  forall s e k r w, exists j, fst (execSync (Curl s e k r) w) = Some (Json j).

Lemma perform_answered o w :
  exists t,
    perform execSync readOutputs o w
    = (Ret tt, snd (execSync (Curl (target o) endpoint apiKey (mutation o)) w), t).
Proof.
  destruct (curl_answers (target o) endpoint apiKey (mutation o) w) as (j & Hj).
  destruct o as [[] [] todo]; cbn [target opkind record mutation] in *;
    unfold perform, createLocalTodo, updateLocalTodo, createDeployedTodo,
      updateDeployedTodo, executeGraphQL, getGraphQLEndpoint, ensureSandboxRunning,
      localEndpoint, outputsFile, execute, parse;
    cbn [target opkind record maxRetries_of opts maxRetries executeWithRetry];
    unfold attempt, try_catch, bind, exec, log, ret, throw;
    rewrite ?outputs_present, ?sandbox_running; cbn.
  all: rewrite ?endpoint_truthy, ?apiKey_truthy; cbn.
  all: rewrite ?sandbox_running; cbn.
  all: rewrite ?outputs_present; cbn.
  all: destruct (execSync (Curl _ _ _ _) w) as [[[j'|]|] w'] eqn:E; cbn in Hj;
    try discriminate; destruct j'; cbn; eexists; reflexivity.
Qed.
End Answering.

Lemma store_perform o w :
  exists t, perform store_execSync store_outputs o w = (Ret tt, store_step w o, t).
Proof.
  destruct (@perform_answered Stores store_execSync store_outputs
              theEndpoint theKey) with (o := o) (w := w)
    as (t & Ht); try reflexivity.
  - intros s e k r w0. destruct r as [|input|input]; cbn.
    + eauto.
    + unfold store_create. destruct (lookup _ _); cbn; eauto.
    + unfold store_update. destruct (lookup _ _); cbn; eauto.
  - exists t. rewrite Ht. destruct o as [s [] todo]; reflexivity.
Qed.

Lemma store_for_of plan : forall w,
  exists t,
    for_of plan (perform store_execSync store_outputs) w
    = (Ret tt, fold_left store_step plan w, t).
Proof.
  induction plan as [|o r IH]; intros w; simpl.
  - eexists. reflexivity.
  - unfold bind. destruct (@store_perform o w) as (t1 & ->).
    destruct (IH (store_step w o)) as (t2 & ->). eauto.
Qed.

Lemma store_syncTwoWay getTime w :
  exists t,
    syncTwoWay store_execSync store_outputs getTime w
    = (Ret tt, fold_left store_step (twoWayPlan getTime (local_db w) (deployed_db w)) w, t).
Proof.
  rewrite syncTwoWay_performs_plan.
  erewrite try_catch_bind_ret by reflexivity.
  erewrite try_catch_bind_ret by reflexivity.
  erewrite try_catch_bind_ret by reflexivity.
  erewrite try_catch_bind_ret by reflexivity.
  erewrite try_catch_bind_ret by reflexivity.
  destruct (@store_for_of (twoWayPlan getTime (local_db w) (deployed_db w)) w) as (t & Ht).
  erewrite try_catch_bind_ret by exact Ht.
  eexists. reflexivity.
Qed.

Lemma lookup_app i l t :
  lookup i (l ++ [t]) =
  match lookup i l with
  | Some r => Some r
  | None => if id t =? i then Some t else None
  end.
Proof.
  induction l as [|x r IH]; simpl; [reflexivity|].
  now destruct (id x =? i).
Qed.

Lemma lookup_replace i t l :
  lookup i (replace t l) =
  if id t =? i then match lookup i l with Some _ => Some t | None => None end
  else lookup i l.
Proof.
  induction l as [|x r IH]; simpl.
  - now destruct (id t =? i).
  - destruct (String.eqb_spec (id x) (id t)) as [E|E]; simpl.
    + rewrite E. now destruct (id t =? i).
    + rewrite IH. destruct (String.eqb_spec (id t) i) as [E'|E'].
      * subst i. apply String.eqb_neq in E. now rewrite E.
      * reflexivity.
Qed.

Lemma side_eqb_eq s s' : side_eqb s s' = true -> s = s'.
Proof. now destruct s, s'. Qed.

Lemma db_set_db s s' l w :
  db s (set_db s' l w) = if side_eqb s s' then l else db s w.
Proof. now destruct s, s'. Qed.

Lemma now_set_db s l w : now (set_db s l w) = now w.
Proof. now destruct s. Qed.

Lemma store_step_now w o : now (store_step w o) = now w.
Proof.
  unfold store_step, mutation. destruct (opkind o); cbn.
  - unfold store_create. destruct (lookup _ _); cbn; [reflexivity|apply now_set_db].
  - unfold store_update. destruct (lookup _ _); cbn; [apply now_set_db|reflexivity].
Qed.

(** The record of id [i] on side [s] after an operation. *)
Lemma store_step_lookup w o s i :
  truthy (id (record o)) = true ->
  lookup i (db s (store_step w o)) =
  if side_eqb s (target o) && (id (record o) =? i)
  then effect o (now w) (lookup i (db s w))
  else lookup i (db s w).
Proof.
  intros Hid. unfold store_step, mutation, effect.
  destruct o as [s' k todo]; cbn [target opkind record] in *.
  destruct k; cbn [store_execSync].
  - unfold store_create, createInput. cbn [ci_id ci_content ci_completed].
    rewrite Hid.
    destruct (lookup (id todo) (db s' w)) eqn:E; cbn [snd].
    + destruct (side_eqb s s') eqn:Es; [|reflexivity].
      destruct (String.eqb_spec (id todo) i) as [<-|]; [|reflexivity].
      apply side_eqb_eq in Es. subst s. cbn. now rewrite E.
    + rewrite db_set_db. destruct (side_eqb s s') eqn:Es; [|reflexivity].
      apply side_eqb_eq in Es. subst s.
      rewrite lookup_app. cbn [id].
      destruct (String.eqb_spec (id todo) i) as [<-|]; cbn.
      * now rewrite E.
      * now destruct (lookup i (db s' w)).
  - unfold store_update, updateInput. cbn [ui_id ui_content ui_completed].
    destruct (lookup (id todo) (db s' w)) eqn:E; cbn [snd].
    + rewrite db_set_db. destruct (side_eqb s s') eqn:Es; [|reflexivity].
      apply side_eqb_eq in Es. subst s.
      rewrite lookup_replace. cbn [id].
      destruct (String.eqb_spec (id todo) i) as [<-|]; cbn; [|reflexivity].
      now rewrite E.
    + destruct (side_eqb s s') eqn:Es; [|reflexivity].
      apply side_eqb_eq in Es. subst s.
      destruct (String.eqb_spec (id todo) i) as [<-|]; cbn; [|reflexivity].
      now rewrite E.
Qed.

Lemma agree_refl i w : agree i w w.
Proof. now split. Qed.

Lemma agree_trans i w1 w2 w3 : agree i w1 w2 -> agree i w2 w3 -> agree i w1 w3.
Proof. intros [N1 L1] [N2 L2]. split; [congruence|]. intros s. now rewrite L1. Qed.

Lemma step_agree_other i w o :
  has_id i o = false -> truthy (id (record o)) = true -> agree i (store_step w o) w.
Proof.
  unfold has_id. intros Hi Hid. split; [apply store_step_now|].
  intros s. rewrite store_step_lookup by assumption. rewrite Hi.
  now rewrite andb_false_r.
Qed.

Lemma step_agree_same i w w' o :
  agree i w w' -> truthy (id (record o)) = true ->
  agree i (store_step w o) (store_step w' o).
Proof.
  intros [N L] Hid. split; [now rewrite !store_step_now|].
  intros s. rewrite !store_step_lookup by assumption. now rewrite N, L.
Qed.

(** For the records of id [i], only the operations on [i] count. *)
Lemma fold_agree i ops : forall w w',
  (forall o, In o ops -> truthy (id (record o)) = true) ->
  agree i w w' ->
  agree i (fold_left store_step ops w) (fold_left store_step (filter (has_id i) ops) w').
Proof.
  induction ops as [|o r IH]; intros w w' Hids Hag; simpl; [assumption|].
  assert (Ho : truthy (id (record o)) = true) by (apply Hids; now left).
  assert (Hr : forall o', In o' r -> truthy (id (record o')) = true)
    by (intros o' Ho'; apply Hids; now right).
  destruct (has_id i o) eqn:E; simpl.
  - apply IH; [assumption|]. now apply step_agree_same.
  - apply IH; [assumption|]. eapply agree_trans; [|exact Hag].
    now apply step_agree_other.
Qed.

Lemma plan_records getTime A B o :
  In o (twoWayPlan getTime A B) -> In (record o) (A ++ B).
Proof.
  unfold twoWayPlan. rewrite !in_app_iff, !in_flat_map.
  intros [(i & _ & H)|[(i & _ & H)|(i & _ & H)]].
  - unfold commonOps in H.
    destruct (Map_get (mapOf A) i) as [a|] eqn:Ea; [|destruct H].
    destruct (Map_get (mapOf B) i) as [b|] eqn:Eb; [|destruct H].
    apply mapOf_get_In in Ea, Eb.
    destruct (js_gt _ _); [destruct H as [<-|[]]; now left|].
    destruct (js_gt _ _); [destruct H as [<-|[]]; now right|destruct H].
  - unfold createOps in H. destruct (Map_get (mapOf A) i) as [a|] eqn:Ea; [|destruct H].
    apply mapOf_get_In in Ea. destruct H as [<-|[]]. now left.
  - unfold createOps in H. destruct (Map_get (mapOf B) i) as [b|] eqn:Eb; [|destruct H].
    apply mapOf_get_In in Eb. destruct H as [<-|[]]. now right.
Qed.

Lemma lookup_Some i l t : lookup i l = Some t -> In t l /\ id t = i.
Proof.
  induction l as [|x r IH]; simpl; [discriminate|].
  destruct (String.eqb_spec (id x) i) as [E|E].
  - intros [= <-]. auto.
  - intros H. apply IH in H. tauto.
Qed.

Lemma lookup_None i l : lookup i l = None -> ~ In i (map id l).
Proof.
  induction l as [|x r IH]; simpl; [tauto|].
  destruct (String.eqb_spec (id x) i) as [E|E]; [discriminate|].
  intros H [E'|Hin]; [congruence|]. now apply IH.
Qed.

Lemma NoDup_ids_unique l a b :
  NoDup (map id l) -> In a l -> In b l -> id a = id b -> a = b.
Proof.
  induction l as [|x r IH]; simpl; [tauto|].
  intros Hnd Ha Hb E. inversion Hnd as [|? ? Hx Hr]; subst.
  destruct Ha as [<-|Ha], Hb as [<-|Hb]; auto.
  - exfalso. apply Hx. rewrite E. now apply in_map.
  - exfalso. apply Hx. rewrite <- E. now apply in_map.
Qed.

Lemma mapOf_get_lookup l i : NoDup (map id l) -> Map_get (mapOf l) i = lookup i l.
Proof.
  intros Hnd. destruct (lookup i l) as [t|] eqn:E.
  - apply lookup_Some in E. destruct E as [Hin <-].
    pose proof (mapOf_filled l) as (_ & Hval & Hdom).
    specialize (Hdom t Hin).
    destruct (Map_get (mapOf l) (id t)) as [t'|] eqn:E'; [|congruence].
    apply Hval in E'. destruct E' as [Eid Hin']. f_equal.
    eapply NoDup_ids_unique; eauto.
  - apply lookup_None in E.
    destruct (Map_get (mapOf l) i) as [t'|] eqn:E'; [|reflexivity].
    exfalso. apply E. apply in_map_iff. exists t'.
    split; eauto using mapOf_get_id, mapOf_get_In.
Qed.

(** C1, as amended.  After a two-way run against the two stores, where
    each replica lists distinct, non-empty ids, the run has ended normally
    and every id listed by either replica is held by both; unless both
    held it before with neither record strictly newer, the two records
    have the same content and the same completed flag, null counting as
    false.  Nothing is said of [updatedAt]: the replica written to stamps
    its own time. *)
Theorem two_way_agreement (getTime : string -> option Z) (A B : list Todo)
    (clock fresh : string) :
  NoDup (map id A) ->
  NoDup (map id B) ->
  (forall t, In t (A ++ B) -> truthy (id t) = true) ->
  let x := syncTwoWay store_execSync store_outputs getTime (mkStores A B clock fresh) in
  result x = Ret tt /\
  forall i, In i (map id (A ++ B)) ->
    exists a b,
      lookup i (local_db (final x)) = Some a /\
      lookup i (deployed_db (final x)) = Some b /\
      (undecided getTime A B i = false ->
         content a = content b /\ or_false (completed a) = or_false (completed b)).
Proof.
  intros HndA HndB Hids x. subst x.
  destruct (@store_syncTwoWay getTime (mkStores A B clock fresh)) as (t & ->).
  cbn [result final fst snd local_db deployed_db]. split; [reflexivity|].
  intros i Hi.
  set (w0 := mkStores A B clock fresh).
  assert (Hplan : forall o, In o (twoWayPlan getTime A B) -> truthy (id (record o)) = true).
  { intros o Ho. apply Hids. now apply plan_records in Ho. }
  destruct (@fold_agree i (twoWayPlan getTime A B) w0 w0 Hplan (@agree_refl i w0))
    as [_ Hlook].
  pose proof (Hlook Local) as HL. pose proof (Hlook Deployed) as HD.
  cbn [db] in HL, HD. rewrite HL, HD. clear HL HD Hlook.
  rewrite plan_at, !mapOf_get_lookup by assumption.
  unfold undecided.
  destruct (lookup i A) as [a0|] eqn:Ea; destruct (lookup i B) as [b0|] eqn:Eb.
  - pose proof Ea as Ha. apply lookup_Some in Ha. destruct Ha as [Ha Hida].
    pose proof Eb as Hb. apply lookup_Some in Hb. destruct Hb as [Hb Hidb].
    assert (Ta : truthy (id a0) = true) by (apply Hids, in_app_iff; now left).
    assert (Tb : truthy (id b0) = true) by (apply Hids, in_app_iff; now right).
    destruct (js_gt (getTime (updatedAt a0)) (getTime (updatedAt b0))).
    + cbn [fold_left]. change (local_db ?w) with (db Local w).
      change (deployed_db ?w) with (db Deployed w).
      rewrite !store_step_lookup by assumption. cbn [target record side_eqb andb].
      rewrite Hida, String.eqb_refl. cbn [db w0 local_db deployed_db].
      rewrite Ea, Eb. cbn. eexists _, _. repeat split; reflexivity.
    + destruct (js_gt (getTime (updatedAt b0)) (getTime (updatedAt a0))).
      * cbn [fold_left]. change (local_db ?w) with (db Local w).
        change (deployed_db ?w) with (db Deployed w).
        rewrite !store_step_lookup by assumption. cbn [target record side_eqb andb].
        rewrite Hidb, String.eqb_refl. cbn [db w0 local_db deployed_db].
        rewrite Ea, Eb. cbn. eexists _, _. repeat split; reflexivity.
      * cbn. rewrite Ea, Eb. exists a0, b0. repeat split; discriminate.
  - pose proof Ea as Ha. apply lookup_Some in Ha. destruct Ha as [Ha Hida].
    assert (Ta : truthy (id a0) = true) by (apply Hids, in_app_iff; now left).
    cbn [fold_left]. change (local_db ?w) with (db Local w).
    change (deployed_db ?w) with (db Deployed w).
    rewrite !store_step_lookup by assumption. cbn [target record side_eqb andb].
    rewrite Hida, String.eqb_refl. cbn [db w0 local_db deployed_db].
    rewrite Ea, Eb. cbn. eexists _, _. repeat split; reflexivity.
  - pose proof Eb as Hb. apply lookup_Some in Hb. destruct Hb as [Hb Hidb].
    assert (Tb : truthy (id b0) = true) by (apply Hids, in_app_iff; now right).
    cbn [fold_left]. change (local_db ?w) with (db Local w).
    change (deployed_db ?w) with (db Deployed w).
    rewrite !store_step_lookup by assumption. cbn [target record side_eqb andb].
    rewrite Hidb, String.eqb_refl. cbn [db w0 local_db deployed_db].
    rewrite Ea, Eb. cbn. eexists _, _. repeat split; reflexivity.
  - exfalso. rewrite map_app, in_app_iff in Hi.
    apply lookup_None in Ea, Eb. tauto.
Qed.

(** The stores change a replica only on a mutation sent to it. *)
Lemma store_frame s c w :
  writes_to s c = false -> db s (snd (store_execSync c w)) = db s w.
Proof.
  destruct c as [| |ms|s' e k [|input|input]]; try reflexivity; cbn; intros H.
  - unfold store_create. destruct (lookup _ _); cbn; [reflexivity|].
    rewrite db_set_db. now rewrite H.
  - unfold store_update. destruct (lookup _ _); cbn; [|reflexivity].
    rewrite db_set_db. now rewrite H.
Qed.

(** * Runs on explicit inputs *)

(** ** Newer wins, ties, missing records, timestamps that do not parse *)


Lemma equal_timestamps_witness :
  filter (has_id "1") (twoWayPlan isoTime [oat_milk jan1] [milk jan1]) = [] /\
  twoWayPlan isoTime [oat_milk jan1; bread "2" jan2] [bread "2" jan2; milk jan1] = [] /\
  SyncData.twoWay isoTime [oat_milk jan1] [milk jan1]
    = SyncData.mkImports [milk jan1] [[milk jan1]].
Proof.
  destruct (equal_timestamps_no_operation isoTime) as (H1 & H2 & H3).
  split; [|split].
  - apply (H1 [oat_milk jan1] [milk jan1] "1" (oat_milk jan1) (milk jan1));
      reflexivity.
  - apply H2.
    + intros i. simpl. tauto.
    + intros a b [<-|[<-|[]]] [<-|[<-|[]]]; simpl; intros E;
        try reflexivity; discriminate.
  - apply H3; reflexivity.
Defined.

(** On a tie the merge of sync-data.js rewrites both sides: the local
    storage file gets the cloud record in place of the local one, and the
    cloud table is sent a PutRequest. *)
Lemma tie_rewrites_both_sides :
  let localData := [oat_milk jan1] in
  let cloudData := [milk jan1] in
  updatedAt (oat_milk jan1) = updatedAt (milk jan1) /\
  SyncData.localTodos (SyncData.twoWay isoTime localData cloudData) <> localData /\
  SyncData.putRequests (SyncData.twoWay isoTime localData cloudData) = [[milk jan1]].
Proof. repeat split. discriminate. Qed.

Lemma create_on_missing_witness :
  let A := [bread "x" jan1] in
  Map_get (mapOf A) "x" = Some (bread "x" jan1) /\
  Map_get (mapOf []) "x" = None /\
  filter (has_id "x") (twoWayPlan isoTime A []) = [mkOp Deployed create (bread "x" jan1)] /\
  Forall (event_ok (only_mutation Deployed
            (CreateTodo {| ci_id := Some "x"; ci_content := "buy bread";
                           ci_completed := false |})))
    (trace (perform store_execSync store_outputs (mkOp Deployed create (bread "x" jan1))
              (mkStores A [] jan3 "generated"))).
Proof.
  intros A.
  assert (Ha : Map_get (mapOf A) "x" = Some (bread "x" jan1)) by reflexivity.
  assert (Hb : Map_get (mapOf []) "x" = None) by reflexivity.
  destruct (@create_on_missing Stores store_execSync store_outputs isoTime A [] "x" _ Ha Hb)
    as (Hplan & Hsends).
  exact (conj Ha (conj Hb (conj Hplan (Hsends _)))).
Defined.

(** Whatever the timestamps of the record that only the local replica
    holds, the run sends the same commands and the deployed replica ends
    up with the same record, stamped with its own clock. *)
Lemma create_drops_timestamps :
  let run stamp :=
    syncTwoWay store_execSync store_outputs isoTime
      (mkStores [bread "x" stamp] [] jan3 "generated") in
  commands (trace (run jan1)) = commands (trace (run jan2)) /\
  deployed_db (final (run jan1)) = deployed_db (final (run jan2)) /\
  deployed_db (final (run jan1))
    = [{| id := "x"; content := "buy bread"; completed := Some false;
          createdAt := jan3; updatedAt := jan3 |}] /\
  updatedAt (bread "x" jan1) <> jan3.
Proof. repeat split. discriminate. Qed.

(** A record whose timestamp does not parse is not left out: held by the
    local replica only, it is created on the deployed one. *)
Lemma unparseable_record_is_created :
  let x := syncTwoWay store_execSync store_outputs isoTime
             (mkStores [bread "x" "not-a-date"] [] jan3 "generated") in
  isoTime (updatedAt (bread "x" "not-a-date")) = None /\
  twoWayPlan isoTime [bread "x" "not-a-date"] []
    = [mkOp Deployed create (bread "x" "not-a-date")] /\
  filter is_write (commands (trace x))
    = [Curl Deployed theEndpoint theKey
         (CreateTodo {| ci_id := Some "x"; ci_content := "buy bread";
                        ci_completed := false |})] /\
  lookup "x" (deployed_db (final x))
    = Some {| id := "x"; content := "buy bread"; completed := Some false;
              createdAt := jan3; updatedAt := jan3 |}.
Proof. repeat split. Qed.

(** ** Convergence *)

(** After a two-way run the two replicas hold record "1" with different
    [updatedAt], and the plan of a second run is not empty: it sends the
    deployed record back to the local replica. *)
Lemma convergence_fails :
  let x := syncTwoWay store_execSync store_outputs isoTime
             (mkStores [oat_milk jan2] [milk jan1] jan3 "generated") in
  let written := {| id := "1"; content := "buy oat milk"; completed := Some true;
                    createdAt := jan1; updatedAt := jan3 |} in
  result x = Ret tt /\
  lookup "1" (local_db (final x)) = Some (oat_milk jan2) /\
  lookup "1" (deployed_db (final x)) = Some written /\
  updatedAt (oat_milk jan2) <> updatedAt written /\
  twoWayPlan isoTime (local_db (final x)) (deployed_db (final x))
    = [mkOp Local update written].
Proof. repeat split. discriminate. Qed.

Lemma two_way_agreement_witness :
  let A := [oat_milk jan2; bread "2" jan1] in
  let B := [milk jan1; bread "3" jan1] in
  let x := syncTwoWay store_execSync store_outputs isoTime (mkStores A B jan3 "generated") in
  NoDup (map id A) /\
  NoDup (map id B) /\
  (forall t, In t (A ++ B) -> truthy (id t) = true) /\
  result x = Ret tt /\
  forall i, In i (map id (A ++ B)) ->
    exists a b,
      lookup i (local_db (final x)) = Some a /\
      lookup i (deployed_db (final x)) = Some b /\
      (undecided isoTime A B i = false ->
         content a = content b /\ or_false (completed a) = or_false (completed b)).
Proof.
  intros A B x.
  assert (HA : NoDup (map id A)).
  { repeat constructor; simpl; intuition discriminate. }
  assert (HB : NoDup (map id B)).
  { repeat constructor; simpl; intuition discriminate. }
  assert (Hids : forall t, In t (A ++ B) -> truthy (id t) = true).
  { intros t [<-|[<-|[<-|[<-|[]]]]]; reflexivity. }
  exact (conj HA (conj HB (conj Hids (@two_way_agreement isoTime A B jan3 "generated" HA HB Hids)))).
Defined.

(** ** Failures *)

(** The local listing fails, and the run goes on to write: it sends a
    createTodo to the local replica, ends normally, and its last word is
    that the synchronisation has completed. *)
Lemma local_list_failure_is_not_fatal :
  let x := syncTwoWay script_execSync script_outputs isoTime localDown in
  let list := Curl Local theEndpoint theKey ListTodos in
  let create := Curl Local theEndpoint theKey
                  (CreateTodo {| ci_id := Some "2"; ci_content := "buy bread";
                                 ci_completed := false |}) in
  result x = Ret tt /\
  commands (trace x)
    = [PsSandbox; list; Sleep 1000; list; Sleep 1000; list; Sleep 1000; list;
       Curl Deployed theEndpoint theKey ListTodos;
       PsSandbox; create] /\
  filter is_write (commands (trace x)) = [create] /\
  last (trace x) (EvLog error (MSyncError TwoWay)) = EvLog success (MSyncDone TwoWay).
Proof. repeat split. Qed.

Lemma list_failure_witness :
  (exists t,
      listLocalTodos script_execSync script_outputs deployedDown
        = (Ret [bread "2" jan1],
           [None; succeeds; None; succeeds; None; succeeds; None], t) /\
      exists t',
        listDeployedTodos script_execSync script_outputs
          [None; succeeds; None; succeeds; None; succeeds; None]
          = (Exit 1%Z, [], t') /\
        syncTwoWay script_execSync script_outputs isoTime deployedDown
          = (Exit 1%Z, [], EvLog info (MSyncStart TwoWay) :: t ++ t') /\
        Forall (event_ok (fun c => is_write c = false)) (t ++ t')) /\
  (exists t1 t2 t3 r w4 t4,
      ensureSandboxRunning script_execSync localDown
        = (Ret true, tl localDown, t1) /\
      execute script_execSync (Curl Local theEndpoint theKey ListTodos)
        (opts true true) (tl localDown)
        = (Ret None, skipn 8 localDown, t2) /\
      listDeployedTodos script_execSync script_outputs (skipn 8 localDown)
        = (Ret [bread "2" jan1], skipn 9 localDown, t3) /\
      try_catch
        (bind (for_of [mkOp Local create (bread "2" jan1)]
                 (perform script_execSync script_outputs))
              (fun _ => log (MSyncDone TwoWay) success))
        (log (MSyncError TwoWay) error) (skipn 9 localDown) = (r, w4, t4) /\
      syncTwoWay script_execSync script_outputs isoTime localDown
        = (r, w4,
           EvLog info (MSyncStart TwoWay)
           :: t1 ++ t2 ++ EvLog warning MNoConnection
           :: t3 ++ EvLog info (MFound Local 0)
           :: EvLog info (MFound Deployed 1) :: t4)).
Proof.
  split.
  - eexists. split; [reflexivity|]. eexists. split; [reflexivity|].
    apply (proj1 (@list_failure Script script_execSync script_outputs isoTime deployedDown)
             [bread "2" jan1] [None; succeeds; None; succeeds; None; succeeds; None] _
             1%Z [] _);
      reflexivity.
  - do 6 eexists. split; [reflexivity|]. split; [reflexivity|]. split; [reflexivity|].
    split; [reflexivity|].
    apply (proj2 (@list_failure Script script_execSync script_outputs isoTime localDown)
             (tl localDown) _ (mkData (Some theEndpoint) (Some theKey))
             (skipn 8 localDown) _ [bread "2" jan1] (skipn 9 localDown) _);
      reflexivity.
Defined.

(** C6 fails on the deployed side.  The plan has an update of the deployed
    record "2" and one of "3"; the curl of the first fails on all four
    attempts, and [execute], called by [executeGraphQL] without
    [ignoreError], leaves the process with status 1: the update of "3" is
    never attempted and the run does not complete. *)
Theorem deployed_write_failure_aborts :
  let x := syncTwoWay script_execSync script_outputs isoTime updateDown in
  let sent i := Curl Deployed theEndpoint theKey
                    (UpdateTodo {| ui_id := i; ui_content := "buy bread";
                                   ui_completed := None |}) in
  twoWayPlan isoTime [bread "2" jan2; bread "3" jan2] [bread "2" jan1; bread "3" jan1]
    = [mkOp Deployed update (bread "2" jan2); mkOp Deployed update (bread "3" jan2)] /\
  result x = Exit 1%Z /\
  filter is_write (commands (trace x)) = [sent "2"; sent "2"; sent "2"; sent "2"] /\
  ~ In (sent "3") (commands (trace x)).
Proof.
  repeat split. vm_compute. intuition discriminate.
Qed.

(** The same failure on the local side is survived: [updateLocalTodo]
    passes [ignoreError], warns and returns null, and the next operation
    is attempted. *)
Lemma local_write_failure_goes_on :
  let script : Script :=
    [succeeds; answers (JListTodos [bread "2" jan1; bread "3" jan1]);
     answers (JListTodos [bread "2" jan2; bread "3" jan2]);
     succeeds; None; succeeds; None; succeeds; None; succeeds; None;
     succeeds; answers (JUpdateTodo (bread "3" jan3))] in
  let x := syncTwoWay script_execSync script_outputs isoTime script in
  let sent i := Curl Local theEndpoint theKey
                    (UpdateTodo {| ui_id := i; ui_content := "buy bread";
                                   ui_completed := None |}) in
  result x = Ret tt /\
  filter is_write (commands (trace x))
    = [sent "2"; sent "2"; sent "2"; sent "2"; sent "3"].
Proof. repeat split. Qed.

(** ** One-way runs *)

Lemma one_way_frame_witness :
  let w := mkStores [oat_milk jan2; bread "2" jan1] [milk jan1; bread "3" jan1]
             jan3 "generated" in
  (forall s c w, writes_to s c = false -> db s (snd (store_execSync c w)) = db s w) /\
  (Forall (event_ok (fun c => writes_to Local c = false))
     (trace (syncLocalToDeployed store_execSync store_outputs isoTime w)) /\
   db Local (final (syncLocalToDeployed store_execSync store_outputs isoTime w))
     = db Local w) /\
  (Forall (event_ok (fun c => writes_to Deployed c = false))
     (trace (syncDeployedToLocal store_execSync store_outputs isoTime w)) /\
   db Deployed (final (syncDeployedToLocal store_execSync store_outputs isoTime w))
     = db Deployed w).
Proof.
  intros w.
  exact (conj store_frame
           (@one_way_frame Stores store_execSync store_outputs isoTime
              (list Todo) db store_frame w)).
Defined.

(** * More on the scripts *)

(** ** The Map of a listing that repeats an id *)

Lemma mapOf_snoc l t : mapOf (l ++ [t]) = Map_set (mapOf l) (id t) t.
Proof. unfold mapOf. now rewrite fold_left_app. Qed.

(** X1. When a listing repeats an id, the Map built from it holds the last
    record listed with that id: the record the comparisons of the sync
    functions then use. *)
Theorem mapOf_keeps_last (todos : list Todo) (i : string) :
  Map_get (mapOf todos) i = lookup i (rev todos).
Proof.
  induction todos as [|t l IH] using rev_ind; [reflexivity|].
  rewrite mapOf_snoc, Map_get_set, rev_app_distr. simpl. now rewrite IH.
Qed.

(** ** The two-way plan *)

Section PlanShape.

Variable getTime : string -> option Z.

Lemma js_gt_asym x y : js_gt x y = true -> js_gt y x = false.
Proof.
  destruct x as [a|], y as [b|]; simpl; try discriminate.
  intros H. apply Z.ltb_lt in H. apply Z.ltb_ge. lia.
Qed.

(** X3. Every operation of the two-way plan is called for.  Its record is
    the one the source replica's Map holds for its id; a create goes to a
    replica that lists no record of that id, an update to a replica whose
    record of that id has a strictly smaller parsed [updatedAt].  So the
    run never creates a record its target lists and never overwrites a
    record with an older or equally old one. *)
Theorem plan_operations_called_for (A B : list Todo) (o : operation) :
  In o (twoWayPlan getTime A B) ->
  let source := listed (other (target o)) A B in
  let dest := listed (target o) A B in
  Map_get (mapOf source) (id (record o)) = Some (record o) /\
  match opkind o with
  | create => Map_get (mapOf dest) (id (record o)) = None
  | update =>
      exists old,
        Map_get (mapOf dest) (id (record o)) = Some old /\
        js_gt (getTime (updatedAt (record o))) (getTime (updatedAt old)) = true
  end.
Proof.
  intros Ho source dest. subst source dest.
  assert (H : In o (filter (has_id (id (record o))) (twoWayPlan getTime A B))).
  { apply filter_In. split; [assumption|]. unfold has_id. apply String.eqb_refl. }
  rewrite plan_at in H.
  destruct (Map_get (mapOf A) (id (record o))) as [a|] eqn:Ea;
    destruct (Map_get (mapOf B) (id (record o))) as [b|] eqn:Eb.
  - destruct (js_gt (getTime (updatedAt a)) (getTime (updatedAt b))) eqn:G1.
    + destruct H as [<-|[]]. cbn [listed other target opkind record] in *. rewrite Ea, Eb. split; [reflexivity|]. eauto.
    + destruct (js_gt (getTime (updatedAt b)) (getTime (updatedAt a))) eqn:G2;
        [|destruct H].
      destruct H as [<-|[]]. cbn [listed other target opkind record] in *. rewrite Ea, Eb. split; [reflexivity|]. eauto.
  - destruct H as [<-|[]]. cbn [listed other target opkind record] in *. now rewrite Ea, Eb.
  - destruct H as [<-|[]]. cbn [listed other target opkind record] in *. now rewrite Ea, Eb.
  - destruct H.
Qed.

(** X4. Swapping the two replicas swaps the targets: id by id, the plan for
    (B, A) is the plan for (A, B) with every operation aimed at the other
    replica. *)
Theorem plan_swap (A B : list Todo) (i : string) :
  filter (has_id i) (twoWayPlan getTime B A)
  = map mirror (filter (has_id i) (twoWayPlan getTime A B)).
Proof.
  rewrite !plan_at.
  destruct (Map_get (mapOf A) i) as [a|], (Map_get (mapOf B) i) as [b|];
    try reflexivity.
  destruct (js_gt (getTime (updatedAt a)) (getTime (updatedAt b))) eqn:G1.
  - now rewrite (js_gt_asym _ _ G1).
  - now destruct (js_gt (getTime (updatedAt b)) (getTime (updatedAt a))).
Qed.

End PlanShape.

(** ** The one-way runs perform their plans *)

Section OneWayRuns.

Variable W : Type.
Variable execSync : command -> W -> option output * W.
Variable readOutputs : W -> outputs_file.
Variable getTime : string -> option Z.

Notation "x <- m ;; k" := (bind m (fun x => k))
  (at level 61, m at next level, right associativity).
Notation "m ;; k" := (bind m (fun _ => k))
  (at level 61, right associativity).

Lemma syncLocalToDeployed_performs_plan w :
  syncLocalToDeployed execSync readOutputs getTime w =
  try_catch
    (log (MSyncStart LocalToDeployed) info ;;
     localTodos <- listLocalTodos execSync readOutputs ;;
     deployedTodos <- listDeployedTodos execSync readOutputs ;;
     log (MFound Local (length localTodos)) info ;;
     log (MFound Deployed (length deployedTodos)) info ;;
     for_of (localToDeployedPlan getTime localTodos deployedTodos)
       (perform execSync readOutputs) ;;
     log (MSyncDone LocalToDeployed) success)
    (log (MSyncError LocalToDeployed) error) w.
Proof.
  unfold syncLocalToDeployed. apply try_catch_ext. intros w0.
  apply bind_ext. intros _ w1. apply bind_ext. intros l w2.
  apply bind_ext. intros d w3. apply bind_ext. intros _ w4.
  apply bind_ext. intros _ w5. apply bind_cong; [|reflexivity].
  intros w6. unfold localToDeployedPlan. rewrite for_of_flat_map.
  apply for_of_ext. intros t _ w7. unfold localToDeployedOps, Map_has.
  destruct (Map_get (mapOf d) (id t)).
  - destruct (js_gt _ _); [now rewrite for_of_single|reflexivity].
  - now rewrite for_of_single.
Qed.

Lemma syncDeployedToLocal_performs_plan w :
  syncDeployedToLocal execSync readOutputs getTime w =
  try_catch
    (log (MSyncStart DeployedToLocal) info ;;
     localTodos <- listLocalTodos execSync readOutputs ;;
     deployedTodos <- listDeployedTodos execSync readOutputs ;;
     log (MFound Local (length localTodos)) info ;;
     log (MFound Deployed (length deployedTodos)) info ;;
     for_of (deployedToLocalPlan getTime localTodos deployedTodos)
       (perform execSync readOutputs) ;;
     log (MSyncDone DeployedToLocal) success)
    (log (MSyncError DeployedToLocal) error) w.
Proof.
  unfold syncDeployedToLocal. apply try_catch_ext. intros w0.
  apply bind_ext. intros _ w1. apply bind_ext. intros l w2.
  apply bind_ext. intros d w3. apply bind_ext. intros _ w4.
  apply bind_ext. intros _ w5. apply bind_cong; [|reflexivity].
  intros w6. unfold deployedToLocalPlan. rewrite for_of_flat_map.
  apply for_of_ext. intros t _ w7. unfold deployedToLocalOps, Map_has.
  destruct (Map_get (mapOf l) (id t)).
  - destruct (js_gt _ _); [now rewrite for_of_single|reflexivity].
  - now rewrite for_of_single.
Qed.

End OneWayRuns.

Section OneWayPlanFacts.

Variable getTime : string -> option Z.

Lemma lookup_notin i l : ~ In i (map id l) -> lookup i l = None.
Proof.
  intros H. destruct (lookup i l) as [t|] eqn:E; [|reflexivity].
  apply lookup_Some in E. destruct E as [Hin <-]. exfalso. apply H. now apply in_map.
Qed.

(** The operations of one id among those generated record by record for
    records of distinct ids. *)
Lemma filter_flat_map_records (f : Todo -> list operation) l i :
  NoDup (map id l) ->
  (forall t o, In o (f t) -> id (record o) = id t) ->
  filter (has_id i) (flat_map f l)
  = match lookup i l with Some t => f t | None => [] end.
Proof.
  intros Hnd Hf. induction l as [|t r IH]; simpl; [reflexivity|].
  inversion Hnd as [|? ? Ht Hr]; subst. rewrite filter_app, (IH Hr).
  destruct (String.eqb_spec (id t) i) as [E|E].
  - rewrite filter_all.
    + rewrite lookup_notin by congruence. apply app_nil_r.
    + intros o Ho. apply Hf in Ho. unfold has_id. apply String.eqb_eq. congruence.
  - rewrite filter_none; [reflexivity|].
    intros o Ho. apply Hf in Ho. unfold has_id. apply String.eqb_neq. congruence.
Qed.

Lemma localToDeployedOps_id m t o :
  In o (localToDeployedOps getTime m t) -> id (record o) = id t.
Proof.
  unfold localToDeployedOps. destruct (Map_has m (id t)).
  - destruct (Map_get m (id t)); [|intros []].
    destruct (js_gt _ _); [|intros []]. now intros [<-|[]].
  - now intros [<-|[]].
Qed.

Lemma deployedToLocalOps_id m t o :
  In o (deployedToLocalOps getTime m t) -> id (record o) = id t.
Proof.
  unfold deployedToLocalOps. destruct (Map_has m (id t)).
  - destruct (Map_get m (id t)); [|intros []].
    destruct (js_gt _ _); [|intros []]. now intros [<-|[]].
  - now intros [<-|[]].
Qed.

(** X5. For a source listing without repeated ids a one-way run issues, id
    by id, exactly the operations of the two-way run that are aimed at its
    destination: local-to-deployed the operations on the deployed replica,
    deployed-to-local those on the local replica. *)
Theorem one_way_is_part_of_two_way (A B : list Todo) (i : string) :
  (NoDup (map id A) ->
   filter (has_id i) (localToDeployedPlan getTime A B)
   = filter (fun o => side_eqb (target o) Deployed)
       (filter (has_id i) (twoWayPlan getTime A B))) /\
  (NoDup (map id B) ->
   filter (has_id i) (deployedToLocalPlan getTime A B)
   = filter (fun o => side_eqb (target o) Local)
       (filter (has_id i) (twoWayPlan getTime A B))).
Proof.
  split; intros Hnd.
  - unfold localToDeployedPlan.
    rewrite (@filter_flat_map_records _ A i Hnd (fun t o => @localToDeployedOps_id (mapOf B) t o)).
    rewrite plan_at, (@mapOf_get_lookup A i Hnd).
    destruct (lookup i A) as [a|] eqn:Ea.
    + apply lookup_Some in Ea. destruct Ea as [_ <-].
      unfold localToDeployedOps, Map_has.
      destruct (Map_get (mapOf B) (id a)) as [b|]; [|reflexivity].
      destruct (js_gt (getTime (updatedAt a)) (getTime (updatedAt b))); [reflexivity|].
      now destruct (js_gt (getTime (updatedAt b)) (getTime (updatedAt a))).
    + now destruct (Map_get (mapOf B) i).
  - unfold deployedToLocalPlan.
    rewrite (@filter_flat_map_records _ B i Hnd (fun t o => @deployedToLocalOps_id (mapOf A) t o)).
    rewrite plan_at, (@mapOf_get_lookup B i Hnd).
    destruct (lookup i B) as [b|] eqn:Eb.
    + apply lookup_Some in Eb. destruct Eb as [_ <-].
      unfold deployedToLocalOps, Map_has.
      destruct (Map_get (mapOf A) (id b)) as [a|]; [|reflexivity].
      destruct (js_gt (getTime (updatedAt a)) (getTime (updatedAt b))) eqn:G.
      * now rewrite (js_gt_asym _ _ G).
      * now destruct (js_gt (getTime (updatedAt b)) (getTime (updatedAt a))).
    + now destruct (Map_get (mapOf A) i).
Qed.

End OneWayPlanFacts.

(** ** The plans of explicit listings *)

Lemma plan_operations_called_for_witness :
  In (mkOp Deployed update (oat_milk jan2))
     (twoWayPlan isoTime [oat_milk jan2; bread "2" jan1] [milk jan1]) /\
  Map_get (mapOf [oat_milk jan2; bread "2" jan1]) "1" = Some (oat_milk jan2) /\
  exists old,
    Map_get (mapOf [milk jan1]) "1" = Some old /\
    js_gt (isoTime jan2) (isoTime (updatedAt old)) = true.
Proof.
  assert (H : In (mkOp Deployed update (oat_milk jan2))
                (twoWayPlan isoTime [oat_milk jan2; bread "2" jan1] [milk jan1]))
    by (vm_compute; left; reflexivity).
  exact (conj H (@plan_operations_called_for isoTime _ _ _ H)).
Defined.

Lemma one_way_is_part_of_two_way_witness :
  NoDup (map id [oat_milk jan2; bread "2" jan1]) /\
  filter (has_id "2") (localToDeployedPlan isoTime [oat_milk jan2; bread "2" jan1] [milk jan1])
  = filter (fun o => side_eqb (target o) Deployed)
      (filter (has_id "2")
         (twoWayPlan isoTime [oat_milk jan2; bread "2" jan1] [milk jan1])).
Proof.
  assert (H : NoDup (map id [oat_milk jan2; bread "2" jan1])).
  { repeat constructor; simpl; intuition discriminate. }
  exact (conj H (proj1 (@one_way_is_part_of_two_way isoTime
                          [oat_milk jan2; bread "2" jan1] [milk jan1] "2") H)).
Defined.

(** ** execute and its options *)

Section ExecuteOptions.

Variable W : Type.
Variable execSync : command -> W -> option output * W.

Lemma giveUp_exit c o n (w : W) code :
  result (giveUp c o n w) = Exit code ->
  code = 1%Z /\ ignoreError o = false /\ exitOnError o <> Some false.
Proof.
  unfold giveUp. destruct (ignoreError o); cbn; [discriminate|].
  destruct (exitOnError o) as [[]|]; cbn; intros H; inversion H;
    repeat split; congruence.
Qed.

Lemma executeWithRetry_exit c o left retries envSet w code :
  result (executeWithRetry execSync c o left retries envSet w) = Exit code ->
  code = 1%Z /\ ignoreError o = false /\ exitOnError o <> Some false.
Proof.
  revert retries envSet w.
  induction left as [|left IH]; intros retries envSet w;
    cbn [executeWithRetry]; unfold try_catch;
    destruct (attempt_run execSync c o envSet w) as (t & Ht & ->);
    destruct (execSync c w) as [[out|] w1]; cbn [fst snd]; try discriminate.
  - intros H. apply (@giveUp_exit c o retries w1).
    destruct (giveUp c o retries w1) as [[r w2] t2]. exact H.
  - destruct (noRetry o); cbn [negb].
    + intros H. apply (@giveUp_exit c o retries w1).
      destruct (giveUp c o retries w1) as [[r w2] t2]. exact H.
    + rewrite pause_run.
      destruct (execSync (Sleep (retryDelay_of o)) w1) as [[o1|] w2];
        [|discriminate].
      intros H. apply (IH (S retries) true w2).
      destruct (executeWithRetry execSync c o left (S retries) true w2)
        as [[r w3] t3]. exact H.
Qed.

(** X6. [execute] ends the process only with status 1, and only for a
    caller that passed neither [ignoreError] nor [exitOnError: false]. *)
Theorem execute_exit_discipline (c : command) (o : Options) (w : W) (code : Z) :
  result (execute execSync c o w) = Exit code ->
  code = 1%Z /\ ignoreError o = false /\ exitOnError o <> Some false.
Proof. unfold execute. apply executeWithRetry_exit. Qed.

Lemma maxRetries_of_pos o : exists n, maxRetries_of o = S n.
Proof.
  unfold maxRetries_of. destruct (maxRetries o) as [[|n]|]; eauto.
Qed.

(** X7. With [noRetry] the command is executed exactly once, whatever
    [maxRetries] says: nothing is retried, no pause is taken and no
    exception leaves [execute]. *)
Theorem noRetry_runs_once (c : command) (s i : bool) (e : option bool)
    (mr : option nat) (rd : option Z) (w : W) :
  let x := execute execSync c (mkOptions s i true e mr rd) w in
  commands (trace x) = [c] /\ result x <> Throw.
Proof.
  cbv zeta. unfold execute.
  destruct (maxRetries_of_pos (mkOptions s i true e mr rd)) as (n & ->).
  cbn [executeWithRetry noRetry negb]. unfold try_catch.
  destruct (attempt_run execSync c (mkOptions s i true e mr rd) false w)
    as (t & Ht & ->).
  destruct (execSync c w) as [[out|] w1]; cbn [fst snd].
  - cbn. split; [assumption|discriminate].
  - destruct (giveUp_commands c (mkOptions s i true e mr rd) 0 w1)
      as (Hc & Hthrow & _).
    destruct (giveUp c (mkOptions s i true e mr rd) 0 w1) as [[r w2] t2].
    cbn in *. rewrite commands_app, Ht, Hc. split; [reflexivity|assumption].
Qed.

(** [executeWithRetry] reads the retry options through [maxRetries_of] and
    [retryDelay_of] only. *)
Lemma executeWithRetry_options c o o' left retries envSet w :
  silent o = silent o' -> ignoreError o = ignoreError o' ->
  noRetry o = noRetry o' -> exitOnError o = exitOnError o' ->
  maxRetries_of o = maxRetries_of o' -> retryDelay_of o = retryDelay_of o' ->
  executeWithRetry execSync c o left retries envSet w
  = executeWithRetry execSync c o' left retries envSet w.
Proof.
  intros Hs Hi Hn He Hm Hd.
  assert (Ha : forall b, attempt execSync c o b = attempt execSync c o' b)
    by (intros b; unfold attempt; now rewrite Hs).
  assert (Hg : forall r, giveUp (W:=W) c o r = giveUp c o' r)
    by (intros r; unfold giveUp; now rewrite Hi, He).
  revert retries envSet w.
  induction left as [|left IH]; intros retries envSet w;
    cbn [executeWithRetry]; rewrite Ha, Hg; [reflexivity|].
  rewrite Hn, Hm, Hd. unfold try_catch.
  destruct (attempt execSync c o' envSet w) as [[[a| |code] w1] t];
    try reflexivity.
  destruct (noRetry o'); cbn [negb]; [reflexivity|].
  rewrite !pause_run.
  destruct (execSync (Sleep (retryDelay_of o')) w1) as [[o1|] w2];
    [|reflexivity].
  now rewrite IH.
Qed.

(** X8. The options are read with [||], so a [maxRetries] or a
    [retryDelay] of 0 is replaced by the default: the run is the run
    without the option (three retries, one second apart), and retrying
    cannot be switched off through [maxRetries: 0]. *)
Theorem zero_options_are_defaults (c : command) (s i n : bool) (e : option bool)
    (mr : option nat) (rd : option Z) (w : W) :
  execute execSync c (mkOptions s i n e (Some 0%nat) rd) w
  = execute execSync c (mkOptions s i n e None rd) w /\
  execute execSync c (mkOptions s i n e mr (Some 0%Z)) w
  = execute execSync c (mkOptions s i n e mr None) w.
Proof.
  split; unfold execute.
  - change (maxRetries_of (mkOptions s i n e (Some 0%nat) rd)) with 3%nat.
    change (maxRetries_of (mkOptions s i n e None rd)) with 3%nat.
    now apply executeWithRetry_options.
  - change (maxRetries_of (mkOptions s i n e mr (Some 0%Z)))
      with (maxRetries_of (mkOptions s i n e mr None)).
    now apply executeWithRetry_options.
Qed.

End ExecuteOptions.

Lemma execute_exit_discipline_witness :
  result (execute script_execSync (Curl Deployed theEndpoint theKey ListTodos)
            (opts true false)
            [None; succeeds; None; succeeds; None; succeeds; None]) = Exit 1%Z /\
  1%Z = 1%Z /\ ignoreError (opts true false) = false /\
  exitOnError (opts true false) <> Some false.
Proof.
  assert (H : result (execute script_execSync
                        (Curl Deployed theEndpoint theKey ListTodos)
                        (opts true false)
            [None; succeeds; None; succeeds; None; succeeds; None]) = Exit 1%Z) by reflexivity.
  exact (conj H (@execute_exit_discipline Script script_execSync _ _ _ _ H)).
Defined.

(** ** How the synchronisation functions end *)

Section Endings.

Variable W : Type.
Variable execSync : command -> W -> option output * W.
Variable readOutputs : W -> outputs_file.
Variable getTime : string -> option Z.

Notation "x <- m ;; k" := (bind m (fun x => k))
  (at level 61, m at next level, right associativity).
Notation "m ;; k" := (bind m (fun _ => k))
  (at level 61, right associativity).

Local Abbreviation Comp A := (W -> outcome A * W * list event).

Lemma no_throw_listLocalTodos : no_throw (listLocalTodos execSync readOutputs).
Proof. apply safe_listLocalTodos; auto. Qed.

Lemma no_throw_listDeployedTodos : no_throw (listDeployedTodos execSync readOutputs).
Proof. apply safe_listDeployedTodos; auto. Qed.

Lemma no_throw_plan (plan : list operation) :
  no_throw (for_of plan (perform execSync readOutputs)).
Proof. apply safe_for_of; auto. intros o. apply safe_perform; auto. Qed.

(** The common frame of the three functions: a run returns or leaves the
    process with status 1. *)
Lemma sync_frame (m : mode) (body : list Todo -> list Todo -> Comp unit)
    (h : Comp unit) (w : W) :
  (forall l d, no_throw (body l d)) ->
  let x :=
    try_catch
      (log (MSyncStart m) info ;;
       localTodos <- listLocalTodos execSync readOutputs ;;
       deployedTodos <- listDeployedTodos execSync readOutputs ;;
       log (MFound Local (length localTodos)) info ;;
       log (MFound Deployed (length deployedTodos)) info ;;
       body localTodos deployedTodos ;;
       log (MSyncDone m) success) h w in
  result x = Exit 1%Z \/ result x = Ret tt.
Proof.
  intros Hb. cbv zeta. unfold try_catch, bind, log.
  destruct (no_throw_listLocalTodos w) as (_ & _ & HL).
  destruct (listLocalTodos execSync readOutputs w) as [[[l| |c] w1] t1];
    cbn in HL |- *; [|discriminate|left; now subst].
  destruct (no_throw_listDeployedTodos w1) as (_ & _ & HD).
  destruct (listDeployedTodos execSync readOutputs w1) as [[[d| |c] w2] t2];
    cbn in HD |- *; [|discriminate|left; now subst].
  destruct (Hb l d w2) as (_ & _ & HB).
  destruct (body l d w2) as [[[[]| |c] w3] t3];
    cbn in HB |- *; [|discriminate|left; now subst].
  now right.
Qed.

Lemma syncLocalToDeployed_ends w :
  let x := syncLocalToDeployed execSync readOutputs getTime w in
  result x = Exit 1%Z \/ result x = Ret tt.
Proof.
  cbv zeta. rewrite syncLocalToDeployed_performs_plan.
  apply (@sync_frame LocalToDeployed
           (fun l d => for_of (localToDeployedPlan getTime l d)
                         (perform execSync readOutputs))).
  intros l d. apply no_throw_plan.
Qed.

Lemma syncDeployedToLocal_ends w :
  let x := syncDeployedToLocal execSync readOutputs getTime w in
  result x = Exit 1%Z \/ result x = Ret tt.
Proof.
  cbv zeta. rewrite syncDeployedToLocal_performs_plan.
  apply (@sync_frame DeployedToLocal
           (fun l d => for_of (deployedToLocalPlan getTime l d)
                         (perform execSync readOutputs))).
  intros l d. apply no_throw_plan.
Qed.

Lemma syncTwoWay_ends w :
  let x := syncTwoWay execSync readOutputs getTime w in
  result x = Exit 1%Z \/ result x = Ret tt.
Proof.
  cbv zeta. rewrite syncTwoWay_performs_plan.
  apply (@sync_frame TwoWay
           (fun l d => for_of (twoWayPlan getTime l d)
                         (perform execSync readOutputs))).
  intros l d. apply no_throw_plan.
Qed.

End Endings.

(** ** The accessors and their surroundings *)

Section AccessorRuns.

Variable W : Type.
Variable execSync : command -> W -> option output * W.
Variable readOutputs : W -> outputs_file.

Notation "x <- m ;; k" := (bind m (fun x => k))
  (at level 61, m at next level, right associativity).
Notation "m ;; k" := (bind m (fun _ => k))
  (at level 61, right associativity).

Local Abbreviation Comp A := (W -> outcome A * W * list event).

Lemma executeGraphQL_unconfigured r w :
  configured (readOutputs w) = false ->
  exists t, executeGraphQL execSync readOutputs r w = (Ret None, w, t) /\
            commands t = [].
Proof.
  unfold configured, executeGraphQL, getGraphQLEndpoint, try_catch, bind,
    outputsFile, log, ret, throw.
  destruct (readOutputs w) as [| |[[[u|] [k|]]|]]; cbn;
    try (intros _; eexists; split; reflexivity).
  - destruct (truthy u); cbn.
    + destruct (truthy k); cbn; [discriminate|].
      intros _; eexists; split; reflexivity.
    + intros _; eexists; split; reflexivity.
  - destruct (truthy u); cbn; intros _; eexists; split; reflexivity.
Qed.

(** X10. Without a usable endpoint and API key in [amplify_outputs.json]
    (file missing or unreadable, no data section, url or key missing or
    empty) the deployed accessors run no command and leave the world as it
    is: the listing answers the empty list, create and update answer
    null, as they do for a replica that holds nothing or refuses the
    write. *)
Theorem deployed_needs_configuration (w : W) (todo : Todo) :
  configured (readOutputs w) = false ->
  let quiet A (x : outcome A * W * list event) (a : A) :=
    result x = Ret a /\ final x = w /\ commands (trace x) = [] in
  (forall r, quiet _ (executeGraphQL execSync readOutputs r w) None) /\
  quiet _ (listDeployedTodos execSync readOutputs w) [] /\
  quiet _ (createDeployedTodo execSync readOutputs todo w) None /\
  quiet _ (updateDeployedTodo execSync readOutputs todo w) None.
Proof.
  intros H. cbv zeta.
  split; [|split; [|split]].
  - intros r. destruct (executeGraphQL_unconfigured r w H) as (t & -> & Ht).
    now repeat split.
  - unfold listDeployedTodos, try_catch, bind.
    destruct (executeGraphQL_unconfigured ListTodos w H) as (t & -> & Ht).
    cbn. rewrite app_nil_r. now repeat split.
  - unfold createDeployedTodo, try_catch, bind.
    destruct (executeGraphQL_unconfigured (CreateTodo (createInput todo)) w H)
      as (t & -> & Ht).
    cbn. rewrite commands_app, Ht. now repeat split.
  - unfold updateDeployedTodo, try_catch, bind.
    destruct (executeGraphQL_unconfigured (UpdateTodo (updateInput todo)) w H)
      as (t & -> & Ht).
    cbn. rewrite commands_app, Ht. now repeat split.
Qed.

(** A command that succeeds at once is run once. *)
Lemma execute_at_once c o w out :
  fst (execSync c w) = Some out ->
  exists t, commands t = [c] /\
    execute execSync c o w
    = (Ret (if silent o then Some out else None), snd (execSync c w), t).
Proof.
  intros E. unfold execute.
  destruct (maxRetries_of_pos o) as (n & ->).
  cbn [executeWithRetry]. unfold try_catch.
  destruct (attempt_run execSync c o false w) as (t & Ht & ->).
  rewrite E. now exists t.
Qed.

Lemma ensureSandboxRunning_at_once w out :
  fst (execSync PsSandbox w) = Some out ->
  exists t, commands t = [PsSandbox] /\
    ensureSandboxRunning execSync w = (Ret true, snd (execSync PsSandbox w), t).
Proof.
  intros E. unfold ensureSandboxRunning, try_catch, bind.
  destruct (execute_at_once PsSandbox (opts true true) w E) as (t & Ht & ->).
  cbn. exists (t ++ []). now rewrite app_nil_r.
Qed.

Lemma stays_ret thr A (a : A) : stays thr (ret (W:=W) a).
Proof. intros w. exact I. Qed.

Lemma stays_log thr m l : stays thr (log (W:=W) m l).
Proof. intros w. exact I. Qed.

Lemma stays_throw A : stays true (throw (W:=W) (A:=A)).
Proof. intros w. reflexivity. Qed.

Lemma stays_bind thr A B (m : Comp A) (f : A -> Comp B) :
  stays thr m -> (forall a, stays thr (f a)) -> stays thr (bind m f).
Proof.
  intros Hm Hf w. specialize (Hm w). unfold bind.
  destruct (m w) as [[[a| |c] w1] t1]; cbn in *; auto.
  specialize (Hf a w1). now destruct (f a w1) as [[r w2] t2].
Qed.

Lemma stays_try_catch thr A (m h : Comp A) :
  stays true m -> stays thr h -> stays thr (try_catch m h).
Proof.
  intros Hm Hh w. specialize (Hm w). unfold try_catch.
  destruct (m w) as [[[a| |c] w1] t1]; cbn in *; auto.
  specialize (Hh w1). now destruct (h w1) as [[r w2] t2].
Qed.

Lemma stays_execute c o : ignoreError o = true -> stays true (execute execSync c o).
Proof.
  intros Hi w.
  destruct (result (execute execSync c o w)) as [a| |code] eqn:E; auto.
  apply executeWithRetry_exit in E. destruct E as (_ & E & _). congruence.
Qed.

Lemma stays_parse r : stays true (parse (W:=W) r).
Proof. intros w. now destruct r as [[j|]|]. Qed.

Lemma stays_localEndpoint : stays true (localEndpoint readOutputs).
Proof.
  intros w. unfold localEndpoint, bind, outputsFile.
  now destruct (readOutputs w) as [| |[d|]].
Qed.

Ltac stays_step :=
  match goal with
  | |- stays _ (ret _) => apply stays_ret
  | |- stays _ (log _ _) => apply stays_log
  | |- stays _ (@throw _ _) => apply stays_throw
  | |- stays _ (parse _) => apply stays_parse
  | |- stays _ (localEndpoint _) => apply stays_localEndpoint
  | |- stays _ (execute _ _ _) => apply stays_execute; reflexivity
  | |- stays _ (bind _ _) => apply stays_bind; [|intros ?]
  | |- stays _ (try_catch _ _) => apply stays_try_catch
  | |- stays _ (match ?x with _ => _ end) => destruct x
  end.

(** A local accessor, once the sandbox is known to run. *)
Lemma local_accessor_returns A (k : bool -> Comp A) (h : Comp A) w out :
  fst (execSync PsSandbox w) = Some out ->
  stays false (try_catch (k true) h) ->
  exists a,
    result (try_catch (running <- ensureSandboxRunning execSync ;; k running) h w)
    = Ret a.
Proof.
  intros E Hk.
  destruct (ensureSandboxRunning_at_once w E) as (t & _ & Hrun).
  erewrite try_catch_bind_ret by exact Hrun.
  specialize (Hk (snd (execSync PsSandbox w))).
  destruct (try_catch (k true) h (snd (execSync PsSandbox w)))
    as [[[a| |c] w2] t2]; cbn in *; [eauto|discriminate|contradiction].
Qed.

(** X12. When the first [ps] check finds the sandbox, the local accessors
    return to their caller whatever happens to their request: a curl that
    fails after its retries, or an answer that is not JSON, ends neither
    the process nor the loop that called the accessor. *)
Theorem local_accessors_return (w : W) (out : output) (todo : Todo) :
  fst (execSync PsSandbox w) = Some out ->
  (exists l, result (listLocalTodos execSync readOutputs w) = Ret l) /\
  (exists r, result (createLocalTodo execSync readOutputs todo w) = Ret r) /\
  (exists r, result (updateLocalTodo execSync readOutputs todo w) = Ret r).
Proof.
  intros E. repeat split.
  - unfold listLocalTodos.
    apply (@local_accessor_returns _ _ _ w out E). cbn [negb]. repeat stays_step.
  - unfold createLocalTodo.
    apply (@local_accessor_returns _ _ _ w out E). cbn [negb]. repeat stays_step.
  - unfold updateLocalTodo.
    apply (@local_accessor_returns _ _ _ w out E). cbn [negb]. repeat stays_step.
Qed.

End AccessorRuns.

Lemma deployed_needs_configuration_witness :
  let outputs (_ : Script) := FileParsed (Some (mkData (Some theEndpoint) None)) in
  let x := listDeployedTodos script_execSync outputs [succeeds] in
  configured (outputs [succeeds]) = false /\
  result x = Ret [] /\ final x = [succeeds] /\ commands (trace x) = [].
Proof.
  exact (conj eq_refl
           (proj1 (proj2
              (@deployed_needs_configuration Script script_execSync
                 (fun _ => FileParsed (Some (mkData (Some theEndpoint) None)))
                 [succeeds] (milk jan1) eq_refl)))).
Defined.

Lemma local_accessors_return_witness :
  let script : Script :=
    [succeeds; None; succeeds; None; succeeds; None; succeeds; None] in
  fst (script_execSync PsSandbox script) = Some NotJson /\
  (exists l, result (listLocalTodos script_execSync script_outputs script) = Ret l) /\
  (exists r, result (createLocalTodo script_execSync script_outputs (milk jan1) script)
             = Ret r) /\
  (exists r, result (updateLocalTodo script_execSync script_outputs (milk jan1) script)
             = Ret r).
Proof.
  exact (conj eq_refl
           (@local_accessors_return Script script_execSync script_outputs
              [succeeds; None; succeeds; None; succeeds; None; succeeds; None]
              NotJson (milk jan1) eq_refl)).
Defined.

(** ** Runs without a data section in amplify_outputs.json *)

Section Unconfigured.

Variable W : Type.
Variable execSync : command -> W -> option output * W.
Variable readOutputs : W -> outputs_file.
Variable getTime : string -> option Z.

Hypothesis no_data : forall w d, readOutputs w <> FileParsed (Some d).

Notation "x <- m ;; k" := (bind m (fun x => k))
  (at level 61, m at next level, right associativity).
Notation "m ;; k" := (bind m (fun _ => k))
  (at level 61, right associativity).

Local Abbreviation Comp A := (W -> outcome A * W * list event).

Lemma no_data_unconfigured w : configured (readOutputs w) = false.
Proof.
  pose proof (@no_data w) as Hn. unfold configured.
  destruct (readOutputs w) as [| |[d|]]; try reflexivity.
  now destruct (Hn d).
Qed.

Lemma localEndpoint_throws w : localEndpoint readOutputs w = (Throw, w, []).
Proof.
  pose proof (@no_data w) as Hn. unfold localEndpoint, bind, outputsFile.
  destruct (readOutputs w) as [| |[d|]]; try reflexivity.
  now destruct (Hn d).
Qed.

Lemma commands_nil_ok Pc t : commands t = [] -> Forall (event_ok Pc) t.
Proof.
  induction t as [|[l m|c] r IH]; simpl; intros H;
    [constructor | constructor; [exact I|auto] | discriminate].
Qed.

Lemma no_curl_filter t :
  Forall (event_ok (fun c => is_curl c = false)) t ->
  filter is_curl (commands t) = [].
Proof.
  induction 1 as [|[l m|c] r Hc Hr IH]; simpl in *; auto. now rewrite Hc.
Qed.

(** One step of a proof that a script runs no curl. *)
Ltac no_curl_step :=
  match goal with
  | |- forall _, _ => intros ?
  | |- no_curl _ _ => unfold no_curl
  | |- safe _ _ _ (ret _) => apply safe_ret; auto
  | |- safe _ _ _ (log _ _) => apply safe_log; auto
  | |- safe _ _ _ (@throw _ _) => apply safe_throw; auto
  | |- safe _ _ _ (@process_exit _ _ _) => apply safe_exit; auto
  | |- safe _ _ _ (exec _ _) => apply safe_exec; auto
  | |- safe _ _ _ (giveUp _ _ _) => apply safe_giveUp; auto
  | |- safe _ _ _ (attempt _ _ _ _) => apply safe_attempt; auto
  | |- safe _ _ _ (bind _ _) => apply safe_bind; auto
  | |- safe _ _ _ (try_catch _ _) => apply safe_try_catch; auto
  | |- safe _ _ _ (for_of _ _) => apply safe_for_of; auto
  | |- safe _ _ _ (match ?x with _ => _ end) => destruct x
  end.

Lemma no_curl_execute c o : is_curl c = false -> no_curl true (execute execSync c o).
Proof.
  intros Hc. unfold execute. generalize (maxRetries_of o), 0%nat, false.
  intros left. induction left as [|left IH]; intros retries envSet;
    cbn [executeWithRetry]; repeat no_curl_step. apply IH.
Qed.

Lemma no_curl_ensureSandboxRunning thr : no_curl thr (ensureSandboxRunning execSync).
Proof.
  unfold ensureSandboxRunning.
  repeat first [ apply no_curl_execute; reflexivity | no_curl_step ].
Qed.

Lemma no_curl_executeGraphQL thr r :
  no_curl thr (executeGraphQL execSync readOutputs r).
Proof.
  intros w.
  destruct (@executeGraphQL_unconfigured _ execSync readOutputs r w (no_data_unconfigured w))
    as (t & -> & Ht).
  cbn. auto using commands_nil_ok.
Qed.

Lemma no_curl_local thr A (k : string * string -> Comp A) (failed h : Comp A) :
  no_curl true failed -> no_curl thr h ->
  no_curl thr
    (try_catch
       (running <- ensureSandboxRunning execSync ;;
        if negb running then failed else bind (localEndpoint readOutputs) k)
       h).
Proof.
  intros Hf Hh. unfold no_curl. apply safe_try_catch; auto.
  apply safe_bind; auto; [apply no_curl_ensureSandboxRunning|].
  intros [|]; cbn [negb]; [|exact Hf].
  intros w. unfold bind. rewrite localEndpoint_throws. cbn. auto.
Qed.

Lemma no_curl_perform thr o : no_curl thr (perform execSync readOutputs o).
Proof.
  destruct o as [[] [] todo]; unfold perform; cbn [target opkind record];
    unfold createLocalTodo, updateLocalTodo, createDeployedTodo, updateDeployedTodo;
    repeat first
      [ apply no_curl_executeGraphQL
      | apply no_curl_local
      | no_curl_step ].
Qed.

Lemma no_curl_lists thr :
  no_curl thr (listLocalTodos execSync readOutputs) /\
  no_curl thr (listDeployedTodos execSync readOutputs).
Proof.
  split; unfold listLocalTodos, listDeployedTodos;
    repeat first
      [ apply no_curl_executeGraphQL
      | apply no_curl_local
      | no_curl_step ].
Qed.

Lemma no_curl_frame thr (m : mode) (plan : list Todo -> list Todo -> list operation)
    (h : Comp unit) :
  no_curl thr h ->
  no_curl thr
    (try_catch
      (log (MSyncStart m) info ;;
       localTodos <- listLocalTodos execSync readOutputs ;;
       deployedTodos <- listDeployedTodos execSync readOutputs ;;
       log (MFound Local (length localTodos)) info ;;
       log (MFound Deployed (length deployedTodos)) info ;;
       for_of (plan localTodos deployedTodos) (perform execSync readOutputs) ;;
       log (MSyncDone m) success) h).
Proof.
  intros Hh.
  repeat first
    [ apply no_curl_perform
    | apply no_curl_lists
    | exact Hh
    | no_curl_step ].
Qed.

(** X11. As long as [amplify_outputs.json] is missing, unreadable or
    without a data section, none of the three synchronisation functions
    sends a request to either replica: no curl command is run. *)
Theorem no_data_section_no_request (w : W) :
  filter is_curl
    (commands (trace (syncLocalToDeployed execSync readOutputs getTime w))) = [] /\
  filter is_curl
    (commands (trace (syncDeployedToLocal execSync readOutputs getTime w))) = [] /\
  filter is_curl
    (commands (trace (syncTwoWay execSync readOutputs getTime w))) = [].
Proof.
  rewrite syncLocalToDeployed_performs_plan, syncDeployedToLocal_performs_plan,
    syncTwoWay_performs_plan.
  repeat split; apply no_curl_filter;
    apply trace_of_safe with (thr := false); apply no_curl_frame;
    unfold no_curl; apply safe_log; auto.
Qed.

End Unconfigured.

Lemma no_data_section_no_request_witness :
  (forall (w : Script) d, (fun _ : Script => FileMissing) w <> FileParsed (Some d)) /\
  filter is_curl
    (commands (trace (syncTwoWay script_execSync (fun _ => FileMissing) isoTime
                        [succeeds]))) = [].
Proof.
  assert (H : forall (w : Script) d,
             (fun _ : Script => FileMissing) w <> FileParsed (Some d))
    by (intros w d; discriminate).
  exact (conj H (proj2 (proj2
           (@no_data_section_no_request Script script_execSync
              (fun _ => FileMissing) isoTime H [succeeds])))).
Defined.

(** ** main *)

Section MainFacts.

Variable W : Type.
Variable execSync : command -> W -> option output * W.
Variable readOutputs : W -> outputs_file.
Variable getTime : string -> option Z.
Variable readLine : W -> option string * W.

Lemma sync_events_app t1 t2 :
  sync_events (t1 ++ t2) = sync_events t1 ++ sync_events t2.
Proof.
  induction t1 as [|[e|l m| |] r IH]; simpl; auto. now rewrite IH.
Qed.

Lemma sync_events_map t : sync_events (map Sync t) = t.
Proof. induction t as [|e r IH]; simpl; [reflexivity|now rewrite IH]. Qed.

(** A run of [main], by what it reads and the function it chooses. *)
Lemma main_run argv2 w :
  let w0 := if asks argv2 then snd (readLine w) else w in
  let pre := [MainLog info MBanner; MainLog info MRule]
             ++ (if asks argv2 then [Question] else []) in
  main execSync readOutputs getTime readLine argv2 w =
  match (if asks argv2 then fst (readLine w) else Some "") with
  | Some answer =>
      match chosen argv2 answer with
      | Some m =>
          let x := sync_of execSync readOutputs getTime m w0 in
          match result x with
          | Ret _ => (Ret tt, final x, pre ++ map Sync (trace x) ++ [Close])
          | Throw =>
              (Ret tt, final x,
               pre ++ map Sync (trace x) ++ [MainLog error MMainError; Close])
          | Exit c => (Exit c, final x, pre ++ map Sync (trace x))
          end
      | None =>
          (Ret tt, w0,
           pre ++ [MainLog error
                     (if asks argv2 then MInvalidChoice answer
                      else MInvalidDirection
                             (match argv2 with Some d => d | None => "" end));
                   Close])
      end
  | None => (Exit 0%Z, w0, pre)
  end.
Proof.
  cbv zeta. unfold main, asks, chosen, try_catch_finally, main_bind, main_log,
    askQuestion, rl_close, call.
  set (d := match argv2 with Some d => d | None => "" end).
  destruct (truthy d); cbn [negb].
  - destruct (d =? "local-to-deployed");
      [|destruct (d =? "deployed-to-local"); [|destruct (d =? "two-way")]];
      cbn [sync_of];
      try (match goal with
           | |- context [?f execSync readOutputs getTime w] =>
               destruct (f execSync readOutputs getTime w) as [[[[]| |c] w1] t1]
           end; cbn; rewrite ?app_nil_r; reflexivity).
    reflexivity.
  - destruct (readLine w) as [[answer|] w0]; cbn [fst snd]; [|reflexivity].
    destruct (answer =? "1");
      [|destruct (answer =? "2"); [|destruct (answer =? "3")]];
      cbn [sync_of];
      try (match goal with
           | |- context [?f execSync readOutputs getTime w0] =>
               destruct (f execSync readOutputs getTime w0) as [[[[]| |c] w1] t1]
           end; cbn; rewrite ?app_nil_r; reflexivity).
    reflexivity.
Qed.

Lemma sync_of_ends m w :
  let x := sync_of execSync readOutputs getTime m w in
  result x = Exit 1%Z \/ result x = Ret tt.
Proof.
  destruct m; cbn [sync_of].
  - apply syncLocalToDeployed_ends.
  - apply syncDeployedToLocal_ends.
  - apply syncTwoWay_ends.
Qed.

Lemma one_way_sends w :
  filter (writes_to Local)
    (commands (trace (syncLocalToDeployed execSync readOutputs getTime w))) = [] /\
  filter (writes_to Deployed)
    (commands (trace (syncDeployedToLocal execSync readOutputs getTime w))) = [].
Proof.
  assert (Hf : forall s t, Forall (event_ok (fun c => writes_to s c = false)) t ->
                           filter (writes_to s) (commands t) = []).
  { intros s t. induction 1 as [|[l m|c] r Hc Hr IH]; simpl in *; auto.
    now rewrite Hc. }
  assert (Hr : forall s c, is_write c = false -> writes_to s c = false).
  { intros s c Hc. unfold is_write in Hc. apply orb_false_iff in Hc.
    now destruct s. }
  split; apply Hf; apply trace_of_safe with (thr := false).
  - apply safe_syncLocalToDeployed; auto. intros e k []; reflexivity.
  - apply safe_syncDeployedToLocal; auto. intros e k []; reflexivity.
Qed.

(** X13. [main] keeps to the direction it is given, as an argument or as
    the typed answer: started for local-to-deployed it sends no createTodo
    or updateTodo to the local replica, started for deployed-to-local none
    to the deployed replica, and for any other input that is not the
    two-way direction it runs no command at all and returns.  When it
    asks and the input ends before a line is typed, it runs no command
    and the process ends with status 0. *)
Theorem main_respects_direction (argv2 : option string) (w : W) :
  let x := main execSync readOutputs getTime readLine argv2 w in
  let sent := commands (sync_events (main_trace x)) in
  match (if asks argv2 then fst (readLine w) else Some "") with
  | Some answer =>
      match chosen argv2 answer with
      | Some LocalToDeployed => filter (writes_to Local) sent = []
      | Some DeployedToLocal => filter (writes_to Deployed) sent = []
      | Some TwoWay => True
      | None => sent = [] /\ main_result x = Ret tt
      end
  | None => sent = [] /\ main_result x = Exit 0%Z
  end.
Proof.
  cbv zeta. rewrite main_run.
  set (w0 := if asks argv2 then snd (readLine w) else w).
  assert (Hpre : sync_events
                   ([MainLog info MBanner; MainLog info MRule]
                    ++ (if asks argv2 then [Question] else [])) = [])
    by now destruct (asks argv2).
  destruct (if asks argv2 then fst (readLine w) else Some "") as [answer|].
  2:{ cbn [main_result main_trace fst snd]. now rewrite Hpre. }
  destruct (chosen argv2 answer) as [[| |]|]; cbv zeta; cbn [sync_of].
  - destruct (one_way_sends w0) as [H _].
    destruct (syncLocalToDeployed execSync readOutputs getTime w0)
      as [[[[]| |c] w1] t1]; cbn [main_result main_trace result final trace fst snd] in *;
      rewrite sync_events_app, Hpre, ?sync_events_app, sync_events_map; cbn;
      now rewrite ?app_nil_r.
  - destruct (one_way_sends w0) as [_ H].
    destruct (syncDeployedToLocal execSync readOutputs getTime w0)
      as [[[[]| |c] w1] t1]; cbn [main_result main_trace result final trace fst snd] in *;
      rewrite sync_events_app, Hpre, ?sync_events_app, sync_events_map; cbn;
      now rewrite ?app_nil_r.
  - exact I.
  - cbn [main_result main_trace result final trace fst snd]. rewrite sync_events_app, Hpre.
    now split.
Qed.

(** X14. [main] never reports an error of its own: the line "Error: ..."
    is never printed.  A run of [main] ends in one of three ways: it
    leaves the process with status 1, from inside [execute], without
    closing the readline interface; or it returns, with [rl.close()] as
    its last step; or, when it has asked for the direction and the input
    ends before a line is typed, the process ends with status 0 with no
    command run and the interface not closed by [main]. *)
Theorem main_ends (argv2 : option string) (w : W) :
  let x := main execSync readOutputs getTime readLine argv2 w in
  ((main_result x = Exit 1%Z /\ ~ In Close (main_trace x)) \/
   (main_result x = Ret tt /\
    exists t, main_trace x = t ++ [Close] /\ ~ In Close t) \/
   (main_result x = Exit 0%Z /\ ~ In Close (main_trace x) /\
    asks argv2 = true /\ fst (readLine w) = None /\
    sync_events (main_trace x) = [])) /\
  ~ In (MainLog error MMainError) (main_trace x).
Proof.
  cbv zeta. rewrite main_run.
  set (w0 := if asks argv2 then snd (readLine w) else w).
  set (pre := [MainLog info MBanner; MainLog info MRule]
              ++ (if asks argv2 then [Question] else [])).
  assert (Hpre : forall e, In e pre -> e <> Close /\ e <> MainLog error MMainError).
  { intros e. unfold pre. destruct (asks argv2); cbn;
      intuition (subst; discriminate). }
  assert (Hsync : forall t e, In e (map Sync t) ->
                              e <> Close /\ e <> MainLog error MMainError).
  { intros t e He. apply in_map_iff in He. destruct He as (e0 & <- & _).
    split; discriminate. }
  destruct (asks argv2) eqn:Easks.
  2:{ destruct (chosen argv2 "") as [m|]; cbv zeta.
      - destruct (sync_of_ends m w0) as [He|Hr];
          destruct (sync_of execSync readOutputs getTime m w0) as [[r w1] t1];
          cbn [result final trace fst snd] in *; subst r;
          cbn [main_result main_trace result final trace fst snd].
        + split.
          * left. split; [reflexivity|]. intros H. apply in_app_or in H.
            destruct H as [H|H]; [apply Hpre in H|apply Hsync in H]; now destruct H.
          * intros H. apply in_app_or in H.
            destruct H as [H|H]; [apply Hpre in H|apply Hsync in H]; now destruct H.
        + split.
          * right. left. split; [reflexivity|]. exists (pre ++ map Sync t1).
            split; [now rewrite app_assoc|]. intros H. apply in_app_or in H.
            destruct H as [H|H]; [apply Hpre in H|apply Hsync in H]; now destruct H.
          * intros H. apply in_app_or in H. destruct H as [H|H];
              [apply Hpre in H; now destruct H|].
            apply in_app_or in H. destruct H as [H|[H|[]]];
              [apply Hsync in H; now destruct H|discriminate].
      - cbn [main_result main_trace result final trace fst snd]. split.
        + right. left. split; [reflexivity|].
          eexists (pre ++ [_]). split; [now rewrite <- app_assoc|].
          intros H. apply in_app_or in H. destruct H as [H|[H|[]]];
            [apply Hpre in H; now destruct H|discriminate].
        + intros H. apply in_app_or in H. destruct H as [H|[H|[H|[]]]];
            [apply Hpre in H; now destruct H|discriminate|discriminate]. }
  destruct (fst (readLine w)) as [answer|] eqn:Eline.
  2:{ cbn [main_result main_trace result final trace fst snd]. split.
      - right. right. split; [reflexivity|].
        split; [intros H; apply Hpre in H; now destruct H|].
        now repeat split.
      - intros H. apply Hpre in H. now destruct H. }
  destruct (chosen argv2 answer) as [m|]; cbv zeta.
  - destruct (sync_of_ends m w0) as [He|Hr];
      destruct (sync_of execSync readOutputs getTime m w0) as [[r w1] t1];
      cbn [result final trace fst snd] in *; subst r;
      cbn [main_result main_trace result final trace fst snd].
    + split.
      * left. split; [reflexivity|]. intros H. apply in_app_or in H.
        destruct H as [H|H]; [apply Hpre in H|apply Hsync in H]; now destruct H.
      * intros H. apply in_app_or in H.
        destruct H as [H|H]; [apply Hpre in H|apply Hsync in H]; now destruct H.
    + split.
      * right. left. split; [reflexivity|]. exists (pre ++ map Sync t1).
        split; [now rewrite app_assoc|]. intros H. apply in_app_or in H.
        destruct H as [H|H]; [apply Hpre in H|apply Hsync in H]; now destruct H.
      * intros H. apply in_app_or in H. destruct H as [H|H];
          [apply Hpre in H; now destruct H|].
        apply in_app_or in H. destruct H as [H|[H|[]]];
          [apply Hsync in H; now destruct H|discriminate].
  - cbn [main_result main_trace result final trace fst snd]. split.
    + right. left. split; [reflexivity|].
      eexists (pre ++ [_]). split; [now rewrite <- app_assoc|].
      intros H. apply in_app_or in H. destruct H as [H|[H|[]]];
        [apply Hpre in H; now destruct H|discriminate].
    + intros H. apply in_app_or in H. destruct H as [H|[H|[H|[]]]];
        [apply Hpre in H; now destruct H|discriminate|discriminate].
Qed.

End MainFacts.

(** ** getAmplifyAppId *)

Lemma capture_truthy p stop s c : capture p stop s = Some c -> truthy c = true.
Proof.
  induction s as [|a r IH]; cbn [capture]; intros H;
    match type of H with
    | context [truthy ?x] => destruct (truthy x) eqn:E
    end.
  - now injection H as <-.
  - discriminate.
  - now injection H as <-.
  - now apply IH.
Qed.

Lemma truthy_nonempty s : truthy s = true <-> s <> "".
Proof.
  unfold truthy. destruct (String.eqb_spec s ""); cbn; split; congruence.
Qed.

(** X15. [getAmplifyAppId] never answers the empty string: an id it
    returns, from the environment or captured from one of the two files,
    has at least one character, and nothing is logged with it. *)
Theorem app_id_is_not_empty (env : option string) (envLocal : env_file)
    (outputs : outputs_file) (i : string) (l : option level) :
  getAmplifyAppId env envLocal outputs = (Some i, l) -> i <> "" /\ l = None.
Proof.
  assert (Ho : appIdOfOutputs outputs = (Some i, l) -> i <> "" /\ l = None).
  { unfold appIdOfOutputs. destruct outputs as [| |[[[u|] k]|]]; try discriminate.
    destruct (truthy u); [|discriminate].
    destruct (capture _ _ u) as [c|] eqn:E; [|discriminate].
    intros [= <- <-]. split; [|reflexivity].
    apply truthy_nonempty. exact (capture_truthy _ _ _ E). }
  unfold getAmplifyAppId. destruct (truthy _) eqn:Et.
  - destruct env as [e|]; [|discriminate]. intros [= <- <-].
    split; [|reflexivity]. now apply truthy_nonempty.
  - destruct envLocal as [| |content]; [exact Ho|discriminate|].
    destruct (capture _ _ content) as [c|] eqn:E; [|exact Ho].
    intros [= <- <-]. split; [|reflexivity].
    apply truthy_nonempty. exact (capture_truthy _ _ _ E).
Qed.

Lemma upTo_app stop host rest :
  ~ In stop (list_ascii_of_string host) ->
  upTo stop (host ++ String stop rest)%string = host.
Proof.
  induction host as [|a r IH]; cbn; intros H.
  - now rewrite Ascii.eqb_refl.
  - destruct (Ascii.eqb_spec a stop) as [->|_]; [tauto|].
    rewrite IH; [reflexivity|tauto].
Qed.

(** X16. Without the environment variable and without an id in
    [.env.local], the id is read off the endpoint: for the url
    [https://<label>.<rest>] of [amplify_outputs.json], with a non-empty
    label, [getAmplifyAppId] returns the label. *)
Theorem app_id_of_endpoint (label rest : string) (key : option string) :
  label <> "" -> ~ In "."%char (list_ascii_of_string label) ->
  let outputs :=
    FileParsed (Some (mkData (Some ("https://" ++ label ++ "." ++ rest)%string) key)) in
  getAmplifyAppId None EnvMissing outputs = (Some label, None) /\
  getAmplifyAppId (Some "") (EnvContent "") outputs = (Some label, None).
Proof.
  intros Hne Hdot. cbv zeta.
  assert (Hc : capture "https://" "."%char ("https://" ++ label ++ "." ++ rest)%string
               = Some label).
  { cbn [append capture after Ascii.eqb Bool.eqb].
    change ("." ++ rest)%string with (String "."%char rest).
    rewrite (@upTo_app _ _ rest Hdot).
    apply truthy_nonempty in Hne. now rewrite Hne. }
  unfold getAmplifyAppId. cbn [truthy String.eqb negb capture after upTo].
  unfold appIdOfOutputs. rewrite Hc.
  change (truthy ("https://" ++ label ++ "." ++ rest)%string) with true.
  now split.
Qed.

Lemma app_id_is_not_empty_witness :
  getAmplifyAppId None (EnvContent ("A=1" ++ String newline
                           ("NEXT_PUBLIC_AMPLIFY_APP_ID=d1abc" ++ String newline "B=2"))%string) FileMissing = (Some "d1abc", None) /\
  "d1abc" <> "" /\ (None : option level) = None.
Proof.
  assert (H : getAmplifyAppId None (EnvContent ("A=1" ++ String newline
                           ("NEXT_PUBLIC_AMPLIFY_APP_ID=d1abc" ++ String newline "B=2"))%string) FileMissing = (Some "d1abc", None)) by reflexivity.
  exact (conj H (@app_id_is_not_empty _ _ _ _ _ H)).
Defined.

Lemma app_id_of_endpoint_witness :
  "abc123" <> "" /\ ~ In "."%char (list_ascii_of_string "abc123") /\
  getAmplifyAppId None EnvMissing
    (FileParsed (Some (mkData
       (Some "https://abc123.appsync-api.us-east-1.amazonaws.com/graphql")
       (Some theKey))))
  = (Some "abc123", None).
Proof.
  assert (H1 : "abc123" <> "") by discriminate.
  assert (H2 : ~ In "."%char (list_ascii_of_string "abc123"))
    by (cbn; intuition discriminate).
  exact (conj H1 (conj H2
           (proj1 (@app_id_of_endpoint "abc123"
                     "appsync-api.us-east-1.amazonaws.com/graphql"
                     (Some theKey) H1 H2)))).
Defined.

(** ** sync-data.js: the merge and the batches *)

Section MergeFacts.

Variable getTime : string -> option Z.

Local Abbreviation addLocal := (SyncData.addLocal getTime).
Local Abbreviation mergedItems := (SyncData.mergedItems getTime).

Lemma keyed_set m t : keyed m -> keyed (Map_set m (id t) t).
Proof.
  intros [Hnd Hid]. split; [now apply Map_keys_set_NoDup|].
  intros k v. rewrite Map_get_set.
  destruct (String.eqb_spec (id t) k) as [<-|_]; [now intros [= <-]|apply Hid].
Qed.

Lemma keyed_mapOf l : keyed (mapOf l).
Proof.
  destruct (mapOf_filled l) as (Hnd & Hid & _). split; [assumption|].
  intros k v H. now apply Hid in H.
Qed.

Lemma keyed_addLocal m t : keyed m -> keyed (addLocal m t).
Proof.
  intros H. unfold SyncData.addLocal.
  destruct (Map_get m (id t)); [destruct (js_gt _ _)|]; auto using keyed_set.
Qed.

Lemma keyed_fold l : forall m, keyed m -> keyed (fold_left addLocal l m).
Proof.
  induction l as [|t r IH]; simpl; auto using keyed_addLocal.
Qed.

Lemma keyed_ids m : keyed m -> map id (Map_values m) = Map_keys m.
Proof.
  intros [Hnd Hid]. unfold Map_values, Map_keys. rewrite map_map.
  apply map_ext_in. intros [k v] Hin. simpl. apply Hid.
  now apply Map_get_In_NoDup.
Qed.

Lemma keyed_lookup m i : keyed m -> lookup i (Map_values m) = Map_get m i.
Proof.
  induction m as [|[k v] m IH]; simpl; intros [Hnd Hid]; [reflexivity|].
  assert (Hk : id v = k) by (apply Hid; simpl; now rewrite String.eqb_refl).
  rewrite Hk. destruct (String.eqb_spec k i) as [E|E]; [reflexivity|].
  apply IH. inversion Hnd as [|? ? Hk0 Hm]; subst. split; [assumption|].
  intros k' v' H. apply Hid. simpl.
  destruct (String.eqb_spec (id v) k') as [<-|_]; [|assumption].
  exfalso. apply Hk0. apply Map_keys_get. congruence.
Qed.

Lemma addLocal_keys m t i :
  In i (Map_keys (addLocal m t)) <-> i = id t \/ In i (Map_keys m).
Proof.
  unfold SyncData.addLocal.
  destruct (Map_get m (id t)) as [c|] eqn:E.
  - assert (Hin : In (id t) (Map_keys m)) by (apply Map_keys_get; congruence).
    assert (Hhas : Map_has m (id t) = true) by (now unfold Map_has; rewrite E).
    destruct (js_gt _ _); [rewrite Map_keys_set, Hhas|];
      split; auto; intros [->|H]; auto.
  - assert (Hhas : Map_has m (id t) = false) by (now unfold Map_has; rewrite E).
    rewrite Map_keys_set, Hhas, in_app_iff. simpl. intuition.
Qed.

Lemma fold_addLocal_keys l : forall m i,
  In i (Map_keys (fold_left addLocal l m)) <-> In i (map id l) \/ In i (Map_keys m).
Proof.
  induction l as [|t r IH]; intros m i; simpl; [tauto|].
  rewrite IH, addLocal_keys. intuition.
Qed.

(** X17. The merged data of a two-way sync holds each id once, and holds
    exactly the ids found in the local or in the cloud export, also when
    an export repeats an id. *)
Theorem merged_ids (localData cloudData : list Todo) :
  NoDup (map id (mergedItems localData cloudData)) /\
  forall i,
    In i (map id (mergedItems localData cloudData))
    <-> In i (map id localData) \/ In i (map id cloudData).
Proof.
  unfold SyncData.mergedItems.
  assert (Hk : keyed (fold_left addLocal localData (mapOf cloudData)))
    by apply keyed_fold, keyed_mapOf.
  rewrite (keyed_ids Hk). split; [apply Hk|].
  intros i. rewrite fold_addLocal_keys.
  now rewrite <- (Map_has_keys (mapOf cloudData)), mapOf_has.
Qed.

Lemma fold_addLocal_get l : forall m i,
  NoDup (map id l) ->
  Map_get (fold_left addLocal l m) i =
  match lookup i l, Map_get m i with
  | Some item, Some cloudItem =>
      Some (if js_gt (getTime (updatedAt item)) (getTime (updatedAt cloudItem))
            then item else cloudItem)
  | Some item, None => Some item
  | None, kept => kept
  end.
Proof.
  induction l as [|t r IH]; intros m i Hnd; simpl.
  - now destruct (Map_get m i).
  - inversion Hnd as [|? ? Ht Hr]; subst. rewrite (IH _ _ Hr).
    destruct (String.eqb_spec (id t) i) as [<-|E].
    + rewrite (lookup_notin _ _ Ht). unfold SyncData.addLocal.
      destruct (Map_get m (id t)) as [c|] eqn:Ec.
      * destruct (js_gt _ _); [|assumption].
        now rewrite Map_get_set, String.eqb_refl.
      * now rewrite Map_get_set, String.eqb_refl.
    + assert (Hget : Map_get (addLocal m t) i = Map_get m i).
      { unfold SyncData.addLocal. apply String.eqb_neq in E.
        destruct (Map_get m (id t)); [destruct (js_gt _ _)|];
          now rewrite ?Map_get_set, ?E. }
      now rewrite Hget.
Qed.

(** X18. Id by id, the merge keeps the record of the side that has one,
    and of two records the local one exactly when its parsed [updatedAt]
    is strictly greater; on a tie, or when a timestamp does not parse,
    it keeps the cloud record. *)
Theorem merge_keeps_newer (localData cloudData : list Todo) (i : string) :
  NoDup (map id localData) -> NoDup (map id cloudData) ->
  lookup i (mergedItems localData cloudData) =
  match lookup i localData, lookup i cloudData with
  | Some item, Some cloudItem =>
      Some (if js_gt (getTime (updatedAt item)) (getTime (updatedAt cloudItem))
            then item else cloudItem)
  | Some item, None => Some item
  | None, kept => kept
  end.
Proof.
  intros Hl Hc. unfold SyncData.mergedItems.
  rewrite keyed_lookup by apply keyed_fold, keyed_mapOf.
  now rewrite fold_addLocal_get, mapOf_get_lookup.
Qed.

Lemma Map_set_fresh m k v : ~ In k (Map_keys m) -> Map_set m k v = m ++ [(k, v)].
Proof.
  induction m as [|[k0 v0] m IH]; simpl; intros H; [reflexivity|].
  destruct (String.eqb_spec k0 k) as [E|_]; [tauto|].
  rewrite IH; [reflexivity|tauto].
Qed.

Lemma mapOf_NoDup l :
  NoDup (map id l) -> mapOf l = map (fun t => (id t, t)) l.
Proof.
  induction l as [|t r IH] using rev_ind; [reflexivity|].
  rewrite map_app. intros H. apply NoDup_remove in H. simpl in H.
  rewrite app_nil_r in H. destruct H as [Hr Ht].
  rewrite mapOf_snoc, (IH Hr), Map_set_fresh, map_app; [reflexivity|].
  unfold Map_keys. now rewrite map_map.
Qed.

Lemma fold_addLocal_same l : forall m,
  (forall t, In t l -> Map_get m (id t) = Some t) -> fold_left addLocal l m = m.
Proof.
  induction l as [|t r IH]; intros m H; simpl; [reflexivity|].
  assert (E : addLocal m t = m).
  { unfold SyncData.addLocal. rewrite (H t) by now left.
    now rewrite js_gt_irrefl. }
  rewrite E. apply IH. intros t' Ht'. apply H. now right.
Qed.

(** X19. When every local record is already in the cloud export, record
    for record, the merged data is the cloud export as it stands; in
    particular merging the result of a merge with itself changes
    nothing. *)
Theorem merge_of_synced (localData cloudData : list Todo) :
  NoDup (map id cloudData) ->
  (forall t, In t localData -> In t cloudData) ->
  mergedItems localData cloudData = cloudData.
Proof.
  intros Hc Hsub. unfold SyncData.mergedItems.
  rewrite fold_addLocal_same.
  - rewrite mapOf_NoDup by exact Hc. unfold Map_values. rewrite map_map.
    apply map_id.
  - intros t Ht. rewrite mapOf_get_lookup by exact Hc.
    destruct (lookup (id t) cloudData) as [t'|] eqn:E.
    + f_equal. apply lookup_Some in E. destruct E as [Hin Hid].
      apply (@NoDup_ids_unique cloudData); auto.
    + apply lookup_None in E. exfalso. apply E. apply in_map. auto.
Qed.

End MergeFacts.

Lemma chunksFrom_spec fuel : forall items,
  (length items <= fuel)%nat ->
  concat (SyncData.chunksFrom fuel items) = items /\
  Forall (fun chunk => (1 <= length chunk <= 25)%nat) (SyncData.chunksFrom fuel items) /\
  length (SyncData.chunksFrom fuel items) = ((length items + 24) / 25)%nat.
Proof.
  induction fuel as [|fuel IH]; intros items Hlen.
  - destruct items; [|simpl in Hlen; lia]. now repeat split.
  - destruct items as [|t r]; [now repeat split|].
    cbn [SyncData.chunksFrom].
    assert (Hskip : (length (skipn 25 (t :: r)) <= fuel)%nat)
      by (rewrite length_skipn; simpl length in *; lia).
    destruct (IH _ Hskip) as (Hcat & Hall & Hcount).
    repeat split.
    + cbn [concat]. rewrite Hcat. apply firstn_skipn.
    + constructor; [|assumption]. rewrite length_firstn. simpl length. lia.
    + cbn [length]. rewrite Hcount, length_skipn.
      remember (length (t :: r)) as n. assert (1 <= n)%nat by (subst; simpl; lia).
      destruct (Nat.le_gt_cases 25 n) as [Hn|Hn].
      * apply Nat.div_unique with (r := ((n - 25 + 24) mod 25)%nat).
        -- apply Nat.mod_upper_bound. lia.
        -- pose proof (Nat.div_mod_eq (n - 25 + 24) 25). simpl length in *. lia.
      * replace (n - 25)%nat with 0%nat by lia.
        rewrite (Nat.div_small (0 + 24)) by lia.
        simpl length in *. apply Nat.div_unique with (r := (n - 1)%nat); lia.
Qed.

(** X20. The batches sent to DynamoDB partition the items: put together
    in order they are the items, each batch holds between 1 and 25 of
    them, and there are as many batches as 25 goes into the number of
    items, rounded up; no item is dropped, repeated or reordered. *)
Theorem chunks_partition (items : list Todo) :
  concat (SyncData.chunks items) = items /\
  Forall (fun chunk => (1 <= length chunk <= 25)%nat) (SyncData.chunks items) /\
  length (SyncData.chunks items) = ((length items + 24) / 25)%nat.
Proof. unfold SyncData.chunks. apply chunksFrom_spec. lia. Qed.

Lemma merge_keeps_newer_witness :
  NoDup (map id [oat_milk jan2; bread "2" jan1]) /\
  NoDup (map id [milk jan1]) /\
  lookup "1" (SyncData.mergedItems isoTime [oat_milk jan2; bread "2" jan1] [milk jan1])
  = Some (oat_milk jan2).
Proof.
  assert (Hl : NoDup (map id [oat_milk jan2; bread "2" jan1]))
    by (repeat constructor; simpl; intuition discriminate).
  assert (Hc : NoDup (map id [milk jan1]))
    by (repeat constructor; simpl; intuition).
  exact (conj Hl (conj Hc
           (@merge_keeps_newer isoTime [oat_milk jan2; bread "2" jan1]
              [milk jan1] "1" Hl Hc))).
Defined.

Lemma merge_of_synced_witness :
  NoDup (map id [milk jan1; bread "2" jan1]) /\
  (forall t, In t [bread "2" jan1] -> In t [milk jan1; bread "2" jan1]) /\
  SyncData.mergedItems isoTime [bread "2" jan1] [milk jan1; bread "2" jan1]
  = [milk jan1; bread "2" jan1].
Proof.
  assert (Hc : NoDup (map id [milk jan1; bread "2" jan1]))
    by (repeat constructor; simpl; intuition discriminate).
  assert (Hs : forall t, In t [bread "2" jan1] -> In t [milk jan1; bread "2" jan1])
    by (intros t [<-|[]]; right; left; reflexivity).
  exact (conj Hc (conj Hs
           (@merge_of_synced isoTime [bread "2" jan1] [milk jan1; bread "2" jan1]
              Hc Hs))).
Defined.

(** ** sync-data.js: runs of the script *)

Section ScriptFacts.

Import SyncDataScript.

Variable W : Type.
Variable sandboxOutputs : W -> option (option string) * W.
Variable appId : option string.
Variable scan : string -> W -> option (list Todo) * W.
Variable batchWrite : string -> list Todo -> W -> bool * W.
Variable readLocalStorage : W -> local_storage.
Variable writeLocalStorage : list Todo -> W -> bool * W.
Variable makeExportDir : W -> bool * W.
Variable writeExport : option place -> list Todo -> W -> bool * W.
Variable readLine : W -> string * W.
Variable getTime : string -> option Z.

Notation "x <- m ;; k" := (bind m (fun x => k))
  (at level 61, m at next level, right associativity).
Notation "m ;; k" := (bind m (fun _ => k))
  (at level 61, right associativity).

Local Abbreviation Script A := (W -> outcome A * W * list event).

Local Abbreviation getTableName := (getTableName sandboxOutputs appId).
Local Abbreviation importToDynamoDB := (importToDynamoDB sandboxOutputs appId batchWrite).
Local Abbreviation exportFromDynamoDB := (exportFromDynamoDB sandboxOutputs appId scan).
Local Abbreviation exportData :=
  (exportData sandboxOutputs appId scan readLocalStorage makeExportDir writeExport).
Local Abbreviation importData :=
  (importData sandboxOutputs appId batchWrite writeLocalStorage).
Local Abbreviation main :=
  (main sandboxOutputs appId scan batchWrite readLocalStorage writeLocalStorage
     makeExportDir writeExport readLine getTime).

Lemma batches_app t1 t2 : batches (t1 ++ t2) = batches t1 ++ batches t2.
Proof.
  induction t1 as [|[] r IH]; simpl; auto. now rewrite IH.
Qed.

(** What [bind] returns, it returns through both parts. *)
Lemma bind_returns A B (m : Script A) (f : A -> Script B) w b :
  result (bind m f w) = Ret b ->
  exists a, result (m w) = Ret a /\ result (f a (final (m w))) = Ret b /\
            trace (bind m f w) = trace (m w) ++ trace (f a (final (m w))).
Proof.
  unfold bind. destruct (m w) as [[[a| |c] w1] t1]; try discriminate.
  cbn. destruct (f a w1) as [[r w2] t2] eqn:E. cbn. intros ->.
  exists a. rewrite E. now repeat split.
Qed.

Lemma naming_batches t : Forall naming t -> batches t = [].
Proof.
  induction 1 as [|e r He Hr IH]; [reflexivity|].
  destruct e; simpl in *; auto; contradiction.
Qed.



(** [getTableName] always comes up with a name, unless the command fails
    and [execute] ends the process. *)
Lemma getTableName_run w :
  let x := getTableName w in
  Forall naming (trace x) /\
  match result x with
  | Ret _ => fst (sandboxOutputs w) <> None
  | Throw => False
  | Exit c => c = 1%Z /\ fst (sandboxOutputs w) = None
  end.
Proof.
  cbv zeta. unfold SyncDataScript.getTableName, execute, try_catch, bind, act, log, ret,
    throw, process_exit.
  destruct (sandboxOutputs w) as [[[name|]|] w1]; cbn;
    repeat split; repeat constructor; congruence.
Qed.

Lemma act_run (e : event) (g : W -> bool * W) w :
  act e (succeeded g) w =
  (if fst (g w) then Ret tt else Throw, snd (g w), [e]).
Proof. unfold act, succeeded. now destruct (g w) as [[|] w1]. Qed.

(** The loop over the batches stops at the first one that is refused. *)
Lemma batches_loop tableName (chunked : list (list Todo)) w :
  let x := for_of chunked (fun chunk =>
             act (BatchWrite tableName chunk)
                 (succeeded (batchWrite tableName chunk))) w in
  (exists rest, chunked = batches (trace x) ++ rest) /\
  (forall l m, ~ In (Log l m) (trace x)) /\
  match result x with
  | Ret _ => batches (trace x) = chunked
  | Throw => True
  | Exit _ => False
  end.
Proof.
  cbv zeta. revert w. induction chunked as [|chunk r IH]; intros w; cbn [for_of].
  - cbn. repeat split; [now exists []|auto].
  - unfold bind. rewrite act_run.
    destruct (batchWrite tableName chunk w) as [[|] w1]; cbn.
    + specialize (IH w1).
      destruct (for_of r _ w1) as [[res w2] t2]; cbn in *.
      destruct IH as ((rest & Hrest) & Hlog & Hres). repeat split.
      * exists rest. now rewrite Hrest at 1.
      * intros l m [H|H]; [discriminate|]. now apply Hlog in H.
      * destruct res; auto. congruence.
    + repeat split; [now exists r|]. intros l m [H|[]]. discriminate.
Qed.

Lemma chunks_loop tableName (items : list Todo) w :
  let x := (if (0 <? length items)%nat then
              for_of (SyncData.chunks items) (fun chunk =>
                act (BatchWrite tableName chunk)
                    (succeeded (batchWrite tableName chunk)))
            else ret tt) w in
  (exists rest, SyncData.chunks items = batches (trace x) ++ rest) /\
  (forall l m, ~ In (Log l m) (trace x)) /\
  match result x with
  | Ret _ => batches (trace x) = SyncData.chunks items
  | Throw => True
  | Exit _ => False
  end.
Proof.
  cbv zeta. destruct items as [|t r]; [|apply batches_loop].
  cbn. repeat split; [now exists []|auto].
Qed.

Lemma importToDynamoDB_run items w :
  importToDynamoDB items w =
  match getTableName w with
  | (Ret tableName, w1, t1) =>
      let y := (if (0 <? length items)%nat then
                  for_of (SyncData.chunks items) (fun chunk =>
                    act (BatchWrite tableName chunk)
                        (succeeded (batchWrite tableName chunk)))
                else ret tt) w1 in
      let t := t1 ++ Log info (MImporting (length items) tableName) :: trace y in
      match result y with
      | Ret _ => (Ret tt, final y, t ++ [Log success (MImported (length items))])
      | Throw => (Ret tt, final y, t ++ [Log error MImportDynamoError])
      | Exit c => (Exit c, final y, t)
      end
  | (Throw, w1, t1) => (Ret tt, w1, t1 ++ [Log error MImportDynamoError])
  | (Exit c, w1, t1) => (Exit c, w1, t1)
  end.
Proof.
  unfold SyncDataScript.importToDynamoDB, try_catch. unfold bind at 1.
  destruct (getTableName w) as [[[tableName| |c] w1] t1]; try reflexivity.
  unfold bind at 1, log at 1. unfold bind at 1. cbv zeta.
  match goal with
  | |- context [result (?m w1)] => destruct (m w1) as [[[[]| |c] w2] t2]
  end; cbn; rewrite ?app_nil_r, <- ?app_assoc; reflexivity.
Qed.


Section Only.

Variable P : event -> Prop.
Hypothesis P_log : forall l m, P (Log l m).

Lemma only_ret A (a : A) : only P false (ret (W:=W) a).
Proof. intros w. cbn. auto. Qed.

Lemma only_log m l : only P false (log (W:=W) m l).
Proof. intros w. cbn. split; [repeat constructor; apply P_log|reflexivity]. Qed.

Lemma only_throw stop A : only P stop (throw (W:=W) (A:=A)).
Proof. intros w. cbn. auto. Qed.

Lemma only_exit stop A : only P stop (process_exit (W:=W) (A:=A) 1).
Proof. intros w. cbn. auto. Qed.

Lemma only_act A (e : event) (f : W -> option A * W) :
  P e -> only P false (act e f).
Proof.
  intros He w. unfold act. destruct (f w) as [[a|] w1]; cbn;
    split; auto; repeat constructor; exact He.
Qed.

Lemma only_bind stop A B (m : Script A) (f : A -> Script B) :
  only P false m -> (forall a, only P stop (f a)) -> only P stop (bind m f).
Proof.
  intros Hm Hf w. specialize (Hm w). unfold bind.
  destruct (m w) as [[[a| |c] w1] t1]; cbn in *;
    [|split; [apply Hm|exact I]|exact Hm].
  specialize (Hf a w1). destruct (f a w1) as [[r w2] t2]; cbn in *.
  destruct Hm as (Ht1 & _). destruct Hf as (Ht2 & Hr).
  split; [now apply Forall_app|exact Hr].
Qed.


Lemma only_try_catch stop A (m h : Script A) :
  only P stop m -> only P stop h -> only P stop (try_catch m h).
Proof.
  intros Hm Hh w. specialize (Hm w). unfold try_catch.
  destruct (m w) as [[[a| |c] w1] t1]; cbn in *; auto.
  specialize (Hh w1). destruct (h w1) as [[r w2] t2]; cbn in *.
  destruct Hm as (Ht1 & _). destruct Hh as (Ht2 & Hr).
  split; [now apply Forall_app|exact Hr].
Qed.

Lemma only_for_of A (xs : list A) (f : A -> Script unit) :
  (forall x, only P false (f x)) -> only P false (for_of xs f).
Proof.
  intros Hf. induction xs as [|x r IH]; cbn [for_of].
  - apply only_ret.
  - apply only_bind; auto.
Qed.

Hypothesis P_command : P SandboxOutputs.

Lemma only_getTableName : only P false getTableName.
Proof.
  intros w. destruct (getTableName_run w) as (Hn & Hr). split.
  - revert Hn. apply Forall_impl. intros e He.
    destruct e; simpl in He; auto; contradiction.
  - destruct (result (getTableName w)); [reflexivity|contradiction|apply Hr].
Qed.

End Only.

(** One step of a proof that a part of the script does [only] so much. *)
Ltac only_step :=
  match goal with
  | |- forall _, _ => intros ?
  | |- only _ _ (ret _) => apply only_ret
  | |- only _ _ (log _ _) => apply only_log; intros; exact I || reflexivity
  | |- only _ _ (@throw _ _) => apply only_throw
  | |- only _ _ (@process_exit _ _ _) => apply only_exit
  | |- only _ _ (act _ _) => apply only_act; exact I || reflexivity
  | |- only _ _ getTableName =>
      apply only_getTableName; intros; exact I || reflexivity
  | |- only _ _ (try_catch _ _) => apply only_try_catch
  | |- only _ _ (for_of _ _) => apply only_for_of
  | |- only _ _ (bind _ _) => apply only_bind
  | |- only _ _ (match ?x with _ => _ end) => destruct x
  end.



Section CommandFails.

Hypothesis command_fails : forall w, fst (sandboxOutputs w) = None.





End CommandFails.

Lemma importData_local_writes items w :
  In (WriteLocalStorage items) (trace (importData local items w)).
Proof.
  unfold SyncDataScript.importData, importToLocalStorage, try_catch, bind, log.
  rewrite act_run. destruct (writeLocalStorage items w) as [[|] w1]; cbn; auto.
Qed.

Section ScanFails.

Hypothesis scan_fails : forall tableName w, fst (scan tableName w) = None.



Lemma bind_log A m l (f : unit -> Script A) w :
  bind (log m l) f w = (result (f tt w), final (f tt w), Log l m :: trace (f tt w)).
Proof. unfold bind, log. now destruct (f tt w) as [[r w1] t]. Qed.

Lemma bind_prompt A (f : string -> Script A) w :
  bind (prompt readLine) f w =
  let x := f (fst (readLine w)) (snd (readLine w)) in
  (result x, final x, Prompt :: trace x).
Proof.
  unfold bind, prompt. destruct (readLine w) as [answer w0]. cbn.
  now destruct (f answer w0) as [[r w1] t].
Qed.


End ScanFails.

Lemma no_batch_batches t : Forall no_batch t -> batches t = [].
Proof.
  induction 1 as [|e r He Hr IH]; [reflexivity|].
  destruct e; simpl in *; auto; contradiction.
Qed.

Lemma no_batch_exportData source : only no_batch false (exportData source).
Proof.
  unfold SyncDataScript.exportData, exportFromLocalStorage,
    SyncDataScript.exportFromDynamoDB.
  destruct source; repeat only_step.
  intros w. cbn. split; [repeat constructor|reflexivity].
Qed.

Lemma no_batch_importData_local items : only no_batch false (importData local items).
Proof.
  unfold SyncDataScript.importData, importToLocalStorage. repeat only_step.
Qed.

(** The file [exportData] writes holds the data it returns. *)
Lemma exportData_writes source w data :
  result (exportData source w) = Ret data ->
  In (WriteExport (Some source) data) (trace (exportData source w)).
Proof.
  unfold SyncDataScript.exportData. intros H.
  apply bind_returns in H. destruct H as (_ & _ & H & ->).
  apply bind_returns in H. destruct H as (_ & _ & H & ->).
  apply bind_returns in H. destruct H as (d & _ & H & ->).
  apply bind_returns in H. destruct H as (_ & _ & H & ->).
  apply bind_returns in H. destruct H as (_ & _ & H & ->).
  cbn in H. injection H as <-.
  rewrite !in_app_iff. do 3 right. left.
  rewrite act_run. left. reflexivity.
Qed.

Lemma importToDynamoDB_sent items w :
  exists rest,
    SyncData.chunks items = batches (trace (importToDynamoDB items w)) ++ rest.
Proof.
  rewrite importToDynamoDB_run.
  destruct (getTableName_run w) as (Hn & Hr).
  destruct (getTableName w) as [[[tableName| |c] w1] t1];
    cbn [result trace fst snd] in *; [|contradiction|].
  - cbv zeta.
    destruct (chunks_loop tableName items w1) as ((rest & Hrest) & _ & _).
    exists rest.
    match type of Hrest with
    | context [trace (?m w1)] => destruct (m w1) as [[[[]| |c] w2] t2]
    end; cbn [result final trace fst snd] in *;
      rewrite !batches_app, (naming_batches Hn); cbn;
      rewrite ?app_nil_r; exact Hrest.
  - rewrite (naming_batches Hn). now exists (SyncData.chunks items).
Qed.

Lemma importData_cloud_sent items w :
  exists rest,
    SyncData.chunks items = batches (trace (importData cloud items w)) ++ rest.
Proof.
  unfold SyncDataScript.importData, bind, log. cbn.
  destruct (importToDynamoDB_sent items w) as (rest & Hrest). exists rest.
  destruct (importToDynamoDB items w) as [[[[]| |c] w1] t1];
    cbn in *; rewrite ?batches_app; cbn; rewrite ?app_nil_r; exact Hrest.
Qed.

(** X24. A two-way run (direction 3) that comes to its end has handed
    the merge of the two export files it wrote to both imports:
    [fs.writeFileSync] is called on [local-storage.json] with the merged
    items, and the batches sent to the table are an initial part of the
    batches of the same items.  (A failed write or a refused batch is
    caught by the import and only logged; the run still comes to its
    end.) *)
Theorem two_way_imports_the_merge (w : W) :
  fst (readLine w) = "3" ->
  let x := main w in
  result x = Ret tt ->
  exists localData cloudData,
    In (WriteExport (Some local) localData) (trace x) /\
    In (WriteExport (Some cloud) cloudData) (trace x) /\
    let r := SyncData.twoWay getTime localData cloudData in
    In (WriteLocalStorage (SyncData.localTodos r)) (trace x) /\
    exists rest, SyncData.putRequests r = batches (trace x) ++ rest.
Proof.
  intros Hd. cbv zeta. unfold SyncDataScript.main.
  rewrite !bind_log, bind_prompt, Hd. cbv zeta.
  change ("3" =? "1") with false. change ("3" =? "2") with false.
  change ("3" =? "3") with true.
  cbn [result final trace fst snd]. intros H.
  apply bind_returns in H. destruct H as (u & H & _ & ->).
  apply bind_returns in H. destruct H as (u0 & _ & H & ->).
  cbn [log final trace fst snd] in *.
  set (w0 := snd (readLine w)) in *.
  apply bind_returns in H. destruct H as (localData & Hlocal & H & ->).
  set (w1 := final (exportData local w0)) in *.
  apply bind_returns in H. destruct H as (cloudData & Hcloud & H & ->).
  set (w2 := final (exportData cloud w1)) in *.
  cbv zeta in H |- *.
  set (merged := SyncData.mergedItems getTime localData cloudData) in *.
  apply bind_returns in H. destruct H as (u1 & _ & H & ->).
  apply bind_returns in H. destruct H as (u2 & _ & H & ->).
  apply bind_returns in H. destruct H as (u3 & _ & _ & ->).
  exists localData, cloudData. cbn [SyncData.twoWay SyncData.localTodos SyncData.putRequests].
  fold merged.
  pose proof (exportData_writes _ _ Hlocal) as HL.
  pose proof (exportData_writes _ _ Hcloud) as HC.
  repeat split.
  - do 7 right. rewrite !in_app_iff. left. right. left. exact HL.
  - do 7 right. rewrite !in_app_iff. left. right. right. left. exact HC.
  - do 7 right. rewrite !in_app_iff. left. right. right. right. right. left.
    apply importData_local_writes.
  - cbn [batches]. rewrite !batches_app. cbn [batches].
    rewrite (no_batch_batches (proj1 (no_batch_exportData local w0))).
    rewrite (no_batch_batches (proj1 (no_batch_exportData cloud w1))).
    rewrite act_run. cbn [trace snd batches].
    match goal with
    | |- context [importData local merged ?w3] =>
        rewrite (no_batch_batches (proj1 (no_batch_importData_local merged w3)))
    end.
    cbn [app log trace snd batches]. rewrite !app_nil_r.
    apply importData_cloud_sent.
Qed.

End ScriptFacts.



Lemma two_way_imports_the_merge_witness :
  let x := SyncDataScript.main names_table None (scan_gives [milk jan1])
             table_accepts stored store dir_ok file_ok (typed "3") isoTime
             [oat_milk jan2; bread "2" jan1] in
  fst (typed "3" [oat_milk jan2; bread "2" jan1]) = "3" /\
  SyncDataScript.result x = Ret tt /\
  exists localData cloudData,
    In (SyncDataScript.WriteExport (Some SyncDataScript.local) localData)
       (SyncDataScript.trace x) /\
    In (SyncDataScript.WriteExport (Some SyncDataScript.cloud) cloudData)
       (SyncDataScript.trace x) /\
    let r := SyncData.twoWay isoTime localData cloudData in
    In (SyncDataScript.WriteLocalStorage (SyncData.localTodos r))
       (SyncDataScript.trace x) /\
    exists rest,
      SyncData.putRequests r = SyncDataScript.batches (SyncDataScript.trace x) ++ rest.
Proof.
  assert (Hr : SyncDataScript.result
                 (SyncDataScript.main names_table None (scan_gives [milk jan1])
                    table_accepts stored store dir_ok file_ok (typed "3") isoTime
                    [oat_milk jan2; bread "2" jan1])
               = Ret tt) by reflexivity.
  exact (conj eq_refl (conj Hr
           (@two_way_imports_the_merge _ names_table None (scan_gives [milk jan1])
              table_accepts stored store dir_ok file_ok (typed "3") isoTime
              [oat_milk jan2; bread "2" jan1] eq_refl Hr))).
Defined.

(** ** When a command keeps failing or never fails *)

Section Commands.

Variable W : Type.
Variable execSync : command -> W -> option output * W.
Variable readOutputs : W -> outputs_file.

Notation "x <- m ;; k" := (bind m (fun x => k))
  (at level 61, m at next level, right associativity).
Notation "m ;; k" := (bind m (fun _ => k))
  (at level 61, right associativity).

Local Abbreviation Comp A := (W -> outcome A * W * list event).

Lemma executeWithRetry_no_throw c o left retries envSet w :
  (forall d w', fst (execSync (Sleep d) w') <> None) ->
  result (executeWithRetry execSync c o left retries envSet w) <> Throw.
Proof.
  intros Hsleep. revert retries envSet w.
  induction left as [|left IH]; intros retries envSet w;
    cbn [executeWithRetry]; unfold try_catch;
    destruct (attempt_run execSync c o envSet w) as (t & Ht & ->);
    destruct (execSync c w) as [[out|] w1]; cbn [fst snd]; try discriminate.
  - destruct (giveUp_commands c o retries w1) as (_ & Hthrow & _).
    now destruct (giveUp c o retries w1) as [[r w2] t2].
  - destruct (noRetry o); cbn [negb].
    + destruct (giveUp_commands c o retries w1) as (_ & Hthrow & _).
      now destruct (giveUp c o retries w1) as [[r w2] t2].
    + rewrite pause_run. specialize (Hsleep (retryDelay_of o) w1).
      destruct (execSync (Sleep (retryDelay_of o)) w1) as [[o1|] w2];
        [|now destruct Hsleep].
      specialize (IH (S retries) true w2).
      now destruct (executeWithRetry execSync c o left (S retries) true w2)
        as [[r w3] t3].
Qed.

(** X26. An exception leaves [execute] only when the pause between two
    attempts fails: where [sleep] always succeeds, [execute] returns or
    ends the process, whatever the command does. *)
Theorem execute_throws_only_from_the_pause (c : command) (o : Options) (w : W) :
  (forall d w', fst (execSync (Sleep d) w') <> None) ->
  result (execute execSync c o w) <> Throw.
Proof. intros H. unfold execute. now apply executeWithRetry_no_throw. Qed.

Lemma executeWithRetry_no_output c o left retries envSet w out :
  (forall w', fst (execSync c w') = None) ->
  result (executeWithRetry execSync c o left retries envSet w) <> Ret (Some out).
Proof.
  intros Hfail. revert retries envSet w.
  induction left as [|left IH]; intros retries envSet w;
    cbn [executeWithRetry]; unfold try_catch;
    destruct (attempt_run execSync c o envSet w) as (t & Ht & ->);
    specialize (Hfail w) as Hw;
    destruct (execSync c w) as [[out'|] w1]; cbn [fst snd] in *; try discriminate.
  - destruct (giveUp_commands c o retries w1) as (_ & _ & Hsome).
    specialize (Hsome out). now destruct (giveUp c o retries w1) as [[r w2] t2].
  - destruct (noRetry o); cbn [negb].
    + destruct (giveUp_commands c o retries w1) as (_ & _ & Hsome).
      specialize (Hsome out). now destruct (giveUp c o retries w1) as [[r w2] t2].
    + rewrite pause_run.
      destruct (execSync (Sleep (retryDelay_of o)) w1) as [[o1|] w2];
        [|discriminate].
      specialize (IH (S retries) true w2).
      now destruct (executeWithRetry execSync c o left (S retries) true w2)
        as [[r w3] t3].
Qed.

Section NoSandbox.

Hypothesis ps_fails : forall w, fst (execSync PsSandbox w) = None.

Lemma ps_no_output o w out :
  result (execute execSync PsSandbox o w) <> Ret (Some out).
Proof. unfold execute. now apply executeWithRetry_no_output. Qed.

(** What follows a computation can be judged on the values it returns. *)
Lemma bind_not_true A (m : Comp A) (f : A -> Comp bool) w :
  (forall a, result (m w) = Ret a -> result (f a (final (m w))) <> Ret true) ->
  result (bind m f w) <> Ret true.
Proof.
  unfold bind. destruct (m w) as [[[a| |c] w1] t1]; cbn; try discriminate.
  intros H. specialize (H a eq_refl). now destruct (f a w1) as [[r w2] t2].
Qed.

Lemma try_catch_not_true (m h : Comp bool) w :
  result (m w) <> Ret true ->
  (forall w', result (h w') <> Ret true) ->
  result (try_catch m h w) <> Ret true.
Proof.
  unfold try_catch. intros Hm Hh.
  destruct (m w) as [[[b| |c] w1] t1]; cbn in *; [assumption| |discriminate].
  specialize (Hh w1). now destruct (h w1) as [[r w2] t2].
Qed.

Lemma ensureSandboxRunning_not_true w :
  result (ensureSandboxRunning execSync w) <> Ret true.
Proof.
  unfold ensureSandboxRunning. apply try_catch_not_true; [|discriminate].
  apply bind_not_true. intros [out|] Hr; [now apply ps_no_output in Hr|].
  do 4 (apply bind_not_true; intros ? _).
  apply bind_not_true. intros [out|] Hr'; [now apply ps_no_output in Hr'|].
  discriminate.
Qed.

(** A local accessor, when the sandbox is not found. *)
Lemma local_without_sandbox A (k : bool -> Comp A) (h : Comp A) (a0 : A) w :
  (forall w', exists t, k false w' = (Ret a0, w', t) /\ commands t = []) ->
  (forall w', exists t, h w' = (Ret a0, w', t) /\ commands t = []) ->
  let x := try_catch (running <- ensureSandboxRunning execSync ;; k running) h w in
  filter is_curl (commands (trace x)) = [] /\
  (result x = Ret a0 \/ result x = Exit 1%Z).
Proof.
  intros Hk Hh. cbv zeta. unfold try_catch, bind.
  pose proof (ensureSandboxRunning_not_true w) as Hnot.
  destruct (no_curl_ensureSandboxRunning execSync false w) as (Ht & _ & Hr).
  apply no_curl_filter in Ht.
  destruct (ensureSandboxRunning execSync w) as [[[[|]| |c] w1] t1];
    cbn [result final trace fst snd] in *.
  - now destruct Hnot.
  - destruct (Hk w1) as (t & -> & Hc). cbn.
    rewrite commands_app, filter_app, Ht, Hc. auto.
  - discriminate.
  - subst c. auto.
Qed.

(** X25. When no [ps] check finds the sandbox, also after it has been
    started, no request is sent to the local replica: the local accessors
    run no curl command, the listing answers the empty list and create
    and update answer null, unless waiting for the sandbox ends the
    process. *)
Theorem no_sandbox_no_local_request (w : W) (todo : Todo) :
  (let x := listLocalTodos execSync readOutputs w in
   filter is_curl (commands (trace x)) = [] /\
   (result x = Ret [] \/ result x = Exit 1%Z)) /\
  (let x := createLocalTodo execSync readOutputs todo w in
   filter is_curl (commands (trace x)) = [] /\
   (result x = Ret None \/ result x = Exit 1%Z)) /\
  (let x := updateLocalTodo execSync readOutputs todo w in
   filter is_curl (commands (trace x)) = [] /\
   (result x = Ret None \/ result x = Exit 1%Z)).
Proof.
  split; [|split]; cbv zeta.
  - unfold listLocalTodos. apply local_without_sandbox;
      intros w'; cbn [negb]; eexists; (split; [reflexivity|reflexivity]).
  - unfold createLocalTodo. apply local_without_sandbox;
      intros w'; cbn [negb]; eexists; (split; [reflexivity|reflexivity]).
  - unfold updateLocalTodo. apply local_without_sandbox;
      intros w'; cbn [negb]; eexists; (split; [reflexivity|reflexivity]).
Qed.

End NoSandbox.

End Commands.

Lemma execute_throws_only_from_the_pause_witness :
  (forall d w', fst (store_execSync (Sleep d) w') <> None) /\
  result (execute store_execSync PsSandbox (opts true true)
            (mkStores [] [] jan1 "generated")) <> Throw.
Proof.
  assert (H : forall d w', fst (store_execSync (Sleep d) w') <> None)
    by (intros d w'; discriminate).
  exact (conj H (@execute_throws_only_from_the_pause Stores store_execSync
                   PsSandbox (opts true true) (mkStores [] [] jan1 "generated") H)).
Defined.

Lemma no_sandbox_no_local_request_witness :
  let x := listLocalTodos no_sandbox_execSync script_outputs [succeeds; succeeds] in
  (forall w, fst (no_sandbox_execSync PsSandbox w) = None) /\
  filter is_curl (commands (trace x)) = [] /\
  (result x = Ret [] \/ result x = Exit 1%Z).
Proof.
  assert (H : forall w, fst (no_sandbox_execSync PsSandbox w) = None)
    by reflexivity.
  exact (conj H (proj1 (@no_sandbox_no_local_request Script no_sandbox_execSync
                          script_outputs H [succeeds; succeeds] (milk jan1)))).
Defined.

(** ** execute: how a run of attempts ends *)

Section Attempts.

Variable W : Type.
Variable execSync : command -> W -> option output * W.

(** With piped output: an output returned is the output of the last
    execution of the command; giving up comes after the last retry; an
    exception comes from a pause. *)
Lemma executeWithRetry_endings c o left retries envSet w :
  silent o = true -> noRetry o = false ->
  let x := executeWithRetry execSync c o left retries envSet w in
  match result x with
  | Ret (Some out) =>
      exists k w', (k <= left)%nat /\
        commands (trace x) = retrySchedule c (retryDelay_of o) k /\
        execSync c w' = (Some out, final x)
  | Ret None | Exit _ => commands (trace x) = retrySchedule c (retryDelay_of o) left
  | Throw =>
      exists k, (k < left)%nat /\
        commands (trace x)
        = retrySchedule c (retryDelay_of o) k ++ [Sleep (retryDelay_of o)]
  end.
Proof.
  intros Hs Hn. revert retries envSet w.
  induction left as [|left IH]; intros retries envSet w;
    cbn [executeWithRetry retrySchedule]; unfold try_catch;
    destruct (attempt_run execSync c o envSet w) as (t & Ht & ->);
    destruct (execSync c w) as [[out|] w1] eqn:E; cbn [fst snd].
  - cbn. rewrite Hs, Ht. exists 0%nat, w. now repeat split.
  - destruct (giveUp_commands c o retries w1) as (Hc & Hthrow & Hsome).
    destruct (giveUp c o retries w1) as [[r w2] t2]; cbn in *.
    rewrite commands_app, Ht, Hc.
    destruct r as [[out|]| |code]; try reflexivity; [|congruence].
    now destruct (Hsome out).
  - cbn. rewrite Hs, Ht. exists 0%nat, w. repeat split; [lia|assumption].
  - rewrite Hn. cbn [negb]. rewrite pause_run.
    destruct (execSync (Sleep (retryDelay_of o)) w1) as [[o1|] w2].
    + specialize (IH (S retries) true w2). cbn in IH.
      destruct (executeWithRetry execSync c o left (S retries) true w2)
        as [[r w3] t3]; cbn in *.
      rewrite commands_app, Ht. cbn.
      destruct r as [[out|]| |code].
      * destruct IH as (k & w' & Hk & Hc & Hw). exists (S k), w'.
        repeat split; [lia|now rewrite Hc|assumption].
      * now rewrite IH.
      * destruct IH as (k & Hk & Hc). exists (S k).
        split; [lia|]. now rewrite Hc.
      * now rewrite IH.
    + cbn. rewrite commands_app, Ht. exists 0%nat. split; [lia|reflexivity].
Qed.

Lemma execute_first_failure c o w :
  noRetry o = false -> fst (execSync c w) = None ->
  exists rest,
    commands (trace (execute execSync c o w))
    = c :: Sleep (retryDelay_of o) :: rest.
Proof.
  intros Hn E. unfold execute.
  destruct (maxRetries_of_pos o) as (n & ->).
  cbn [executeWithRetry]. unfold try_catch.
  destruct (attempt_run execSync c o false w) as (t & Ht & ->).
  rewrite E, Hn. cbn [negb]. rewrite pause_run.
  destruct (execSync (Sleep (retryDelay_of o)) (snd (execSync c w)))
    as [[o1|] w2].
  - destruct (executeWithRetry execSync c o n 1 true w2) as [[r w3] t3].
    cbn. rewrite commands_app, Ht. cbn. eauto.
  - cbn. rewrite commands_app, Ht. cbn. eauto.
Qed.

(** C8, as amended.  A command run through [execute] with the default
    options is executed up to four times: the first attempt and up to
    three retries, each after a pause of one second; the commands handed
    to [execSync] are an initial part of "command, sleep 1, command,
    sleep 1, command, sleep 1, command".  With piped output, as in every
    accessor call, the run ends in one of three ways: with an output,
    which is the output of its last execution of the command; as failed
    (null, or the end of the process), only after the fourth execution;
    or by an exception, right after a pause.  A first attempt that
    succeeds ends the run; a first attempt that fails is followed by the
    pause; and where the command always fails and the pause never does,
    all four executions take place before the operation is treated as
    failed. *)
Theorem execute_retries_three_times (c : command) (i : bool) (e : option bool) (w : W) :
  let schedule := [c; Sleep 1000; c; Sleep 1000; c; Sleep 1000; c] in
  (forall s : bool,
      exists rest,
        schedule = commands (trace (execute execSync c (mkOptions s i false e None None) w))
                   ++ rest) /\
  let x := execute execSync c (mkOptions true i false e None None) w in
  match result x with
  | Ret (Some out) =>
      exists k w', (k <= 3)%nat /\
        commands (trace x) = retrySchedule c 1000 k /\
        execSync c w' = (Some out, final x)
  | Ret None | Exit _ => commands (trace x) = schedule
  | Throw =>
      exists k, (k < 3)%nat /\
        commands (trace x) = retrySchedule c 1000 k ++ [Sleep 1000]
  end /\
  (forall out, fst (execSync c w) = Some out ->
     result x = Ret (Some out) /\ commands (trace x) = [c]) /\
  (fst (execSync c w) = None ->
     exists rest, commands (trace x) = c :: Sleep 1000 :: rest) /\
  ((forall w', fst (execSync c w') = None) ->
   (forall d w', fst (execSync (Sleep d) w') <> None) ->
   commands (trace x) = schedule /\
   (result x = Ret None \/ result x = Exit 1%Z)).
Proof.
  cbv zeta. split; [|split; [|split; [|split]]].
  - intros s.
    exact (proj1 (@executeWithRetry_schedule _ execSync c
                    (mkOptions s i false e None None) 3 0 false w eq_refl)).
  - exact (@executeWithRetry_endings c (mkOptions true i false e None None)
             3 0 false w eq_refl eq_refl).
  - intros out E.
    destruct (@execute_at_once _ execSync c (mkOptions true i false e None None)
                w out E) as (t & Ht & ->).
    now split.
  - intros E.
    exact (@execute_first_failure c (mkOptions true i false e None None) w
             eq_refl E).
  - intros Hfail Hsleep.
    pose proof (@executeWithRetry_endings c (mkOptions true i false e None None)
                  3 0 false w eq_refl eq_refl) as H.
    pose proof (@executeWithRetry_no_throw _ execSync c
                  (mkOptions true i false e None None) 3 0 false w Hsleep) as Hthrow.
    cbv zeta in H. unfold execute. cbn [maxRetries_of maxRetries].
    destruct (result (executeWithRetry execSync c
                (mkOptions true i false e None None) 3 0 false w))
      as [[out|]| |code] eqn:Er.
    + exfalso.
      exact (@executeWithRetry_no_output _ execSync c
               (mkOptions true i false e None None) 3 0 false w out Hfail Er).
    + split; [exact H|now left].
    + now destruct Hthrow.
    + split; [exact H|]. right.
      destruct (@executeWithRetry_exit _ execSync c
                  (mkOptions true i false e None None) 3 0 false w code Er)
        as (-> & _). reflexivity.
Qed.

End Attempts.

(** The deployed listing fails three times and is answered at the fourth
    attempt: after three failed attempts the operation is not treated as
    failed; the command is executed a fourth time and its answer
    returned. *)
Lemma fourth_attempt_is_made :
  let c := Curl Deployed theEndpoint theKey ListTodos in
  let x := execute script_execSync c (opts true false)
             [None; succeeds; None; succeeds; None; succeeds;
              answers (JListTodos [milk jan1])] in
  result x = Ret (Some (Json (JListTodos [milk jan1]))) /\
  commands (trace x) = [c; Sleep 1000; c; Sleep 1000; c; Sleep 1000; c] /\
  length (filter is_curl (commands (trace x))) = 4%nat.
Proof. repeat split. Qed.

Lemma execute_retries_three_times_witness :
  let c := Curl Deployed theEndpoint theKey ListTodos in
  let x := execute (stateless only_sleep) c (opts true false) tt in
  (forall w', fst (stateless only_sleep c w') = None) /\
  (forall d w', fst (stateless only_sleep (Sleep d) w') <> None) /\
  commands (trace x) = [c; Sleep 1000; c; Sleep 1000; c; Sleep 1000; c] /\
  (result x = Ret None \/ result x = Exit 1%Z).
Proof.
  assert (Hf : forall w', fst (stateless only_sleep
                                 (Curl Deployed theEndpoint theKey ListTodos) w')
                          = None) by reflexivity.
  assert (Hs : forall d w', fst (stateless only_sleep (Sleep d) w') <> None)
    by (intros d w'; discriminate).
  exact (conj Hf (conj Hs
           (proj2 (proj2 (proj2 (proj2
              (@execute_retries_three_times unit (stateless only_sleep)
                 (Curl Deployed theEndpoint theKey ListTodos) false None tt))))
              Hf Hs))).
Defined.

(** ** Timestamps that do not parse, in both scripts *)

(** C9, as amended.  Neither script sets a record aside for its
    timestamp.  In [syncTwoWay], when an id is held by both replicas and
    one of the two [updatedAt] does not parse, both comparisons are false
    and the id gets no operation; a record held by one replica only is
    created on the other one also when its [updatedAt] does not parse.
    In the two-way merge of sync-data.js, for exports without repeated
    ids, when an id is held by both and one of the two [updatedAt] does
    not parse, the merge keeps the cloud record, which is then written to
    the local storage and sent to the table with the rest of the merged
    data; a record held by one export only is kept whatever its
    [updatedAt]. *)
Theorem unparseable_timestamp (getTime : string -> option Z) :
  (forall (A B : list Todo) (i : string) (a b : Todo),
      Map_get (mapOf A) i = Some a ->
      Map_get (mapOf B) i = Some b ->
      getTime (updatedAt a) = None \/ getTime (updatedAt b) = None ->
      filter (has_id i) (twoWayPlan getTime A B) = []) /\
  (forall (A B : list Todo) (i : string) (a : Todo),
      Map_get (mapOf A) i = Some a ->
      Map_get (mapOf B) i = None ->
      getTime (updatedAt a) = None ->
      filter (has_id i) (twoWayPlan getTime A B) = [mkOp Deployed create a]) /\
  (forall (A B : list Todo) (i : string) (b : Todo),
      Map_get (mapOf A) i = None ->
      Map_get (mapOf B) i = Some b ->
      getTime (updatedAt b) = None ->
      filter (has_id i) (twoWayPlan getTime A B) = [mkOp Local create b]) /\
  (forall (localData cloudData : list Todo) (i : string),
      NoDup (map id localData) -> NoDup (map id cloudData) ->
      let r := SyncData.twoWay getTime localData cloudData in
      match lookup i localData, lookup i cloudData with
      | Some item, Some cloudItem =>
          getTime (updatedAt item) = None \/ getTime (updatedAt cloudItem) = None ->
          lookup i (SyncData.localTodos r) = Some cloudItem /\
          lookup i (concat (SyncData.putRequests r)) = Some cloudItem
      | Some item, None =>
          lookup i (SyncData.localTodos r) = Some item /\
          lookup i (concat (SyncData.putRequests r)) = Some item
      | None, Some cloudItem =>
          lookup i (SyncData.localTodos r) = Some cloudItem /\
          lookup i (concat (SyncData.putRequests r)) = Some cloudItem
      | None, None => True
      end).
Proof.
  destruct (unparseable_in_plan getTime) as (H1 & H2 & H3).
  split; [exact H1|]. split; [exact H2|]. split; [exact H3|].
  intros localData cloudData i Hl Hc. cbv zeta.
  cbn [SyncData.twoWay SyncData.localTodos SyncData.putRequests].
  assert (Hcat : concat (SyncData.chunks (SyncData.mergedItems getTime localData cloudData))
                 = SyncData.mergedItems getTime localData cloudData)
    by (apply chunksFrom_spec; apply Nat.le_refl).
  rewrite Hcat.
  assert (Hm : lookup i (SyncData.mergedItems getTime localData cloudData)
               = match lookup i localData, lookup i cloudData with
                 | Some item, Some cloudItem =>
                     Some (if js_gt (getTime (updatedAt item))
                                    (getTime (updatedAt cloudItem))
                           then item else cloudItem)
                 | Some item, None => Some item
                 | None, kept => kept
                 end).
  { unfold SyncData.mergedItems.
    rewrite keyed_lookup by apply keyed_fold, keyed_mapOf.
    now rewrite fold_addLocal_get, mapOf_get_lookup. }
  rewrite Hm.
  destruct (lookup i localData) as [item|], (lookup i cloudData) as [cloudItem|];
    auto.
  intros [E|E]; rewrite E.
  - now split.
  - destruct (getTime (updatedAt item)); now split.
Qed.

Lemma unparseable_timestamp_witness :
  isoTime "not-a-date" = None /\
  filter (has_id "1") (twoWayPlan isoTime [oat_milk "not-a-date"] [milk jan1]) = [] /\
  filter (has_id "x") (twoWayPlan isoTime [bread "x" "not-a-date"] [])
    = [mkOp Deployed create (bread "x" "not-a-date")] /\
  filter (has_id "x") (twoWayPlan isoTime [] [bread "x" "not-a-date"])
    = [mkOp Local create (bread "x" "not-a-date")] /\
  NoDup (map id [oat_milk "not-a-date"]) /\ NoDup (map id [milk jan1]) /\
  lookup "1" (SyncData.localTodos
                (SyncData.twoWay isoTime [oat_milk "not-a-date"] [milk jan1]))
    = Some (milk jan1) /\
  lookup "1" (concat (SyncData.putRequests
                (SyncData.twoWay isoTime [oat_milk "not-a-date"] [milk jan1])))
    = Some (milk jan1).
Proof.
  destruct (unparseable_timestamp isoTime) as (H1 & H2 & H3 & H4).
  assert (Hl : NoDup (map id [oat_milk "not-a-date"]))
    by (repeat constructor; simpl; intuition).
  assert (Hc : NoDup (map id [milk jan1]))
    by (repeat constructor; simpl; intuition).
  split; [reflexivity|]. split; [|split; [|split; [|split; [|split]]]].
  - apply (H1 [oat_milk "not-a-date"] [milk jan1] "1" (oat_milk "not-a-date") (milk jan1));
      try reflexivity. now left.
  - apply H2; reflexivity.
  - apply H3; reflexivity.
  - exact Hl.
  - exact Hc.
  - apply (H4 [oat_milk "not-a-date"] [milk jan1] "1" Hl Hc). now left.
Defined.

(** ** The accessors, the plan and the commands *)

Section Calls.

Variable W : Type.
Variable execSync : command -> W -> option output * W.
Variable readOutputs : W -> outputs_file.
Variable getTime : string -> option Z.

Local Abbreviation Comp A := (W -> outcome A * W * list event).

Lemma no_throw_ends A (m : Comp A) w :
  no_throw m ->
  match result (m w) with
  | Ret _ => True
  | Throw => False
  | Exit c => c = 1%Z
  end.
Proof.
  intros H. destruct (H w) as (_ & _ & Hr).
  destruct (result (m w)); auto. discriminate.
Qed.

(** X9. No accessor lets an exception escape.  Whatever the commands do
    and whatever is answered, each of the six accessors either returns
    to its caller (the empty list or null when something went wrong) or
    ends the process with status 1 from inside [execute]. *)
Theorem accessors_never_throw (w : W) (todo : Todo) :
  let ends A (x : outcome A * W * list event) :=
    match result x with
    | Ret _ => True
    | Throw => False
    | Exit c => c = 1%Z
    end in
  ends _ (listLocalTodos execSync readOutputs w) /\
  ends _ (listDeployedTodos execSync readOutputs w) /\
  ends _ (createLocalTodo execSync readOutputs todo w) /\
  ends _ (createDeployedTodo execSync readOutputs todo w) /\
  ends _ (updateLocalTodo execSync readOutputs todo w) /\
  ends _ (updateDeployedTodo execSync readOutputs todo w).
Proof.
  cbv zeta. repeat split; apply no_throw_ends; unfold no_throw.
  - apply safe_listLocalTodos; auto.
  - apply safe_listDeployedTodos; auto.
  - apply safe_createLocalTodo; auto.
  - apply safe_createDeployedTodo; auto.
  - apply safe_updateLocalTodo; auto.
  - apply safe_updateDeployedTodo; auto.
Qed.

Lemma safe_for_of_In Pc thr A (xs : list A) (f : A -> Comp unit) :
  (forall x, In x xs -> safe Pc (fun _ _ => True) thr (f x)) ->
  safe Pc (fun _ _ => True) thr (for_of xs f).
Proof.
  induction xs as [|x r IH]; intros Hf; cbn [for_of].
  - apply safe_ret; auto.
  - apply safe_bind; auto.
    + apply Hf. now left.
    + intros _. apply IH. intros y Hy. apply Hf. now right.
Qed.

(** X2. A two-way run makes at most one accessor call, a create or an
    update, for an id; and every createTodo or updateTodo command run in
    its loops is the mutation of one of the operations of its plan, sent
    to the replica that operation is aimed at.  ([execute] may run the
    command of one call up to four times: the bound is on the calls, not
    on the commands.) *)
Theorem one_operation_per_id (A B : list Todo) (i : string) (w : W) :
  let plan := twoWayPlan getTime A B in
  (length (filter (has_id i) plan) <= 1)%nat /\
  Forall (event_ok (fun c =>
            is_write c = true ->
            exists o e k, In o plan /\ c = Curl (target o) e k (mutation o)))
    (trace (for_of plan (perform execSync readOutputs) w)).
Proof.
  cbv zeta. split.
  - rewrite plan_at.
    destruct (Map_get (mapOf A) i), (Map_get (mapOf B) i); simpl; try lia.
    destruct (js_gt _ _); simpl; [lia|]. destruct (js_gt _ _); simpl; lia.
  - apply trace_of_safe with (thr := false). apply safe_for_of_In.
    intros o Ho. apply safe_perform; auto.
    + intros c Hc Hw. congruence.
    + intros e k _. now exists o, e, k.
Qed.

End Calls.
